(** * Simon block cipher (tb-c reference model): shallow embedding

    The C sources under [tb-c/] ([definitions.h], [simon64.h], [simon128.h],
    [functions.h], [simon.c]) are embedded as Rocq functions.

    - A [u32] / [u64] value is a [Z] in [0, 2^32) / [0, 2^64); the only
      operation of the sources that can leave the range is the left shift,
      whose wrap-around is written out.
    - A C array is a [list Z]; [a[i]] is [a !!! i] and [a[i] = v] is
      [<[i:=v]> a].  Output arrays ([rk], [Ct], [Pt]) are passed in and
      returned, as the C functions receive the caller's buffer.
    - A [for] loop is [for_loop]: the condition is tested before every
      iteration, on a state that holds the loop index next to the data. *)

From Stdlib Require Import ZArith Lia ZifyNat Bool.
From stdpp Require Import base numbers list.

Local Open Scope Z_scope.

(** ** Loops

    [for_loop fuel cond body s] runs [while (cond) body] from the state
    [s], for at most [fuel] passes.  Each use below gives a bound that the
    loop does not reach: it leaves through its condition ([for_loop_iter],
    [for_loop_exit]). *)

Fixpoint for_loop {St : Type} (fuel : nat) (cond : St → bool)
    (body : St → St) (s : St) : St :=
  match fuel with
  | O => s
  | S fuel' => if cond s then for_loop fuel' cond body (body s) else s
  end.

(** ** definitions.h *)

Module Import Definitions.

Definition to_u8 (x : Z) : Z := x mod 2 ^ 8.
Definition to_u32 (x : Z) : Z := x mod 2 ^ 32.
Definition to_u64 (x : Z) : Z := x mod 2 ^ 64.

(** [w]-bit unsigned values. *)
Definition word (w : Z) (x : Z) : Prop := 0 <= x < 2 ^ w.

(** [#define ROTL32(x,r) (((x)<<(r)) | (x>>(32-(r))))] and its three
    siblings; the macros differ in the width only.  The left shift is
    taken in the unsigned type of [x], hence modulo [2^w]. *)
Definition ROTL (w : Z) (x r : Z) : Z :=
  Z.lor (Z.shiftl x r mod 2 ^ w) (Z.shiftr x (w - r)).
Definition ROTR (w : Z) (x r : Z) : Z :=
  Z.lor (Z.shiftr x r) (Z.shiftl x (w - r) mod 2 ^ w).

Definition ROTL32 : Z → Z → Z := ROTL 32.
Definition ROTR32 : Z → Z → Z := ROTR 32.
Definition ROTL64 : Z → Z → Z := ROTL 64.
Definition ROTR64 : Z → Z → Z := ROTR 64.

Definition N_ROUNDS__64_96 : nat := 42.
Definition N_ROUNDS__64_128 : nat := 44.
Definition N_ROUNDS__128_128 : nat := 68.
Definition N_ROUNDS__128_192 : nat := 69.
Definition N_ROUNDS__128_256 : nat := 72.

Definition MODE_ENC : Z := 0.

End Definitions.

Infix ".^" := Z.lxor (at level 40, left associativity) : Z_scope.

(** ** The round function and the double round

    [#define f32(x) ((ROTL32(x,1) & ROTL32(x,8)) ^ ROTL32(x,2))]
    [#define R32x2(x,y,k1,k2) (y^=f32(x), y^=k1, x^=f32(y), x^=k2)]

    [x] and [y] are lvalues [a[x]], [a[y]] of one two-word array in every
    use, so the macro is a function of the array and the two indices; the
    four compound assignments are sequenced by the comma operator. *)

Definition f (w : Z) (x : Z) : Z :=
  Z.land (ROTL w x 1) (ROTL w x 8) .^ ROTL w x 2.

Definition f32 : Z → Z := f 32.
Definition f64 : Z → Z := f 64.

Definition Rx2 (w : Z) (x y : nat) (k1 k2 : Z) (a : list Z) : list Z :=
  let a := <[y := (a !!! y) .^ f w (a !!! x)]> a in
  let a := <[y := (a !!! y) .^ k1]> a in
  let a := <[x := (a !!! x) .^ f w (a !!! y)]> a in
  <[x := (a !!! x) .^ k2]> a.

Definition R32x2 : nat → nat → Z → Z → list Z → list Z := Rx2 32.
Definition R64x2 : nat → nat → Z → Z → list Z → list Z := Rx2 64.

(** ** simon64.h: 64-bit block, 32-bit words

    Every key schedule is given with the initial value of its local [z]
    as an argument ([..._z]); the C function is the instance at the
    literal of the source.  This makes "which bit of the sequence a
    sub-round uses" a statement about the function. *)

Module Import Simon64.

Definition c32 : Z := 0xfffffffc.
Definition z_6496 : Z := 0x7369f885192c0ef5.
Definition z_64128 : Z := 0xfc2ce51207a635db.

(** One pass of the loop of [Simon6496KeySchedule]:
    [rk[i]=c^(z&1)^rk[i-3]^ROTR32(rk[i-1],3)^ROTR32(rk[i-1],4); z>>=1;]
    and [i++].  The right-hand side is computed in [u64] (because of
    [z&1]) and converted to [u32] by the assignment to [rk[i]]. *)
Definition ks6496_body (s : nat * Z * list Z) : nat * Z * list Z :=
  let '(i, z, rk) := s in
  let c := c32 in
  let rk := <[i := to_u32 (c .^ Z.land z 1 .^ rk !!! (i - 3)%nat
                             .^ ROTR32 (rk !!! (i - 1)%nat) 3
                             .^ ROTR32 (rk !!! (i - 1)%nat) 4)]> rk in
  let z := Z.shiftr z 1 in
  (S i, z, rk).

Definition Simon6496KeySchedule_z (z : Z) (K rk : list Z) : list Z :=
  let rk := <[0%nat := K !!! 0%nat]> rk in
  let rk := <[1%nat := K !!! 1%nat]> rk in
  let rk := <[2%nat := K !!! 2%nat]> rk in
  let '(_, _, rk) :=
    for_loop 42 (λ '(i, _, _), (i <? 42)%nat) ks6496_body (3%nat, z, rk) in
  rk.

Definition Simon6496KeySchedule : list Z → list Z → list Z :=
  Simon6496KeySchedule_z z_6496.

(** [for(i=0;i<42;) R32x2(Ct[1],Ct[0],rk[i++],rk[i++]);] *)
Definition Simon6496Encrypt (Pt Ct rk : list Z) : list Z :=
  let Ct := <[1%nat := Pt !!! 1%nat]> Ct in
  let Ct := <[0%nat := Pt !!! 0%nat]> Ct in
  snd (for_loop 42 (λ '(i, _), (i <? 42)%nat)
         (λ '(i, Ct), (S (S i), R32x2 1 0 (rk !!! i) (rk !!! S i) Ct))
         (0%nat, Ct)).

(** [for(i=41;i>=0;) R32x2(Pt[0],Pt[1],rk[i--],rk[i--]);] with [int i]. *)
Definition Simon6496Decrypt (Pt Ct rk : list Z) : list Z :=
  let Pt := <[1%nat := Ct !!! 1%nat]> Pt in
  let Pt := <[0%nat := Ct !!! 0%nat]> Pt in
  snd (for_loop 42 (λ '(i, _), 0 <=? i)
         (λ '(i, Pt),
            (i - 1 - 1,
             R32x2 0 1 (rk !!! Z.to_nat i) (rk !!! Z.to_nat (i - 1)) Pt))
         (41, Pt)).

Definition ks64128_body (s : nat * Z * list Z) : nat * Z * list Z :=
  let '(i, z, rk) := s in
  let c := c32 in
  let rk := <[i := to_u32 (c .^ Z.land z 1 .^ rk !!! (i - 4)%nat
                             .^ ROTR32 (rk !!! (i - 1)%nat) 3
                             .^ rk !!! (i - 3)%nat
                             .^ ROTR32 (rk !!! (i - 1)%nat) 4
                             .^ ROTR32 (rk !!! (i - 3)%nat) 1)]> rk in
  let z := Z.shiftr z 1 in
  (S i, z, rk).

Definition Simon64128KeySchedule_z (z : Z) (K rk : list Z) : list Z :=
  let rk := <[0%nat := K !!! 0%nat]> rk in
  let rk := <[1%nat := K !!! 1%nat]> rk in
  let rk := <[2%nat := K !!! 2%nat]> rk in
  let rk := <[3%nat := K !!! 3%nat]> rk in
  let '(_, _, rk) :=
    for_loop 44 (λ '(i, _, _), (i <? 44)%nat) ks64128_body (4%nat, z, rk) in
  rk.

Definition Simon64128KeySchedule : list Z → list Z → list Z :=
  Simon64128KeySchedule_z z_64128.

Definition Simon64128Encrypt (Pt Ct rk : list Z) : list Z :=
  let Ct := <[1%nat := Pt !!! 1%nat]> Ct in
  let Ct := <[0%nat := Pt !!! 0%nat]> Ct in
  snd (for_loop 44 (λ '(i, _), (i <? 44)%nat)
         (λ '(i, Ct), (S (S i), R32x2 1 0 (rk !!! i) (rk !!! S i) Ct))
         (0%nat, Ct)).

Definition Simon64128Decrypt (Pt Ct rk : list Z) : list Z :=
  let Pt := <[1%nat := Ct !!! 1%nat]> Pt in
  let Pt := <[0%nat := Ct !!! 0%nat]> Pt in
  snd (for_loop 44 (λ '(i, _), 0 <=? i)
         (λ '(i, Pt),
            (i - 1 - 1,
             R32x2 0 1 (rk !!! Z.to_nat i) (rk !!! Z.to_nat (i - 1)) Pt))
         (43, Pt)).

End Simon64.

(** ** simon128.h: 128-bit block, 64-bit words *)

Module Import Simon128.

Definition c64 : Z := 0xfffffffffffffffc.
Definition z_128128 : Z := 0x7369f885192c0ef5.
Definition z_128192 : Z := 0xfc2ce51207a635db.
Definition z_128256 : Z := 0xfdc94c3a046d678b.

(** One pass of the loop of [Simon128128KeySchedule]:
    [rk[i++]=A; A^=c^(z&1)^ROTR64(B,3)^ROTR64(B,4); z>>=1;]
    [rk[i++]=B; B^=c^(z&1)^ROTR64(A,3)^ROTR64(A,4); z>>=1;] *)
Definition ks128128_body (s : nat * Z * Z * Z * list Z)
    : nat * Z * Z * Z * list Z :=
  let '(i, A, B, z, rk) := s in
  let c := c64 in
  let rk := <[i := A]> rk in let i := S i in
  let A := A .^ (c .^ Z.land z 1 .^ ROTR64 B 3 .^ ROTR64 B 4) in
  let z := Z.shiftr z 1 in
  let rk := <[i := B]> rk in let i := S i in
  let B := B .^ (c .^ Z.land z 1 .^ ROTR64 A 3 .^ ROTR64 A 4) in
  let z := Z.shiftr z 1 in
  (i, A, B, z, rk).

(** [for(i=0;i<64;){ ... }] *)
Definition ks128128_loop (s : nat * Z * Z * Z * list Z)
    : nat * Z * Z * Z * list Z :=
  for_loop 64 (λ '(i, _, _, _, _), (i <? 64)%nat) ks128128_body s.

Definition Simon128128KeySchedule_z (z : Z) (K rk : list Z) : list Z :=
  let B := K !!! 1%nat in let A := K !!! 0%nat in
  let c := c64 in
  let '(_, A, B, _, rk) := ks128128_loop (0%nat, A, B, z, rk) in
  let rk := <[64%nat := A]> rk in
  let A := A .^ (c .^ 1 .^ ROTR64 B 3 .^ ROTR64 B 4) in
  let rk := <[65%nat := B]> rk in
  let B := B .^ (c .^ 0 .^ ROTR64 A 3 .^ ROTR64 A 4) in
  let rk := <[66%nat := A]> rk in
  <[67%nat := B]> rk.

Definition Simon128128KeySchedule : list Z → list Z → list Z :=
  Simon128128KeySchedule_z z_128128.

(** [for(i=0;i<68;i+=2) R64x2(Ct[1],Ct[0],rk[i],rk[i+1]);] *)
Definition Simon128128Encrypt (Pt Ct rk : list Z) : list Z :=
  let Ct := <[0%nat := Pt !!! 0%nat]> Ct in
  let Ct := <[1%nat := Pt !!! 1%nat]> Ct in
  snd (for_loop 68 (λ '(i, _), (i <? 68)%nat)
         (λ '(i, Ct), ((i + 2)%nat, R64x2 1 0 (rk !!! i) (rk !!! (i + 1)%nat) Ct))
         (0%nat, Ct)).

(** [for(i=67;i>=0;i-=2) R64x2(Pt[0],Pt[1],rk[i],rk[i-1]);] with [int i]. *)
Definition Simon128128Decrypt (Pt Ct rk : list Z) : list Z :=
  let Pt := <[0%nat := Ct !!! 0%nat]> Pt in
  let Pt := <[1%nat := Ct !!! 1%nat]> Pt in
  snd (for_loop 68 (λ '(i, _), 0 <=? i)
         (λ '(i, Pt),
            (i - 2,
             R64x2 0 1 (rk !!! Z.to_nat i) (rk !!! Z.to_nat (i - 1)) Pt))
         (67, Pt)).

Definition ks128192_body (s : nat * Z * Z * Z * Z * list Z)
    : nat * Z * Z * Z * Z * list Z :=
  let '(i, A, B, C, z, rk) := s in
  let c := c64 in
  let rk := <[i := A]> rk in let i := S i in
  let A := A .^ (c .^ Z.land z 1 .^ ROTR64 C 3 .^ ROTR64 C 4) in
  let z := Z.shiftr z 1 in
  let rk := <[i := B]> rk in let i := S i in
  let B := B .^ (c .^ Z.land z 1 .^ ROTR64 A 3 .^ ROTR64 A 4) in
  let z := Z.shiftr z 1 in
  let rk := <[i := C]> rk in let i := S i in
  let C := C .^ (c .^ Z.land z 1 .^ ROTR64 B 3 .^ ROTR64 B 4) in
  let z := Z.shiftr z 1 in
  (i, A, B, C, z, rk).

(** [for(i=0;i<63;){ ... }] *)
Definition ks128192_loop (s : nat * Z * Z * Z * Z * list Z)
    : nat * Z * Z * Z * Z * list Z :=
  for_loop 63 (λ '(i, _, _, _, _, _), (i <? 63)%nat) ks128192_body s.

Definition Simon128192KeySchedule_z (z : Z) (K rk : list Z) : list Z :=
  let C := K !!! 2%nat in let B := K !!! 1%nat in let A := K !!! 0%nat in
  let c := c64 in
  let '(_, A, B, C, _, rk) := ks128192_loop (0%nat, A, B, C, z, rk) in
  let rk := <[63%nat := A]> rk in
  let A := A .^ (c .^ 1 .^ ROTR64 C 3 .^ ROTR64 C 4) in
  let rk := <[64%nat := B]> rk in
  let B := B .^ (c .^ 0 .^ ROTR64 A 3 .^ ROTR64 A 4) in
  let rk := <[65%nat := C]> rk in
  let C := C .^ (c .^ 1 .^ ROTR64 B 3 .^ ROTR64 B 4) in
  let rk := <[66%nat := A]> rk in
  let rk := <[67%nat := B]> rk in
  <[68%nat := C]> rk.

Definition Simon128192KeySchedule : list Z → list Z → list Z :=
  Simon128192KeySchedule_z z_128192.

(** [for(i=0;i<68;i+=2) R64x2(Ct[1],Ct[0],rk[i],rk[i+1]);]
    [t=Ct[1]; Ct[1]=Ct[0]^f64(Ct[1])^rk[68]; Ct[0]=t;] *)
Definition Simon128192Encrypt (Pt Ct rk : list Z) : list Z :=
  let Ct := <[0%nat := Pt !!! 0%nat]> Ct in
  let Ct := <[1%nat := Pt !!! 1%nat]> Ct in
  let Ct :=
    snd (for_loop 68 (λ '(i, _), (i <? 68)%nat)
           (λ '(i, Ct), ((i + 2)%nat, R64x2 1 0 (rk !!! i) (rk !!! (i + 1)%nat) Ct))
           (0%nat, Ct)) in
  let t := Ct !!! 1%nat in
  let Ct := <[1%nat := Ct !!! 0%nat .^ f64 (Ct !!! 1%nat) .^ rk !!! 68%nat]> Ct in
  <[0%nat := t]> Ct.

(** [t=Pt[0]; Pt[0]=Pt[1]^f64(Pt[0])^rk[68]; Pt[1]=t;]
    [for(i=67;i>=0;i--) { t=Pt[0]; Pt[0]=Pt[1]^f64(Pt[0])^rk[i]; Pt[1]=t; }] *)
Definition Simon128192Decrypt (Pt Ct rk : list Z) : list Z :=
  let Pt := <[0%nat := Ct !!! 0%nat]> Pt in
  let Pt := <[1%nat := Ct !!! 1%nat]> Pt in
  let t := Pt !!! 0%nat in
  let Pt := <[0%nat := Pt !!! 1%nat .^ f64 (Pt !!! 0%nat) .^ rk !!! 68%nat]> Pt in
  let Pt := <[1%nat := t]> Pt in
  snd (for_loop 68 (λ '(i, _), 0 <=? i)
         (λ '(i, Pt),
            let t := Pt !!! 0%nat in
            let Pt := <[0%nat := Pt !!! 1%nat .^ f64 (Pt !!! 0%nat)
                                   .^ rk !!! Z.to_nat i]> Pt in
            let Pt := <[1%nat := t]> Pt in
            (i - 1, Pt))
         (67, Pt)).

Definition ks128256_body (s : nat * Z * Z * Z * Z * Z * list Z)
    : nat * Z * Z * Z * Z * Z * list Z :=
  let '(i, A, B, C, D, z, rk) := s in
  let c := c64 in
  let rk := <[i := A]> rk in let i := S i in
  let A := A .^ (c .^ Z.land z 1 .^ ROTR64 D 3 .^ ROTR64 D 4 .^ B .^ ROTR64 B 1) in
  let z := Z.shiftr z 1 in
  let rk := <[i := B]> rk in let i := S i in
  let B := B .^ (c .^ Z.land z 1 .^ ROTR64 A 3 .^ ROTR64 A 4 .^ C .^ ROTR64 C 1) in
  let z := Z.shiftr z 1 in
  let rk := <[i := C]> rk in let i := S i in
  let C := C .^ (c .^ Z.land z 1 .^ ROTR64 B 3 .^ ROTR64 B 4 .^ D .^ ROTR64 D 1) in
  let z := Z.shiftr z 1 in
  let rk := <[i := D]> rk in let i := S i in
  let D := D .^ (c .^ Z.land z 1 .^ ROTR64 C 3 .^ ROTR64 C 4 .^ A .^ ROTR64 A 1) in
  let z := Z.shiftr z 1 in
  (i, A, B, C, D, z, rk).

(** [for(i=0;i<64;){ ... }] *)
Definition ks128256_loop (s : nat * Z * Z * Z * Z * Z * list Z)
    : nat * Z * Z * Z * Z * Z * list Z :=
  for_loop 64 (λ '(i, _, _, _, _, _, _), (i <? 64)%nat) ks128256_body s.

Definition Simon128256KeySchedule_z (z : Z) (K rk : list Z) : list Z :=
  let D := K !!! 3%nat in let C := K !!! 2%nat in
  let B := K !!! 1%nat in let A := K !!! 0%nat in
  let c := c64 in
  let '(_, A, B, C, D, _, rk) := ks128256_loop (0%nat, A, B, C, D, z, rk) in
  let rk := <[64%nat := A]> rk in
  let A := A .^ (c .^ 0 .^ ROTR64 D 3 .^ ROTR64 D 4 .^ B .^ ROTR64 B 1) in
  let rk := <[65%nat := B]> rk in
  let B := B .^ (c .^ 1 .^ ROTR64 A 3 .^ ROTR64 A 4 .^ C .^ ROTR64 C 1) in
  let rk := <[66%nat := C]> rk in
  let C := C .^ (c .^ 0 .^ ROTR64 B 3 .^ ROTR64 B 4 .^ D .^ ROTR64 D 1) in
  let rk := <[67%nat := D]> rk in
  let D := D .^ (c .^ 0 .^ ROTR64 C 3 .^ ROTR64 C 4 .^ A .^ ROTR64 A 1) in
  let rk := <[68%nat := A]> rk in
  let rk := <[69%nat := B]> rk in
  let rk := <[70%nat := C]> rk in
  <[71%nat := D]> rk.

Definition Simon128256KeySchedule : list Z → list Z → list Z :=
  Simon128256KeySchedule_z z_128256.

Definition Simon128256Encrypt (Pt Ct rk : list Z) : list Z :=
  let Ct := <[0%nat := Pt !!! 0%nat]> Ct in
  let Ct := <[1%nat := Pt !!! 1%nat]> Ct in
  snd (for_loop 72 (λ '(i, _), (i <? 72)%nat)
         (λ '(i, Ct), ((i + 2)%nat, R64x2 1 0 (rk !!! i) (rk !!! (i + 1)%nat) Ct))
         (0%nat, Ct)).

Definition Simon128256Decrypt (Pt Ct rk : list Z) : list Z :=
  let Pt := <[0%nat := Ct !!! 0%nat]> Pt in
  let Pt := <[1%nat := Ct !!! 1%nat]> Pt in
  snd (for_loop 72 (λ '(i, _), 0 <=? i)
         (λ '(i, Pt),
            (i - 2,
             R64x2 0 1 (rk !!! Z.to_nat i) (rk !!! Z.to_nat (i - 1)) Pt))
         (71, Pt)).

End Simon128.

(** ** functions.h: words to and from little-endian bytes *)

Module Import Functions.

Definition Words32ToBytes (words bytes : list Z) (numwords : nat) : list Z :=
  let '(_, _, bytes) :=
    for_loop numwords (λ '(i, _, _), (i <? numwords)%nat)
      (λ '(i, j, bytes),
         let bytes := <[j := to_u8 (words !!! i)]> bytes in
         let bytes := <[(j + 1)%nat := to_u8 (Z.shiftr (words !!! i) 8)]> bytes in
         let bytes := <[(j + 2)%nat := to_u8 (Z.shiftr (words !!! i) 16)]> bytes in
         let bytes := <[(j + 3)%nat := to_u8 (Z.shiftr (words !!! i) 24)]> bytes in
         (S i, (j + 4)%nat, bytes))
      (0%nat, 0%nat, bytes) in
  bytes.

Definition Words64ToBytes (words bytes : list Z) (numwords : nat) : list Z :=
  let '(_, _, bytes) :=
    for_loop numwords (λ '(i, _, _), (i <? numwords)%nat)
      (λ '(i, j, bytes),
         let bytes := <[j := to_u8 (words !!! i)]> bytes in
         let bytes := <[(j + 1)%nat := to_u8 (Z.shiftr (words !!! i) 8)]> bytes in
         let bytes := <[(j + 2)%nat := to_u8 (Z.shiftr (words !!! i) 16)]> bytes in
         let bytes := <[(j + 3)%nat := to_u8 (Z.shiftr (words !!! i) 24)]> bytes in
         let bytes := <[(j + 4)%nat := to_u8 (Z.shiftr (words !!! i) 32)]> bytes in
         let bytes := <[(j + 5)%nat := to_u8 (Z.shiftr (words !!! i) 40)]> bytes in
         let bytes := <[(j + 6)%nat := to_u8 (Z.shiftr (words !!! i) 48)]> bytes in
         let bytes := <[(j + 7)%nat := to_u8 (Z.shiftr (words !!! i) 56)]> bytes in
         (S i, (j + 8)%nat, bytes))
      (0%nat, 0%nat, bytes) in
  bytes.

Definition BytesToWords32 (bytes words : list Z) (numbytes : nat) : list Z :=
  let '(_, _, words) :=
    for_loop numbytes (λ '(i, _, _), (i <? numbytes / 4)%nat)
      (λ '(i, j, words),
         let words :=
           <[i := Z.lor (Z.lor (Z.lor (to_u32 (bytes !!! j))
                    (to_u32 (Z.shiftl (bytes !!! (j + 1)%nat) 8)))
                    (to_u32 (Z.shiftl (bytes !!! (j + 2)%nat) 16)))
                    (to_u32 (Z.shiftl (bytes !!! (j + 3)%nat) 24))]> words in
         (S i, (j + 4)%nat, words))
      (0%nat, 0%nat, words) in
  words.

Definition BytesToWords64 (bytes words : list Z) (numbytes : nat) : list Z :=
  let '(_, _, words) :=
    for_loop numbytes (λ '(i, _, _), (i <? numbytes / 8)%nat)
      (λ '(i, j, words),
         let words :=
           <[i := Z.lor (Z.lor (Z.lor (Z.lor (Z.lor (Z.lor (Z.lor
                    (to_u64 (bytes !!! j))
                    (to_u64 (Z.shiftl (bytes !!! (j + 1)%nat) 8)))
                    (to_u64 (Z.shiftl (bytes !!! (j + 2)%nat) 16)))
                    (to_u64 (Z.shiftl (bytes !!! (j + 3)%nat) 24)))
                    (to_u64 (Z.shiftl (bytes !!! (j + 4)%nat) 32)))
                    (to_u64 (Z.shiftl (bytes !!! (j + 5)%nat) 40)))
                    (to_u64 (Z.shiftl (bytes !!! (j + 6)%nat) 48)))
                    (to_u64 (Z.shiftl (bytes !!! (j + 7)%nat) 56))]> words in
         (S i, (j + 8)%nat, words))
      (0%nat, 0%nat, words) in
  words.

End Functions.

(** ** functions.h with the array bounds

    C leaves an access outside an array undefined.  The checked variants
    of the four conversion loops make every access explicit: reading
    [a[i]] is [a !! i], [a[i] = v] is [store a i v], and the loop stops
    with [None] at the first access outside its array. *)

Definition store (a : list Z) (i : nat) (v : Z) : option (list Z) :=
  if (i <? length a)%nat then Some (<[i := v]> a) else None.

Definition Words32ToBytes_checked (words bytes : list Z) (numwords : nat)
    : option (list Z) :=
  s ← for_loop numwords
        (λ s, match s with
              | Some (i, _, _) => (i <? numwords)%nat
              | None => false
              end)
        (λ s, '(i, j, bytes) ← s;
              w ← words !! i; bytes ← store bytes j (to_u8 w);
              w ← words !! i;
              bytes ← store bytes (j + 1)%nat (to_u8 (Z.shiftr w 8));
              w ← words !! i;
              bytes ← store bytes (j + 2)%nat (to_u8 (Z.shiftr w 16));
              w ← words !! i;
              bytes ← store bytes (j + 3)%nat (to_u8 (Z.shiftr w 24));
              Some (S i, (j + 4)%nat, bytes))
        (Some (0%nat, 0%nat, bytes));
  Some s.2.

Definition Words64ToBytes_checked (words bytes : list Z) (numwords : nat)
    : option (list Z) :=
  s ← for_loop numwords
        (λ s, match s with
              | Some (i, _, _) => (i <? numwords)%nat
              | None => false
              end)
        (λ s, '(i, j, bytes) ← s;
              w ← words !! i; bytes ← store bytes j (to_u8 w);
              w ← words !! i;
              bytes ← store bytes (j + 1)%nat (to_u8 (Z.shiftr w 8));
              w ← words !! i;
              bytes ← store bytes (j + 2)%nat (to_u8 (Z.shiftr w 16));
              w ← words !! i;
              bytes ← store bytes (j + 3)%nat (to_u8 (Z.shiftr w 24));
              w ← words !! i;
              bytes ← store bytes (j + 4)%nat (to_u8 (Z.shiftr w 32));
              w ← words !! i;
              bytes ← store bytes (j + 5)%nat (to_u8 (Z.shiftr w 40));
              w ← words !! i;
              bytes ← store bytes (j + 6)%nat (to_u8 (Z.shiftr w 48));
              w ← words !! i;
              bytes ← store bytes (j + 7)%nat (to_u8 (Z.shiftr w 56));
              Some (S i, (j + 8)%nat, bytes))
        (Some (0%nat, 0%nat, bytes));
  Some s.2.

Definition BytesToWords32_checked (bytes words : list Z) (numbytes : nat)
    : option (list Z) :=
  s ← for_loop numbytes
        (λ s, match s with
              | Some (i, _, _) => (i <? numbytes / 4)%nat
              | None => false
              end)
        (λ s, '(i, j, words) ← s;
              b0 ← bytes !! j; b1 ← bytes !! (j + 1)%nat;
              b2 ← bytes !! (j + 2)%nat; b3 ← bytes !! (j + 3)%nat;
              words ← store words i
                (Z.lor (Z.lor (Z.lor (to_u32 b0) (to_u32 (Z.shiftl b1 8)))
                   (to_u32 (Z.shiftl b2 16))) (to_u32 (Z.shiftl b3 24)));
              Some (S i, (j + 4)%nat, words))
        (Some (0%nat, 0%nat, words));
  Some s.2.

Definition BytesToWords64_checked (bytes words : list Z) (numbytes : nat)
    : option (list Z) :=
  s ← for_loop numbytes
        (λ s, match s with
              | Some (i, _, _) => (i <? numbytes / 8)%nat
              | None => false
              end)
        (λ s, '(i, j, words) ← s;
              b0 ← bytes !! j; b1 ← bytes !! (j + 1)%nat;
              b2 ← bytes !! (j + 2)%nat; b3 ← bytes !! (j + 3)%nat;
              b4 ← bytes !! (j + 4)%nat; b5 ← bytes !! (j + 5)%nat;
              b6 ← bytes !! (j + 6)%nat; b7 ← bytes !! (j + 7)%nat;
              words ← store words i
                (Z.lor (Z.lor (Z.lor (Z.lor (Z.lor (Z.lor (Z.lor
                   (to_u64 b0) (to_u64 (Z.shiftl b1 8)))
                   (to_u64 (Z.shiftl b2 16))) (to_u64 (Z.shiftl b3 24)))
                   (to_u64 (Z.shiftl b4 32))) (to_u64 (Z.shiftl b5 40)))
                   (to_u64 (Z.shiftl b6 48))) (to_u64 (Z.shiftl b7 56)));
              Some (S i, (j + 8)%nat, words))
        (Some (0%nat, 0%nat, words));
  Some s.2.

(** ** simon.c: the DPI-C entry point

    An open array handle is the list of its bytes, indexed from [0]
    ([svLow = 0], [svHigh = svSize - 1]).  [io_printf] appends to a log.

    The local arrays are declared without initialiser.  What such an array
    holds before it is written is not fixed by the program: it is the
    argument [stack], the bytes or words that lie where the array is
    allocated.

    Step 4 calls [Words32ToBytes] and [Words64ToBytes] with the byte count
    [sz_txt/8] where they expect a word count.  The call is embedded with
    its array accesses checked: where the loop leaves [txto_u32],
    [txto_u64] or [txto_u8] the C program has no defined behaviour from
    there on, and the result of the entry point is [None] next to the log
    lines printed before.  The conversions of step 2 stay inside their
    arrays for every size ([BytesToWords32_checked_bounds],
    [BytesToWords64_checked_bounds]). *)

Module Import Harness.

Inductive message : Type :=
| INFO (sz_txt sz_key : nat) (encryption : bool)
| FAILURE (sz_txt sz_key : nat).

Inductive local : Type :=
| Ltxti_u8 | Lkey_u8 | Ltxto_u8 | Ltxti_w | Lkey_w | Ltxto_w | Lrk.

Definition uninit (stack : local → nat → Z) (x : local) (n : nat) : list Z :=
  stack x <$> seq 0 n.

(** [for (int i=svLow(a,1); i<(svHigh(a,1)+1); i++) dst[i] = src[i];]
    where [a] has [n] elements. *)
Definition copy_bytes (n : nat) (src dst : list Z) : list Z :=
  snd (for_loop n (λ '(i, _), (i <? n)%nat)
         (λ '(i, dst), (S i, <[i := src !!! i]> dst))
         (0%nat, dst)).

Definition dpi_c_run_simon (stack : local → nat → Z) (crypto_mode : Z)
    (txt_i key_i txt_o : list Z) : list message * option (list Z) :=
  let sz_txt := (length txt_i * 8)%nat in
  let sz_key := (length key_i * 8)%nat in
  let log := [INFO sz_txt sz_key (crypto_mode =? MODE_ENC)] in
  let txti_u8 := uninit stack Ltxti_u8 (sz_txt / 8) in
  let key_u8 := uninit stack Lkey_u8 (sz_key / 8) in
  let txto_u8 := uninit stack Ltxto_u8 (sz_txt / 8) in
  let txti_u8 := copy_bytes (length txt_i) txt_i txti_u8 in
  let key_u8 := copy_bytes (length key_i) key_i key_u8 in
  let '(log, txto_u8) :=
    if (sz_txt =? 64)%nat then
      let txti_u32 := uninit stack Ltxti_w (sz_txt / 32) in
      let key_u32 := uninit stack Lkey_w (sz_key / 32) in
      let txto_u32 := uninit stack Ltxto_w (sz_txt / 32) in
      let txti_u32 := BytesToWords32 txti_u8 txti_u32 (sz_txt / 8) in
      let key_u32 := BytesToWords32 key_u8 key_u32 (sz_key / 8) in
      let '(log, txto_u32) :=
        if (sz_key =? 96)%nat then
          let rk := uninit stack Lrk N_ROUNDS__64_96 in
          let rk := Simon6496KeySchedule key_u32 rk in
          if crypto_mode =? MODE_ENC
          then (log, Simon6496Encrypt txti_u32 txto_u32 rk)
          else (log, Simon6496Decrypt txto_u32 txti_u32 rk)
        else if (sz_key =? 128)%nat then
          let rk := uninit stack Lrk N_ROUNDS__64_128 in
          let rk := Simon64128KeySchedule key_u32 rk in
          if crypto_mode =? MODE_ENC
          then (log, Simon64128Encrypt txti_u32 txto_u32 rk)
          else (log, Simon64128Decrypt txto_u32 txti_u32 rk)
        else (log ++ [FAILURE sz_txt sz_key], txto_u32) in
      (log, Words32ToBytes_checked txto_u32 txto_u8 (sz_txt / 8))
    else if (sz_txt =? 128)%nat then
      let txti_u64 := uninit stack Ltxti_w (sz_txt / 64) in
      let key_u64 := uninit stack Lkey_w (sz_key / 64) in
      let txto_u64 := uninit stack Ltxto_w (sz_txt / 64) in
      let txti_u64 := BytesToWords64 txti_u8 txti_u64 (sz_txt / 8) in
      let key_u64 := BytesToWords64 key_u8 key_u64 (sz_key / 8) in
      let '(log, txto_u64) :=
        if (sz_key =? 128)%nat then
          let rk := uninit stack Lrk N_ROUNDS__128_128 in
          let rk := Simon128128KeySchedule key_u64 rk in
          if crypto_mode =? MODE_ENC
          then (log, Simon128128Encrypt txti_u64 txto_u64 rk)
          else (log, Simon128128Decrypt txto_u64 txti_u64 rk)
        else if (sz_key =? 192)%nat then
          let rk := uninit stack Lrk N_ROUNDS__128_192 in
          let rk := Simon128192KeySchedule key_u64 rk in
          if crypto_mode =? MODE_ENC
          then (log, Simon128192Encrypt txti_u64 txto_u64 rk)
          else (log, Simon128192Decrypt txto_u64 txti_u64 rk)
        else if (sz_key =? 256)%nat then
          let rk := uninit stack Lrk N_ROUNDS__128_256 in
          let rk := Simon128256KeySchedule key_u64 rk in
          if crypto_mode =? MODE_ENC
          then (log, Simon128256Encrypt txti_u64 txto_u64 rk)
          else (log, Simon128256Decrypt txto_u64 txti_u64 rk)
        else (log ++ [FAILURE sz_txt sz_key], txto_u64) in
      (log, Words64ToBytes_checked txto_u64 txto_u8 (sz_txt / 8))
    else (log ++ [FAILURE sz_txt sz_key], Some txto_u8) in
  (log, txto_u8 ← txto_u8; Some (copy_bytes (length txt_i) txto_u8 txt_o)).

End Harness.

(** ** The five variants

    The dispatch of [dpi_c_run_simon] on [(sz_txt, sz_key)] selects one
    function triple; the table below names the five selections. *)

Inductive variant : Type :=
| Simon64_96 | Simon64_128 | Simon128_128 | Simon128_192 | Simon128_256.

Definition all_variants : list variant :=
  [Simon64_96; Simon64_128; Simon128_128; Simon128_192; Simon128_256].

Definition block_bits (v : variant) : nat :=
  match v with
  | Simon64_96 | Simon64_128 => 64
  | Simon128_128 | Simon128_192 | Simon128_256 => 128
  end.

Definition key_bits (v : variant) : nat :=
  match v with
  | Simon64_96 => 96 | Simon64_128 => 128
  | Simon128_128 => 128 | Simon128_192 => 192 | Simon128_256 => 256
  end.

Definition word_bits (v : variant) : Z :=
  match v with
  | Simon64_96 | Simon64_128 => 32
  | Simon128_128 | Simon128_192 | Simon128_256 => 64
  end.

Definition key_words (v : variant) : nat :=
  match v with
  | Simon64_96 => 3 | Simon64_128 => 4
  | Simon128_128 => 2 | Simon128_192 => 3 | Simon128_256 => 4
  end.

Definition rounds (v : variant) : nat :=
  match v with
  | Simon64_96 => N_ROUNDS__64_96
  | Simon64_128 => N_ROUNDS__64_128
  | Simon128_128 => N_ROUNDS__128_128
  | Simon128_192 => N_ROUNDS__128_192
  | Simon128_256 => N_ROUNDS__128_256
  end.

(** The literal each key schedule loads into [z]. *)
Definition const_seq (v : variant) : Z :=
  match v with
  | Simon64_96 => z_6496
  | Simon64_128 => z_64128
  | Simon128_128 => z_128128
  | Simon128_192 => z_128192
  | Simon128_256 => z_128256
  end.

Definition KeySchedule_z (v : variant) : Z → list Z → list Z → list Z :=
  match v with
  | Simon64_96 => Simon6496KeySchedule_z
  | Simon64_128 => Simon64128KeySchedule_z
  | Simon128_128 => Simon128128KeySchedule_z
  | Simon128_192 => Simon128192KeySchedule_z
  | Simon128_256 => Simon128256KeySchedule_z
  end.

Definition KeySchedule (v : variant) : list Z → list Z → list Z :=
  match v with
  | Simon64_96 => Simon6496KeySchedule
  | Simon64_128 => Simon64128KeySchedule
  | Simon128_128 => Simon128128KeySchedule
  | Simon128_192 => Simon128192KeySchedule
  | Simon128_256 => Simon128256KeySchedule
  end.

Definition Encrypt (v : variant) : list Z → list Z → list Z → list Z :=
  match v with
  | Simon64_96 => Simon6496Encrypt
  | Simon64_128 => Simon64128Encrypt
  | Simon128_128 => Simon128128Encrypt
  | Simon128_192 => Simon128192Encrypt
  | Simon128_256 => Simon128256Encrypt
  end.

Definition Decrypt (v : variant) : list Z → list Z → list Z → list Z :=
  match v with
  | Simon64_96 => Simon6496Decrypt
  | Simon64_128 => Simon64128Decrypt
  | Simon128_128 => Simon128128Decrypt
  | Simon128_192 => Simon128192Decrypt
  | Simon128_256 => Simon128256Decrypt
  end.

(** The size pairs [dpi_c_run_simon] has a branch for. *)
Definition supported (sz_txt sz_key : nat) : bool :=
  existsb (λ v, (sz_txt =? block_bits v)%nat && (sz_key =? key_bits v)%nat)
    all_variants.

(** ** Vocabulary of the statements *)

(** *** Rounds of the block transforms

    [enc_rounds w n rk a]: the double rounds with keys [(rk[0],rk[1])],
    ..., [(rk[2n-2],rk[2n-1])], in this order, on the block [a];
    [dec_rounds w n rk a]: the inverse double rounds with keys
    [(rk[2n-1],rk[2n-2])], ..., [(rk[1],rk[0])], in this order. *)

Fixpoint enc_rounds (w : Z) (n : nat) (rk a : list Z) : list Z :=
  match n with
  | O => a
  | S n' => Rx2 w 1 0 (rk !!! (2 * n')%nat) (rk !!! (2 * n' + 1)%nat)
              (enc_rounds w n' rk a)
  end.

Fixpoint dec_rounds (w : Z) (n : nat) (rk a : list Z) : list Z :=
  match n with
  | O => a
  | S n' => dec_rounds w n' rk
              (Rx2 w 0 1 (rk !!! (2 * n' + 1)%nat) (rk !!! (2 * n')%nat) a)
  end.

(** The extra half round of the 69-round variant, on a block [[l; r]]:
    swap with an XOR-mix, and its inverse. *)
Definition half_round (k : Z) (a : list Z) : list Z :=
  [a !!! 1%nat; a !!! 0%nat .^ f64 (a !!! 1%nat) .^ k].

Definition half_round_inv (k : Z) (a : list Z) : list Z :=
  [a !!! 1%nat .^ f64 (a !!! 0%nat) .^ k; a !!! 0%nat].

(** *** Key expansion as a sliding window

    [window g K j] holds the [m] schedule entries [j .. j+m-1]; sub-round
    [j] drops the oldest and appends [g j] of the window. *)

Definition slide (g : nat → list Z → Z) (j : nat) (wdw : list Z) : list Z :=
  tail wdw ++ [g j wdw].

Fixpoint window (g : nat → list Z → Z) (K : list Z) (j : nat) : list Z :=
  match j with
  | O => K
  | S j' => slide g j' (window g K j')
  end.

Definition entry (g : nat → list Z → Z) (K : list Z) (j : nat) : Z :=
  window g K j !!! 0%nat.

(** The buffer [rk] after its first [n] words were overwritten by
    [e 0 .. e (n-1)]. *)
Definition written (e : nat → Z) (n : nat) (rk : list Z) : list Z :=
  (e <$> seq 0 n) ++ drop n rk.

(** Bit [j] of the constant sequence, as the loops consume it:
    [z&1] after [j] shifts [z>>=1]. *)
Definition seq_bit (z : Z) (j : nat) : Z := Z.land (Z.shiftr z (Z.of_nat j)) 1.

(** Number of sub-rounds inside the loop of each key schedule, and the
    literals the sub-rounds after the loop use in place of [z&1]. *)
Definition drawn (v : variant) : nat :=
  match v with
  | Simon64_96 => 39 | Simon64_128 => 40
  | Simon128_128 => 64 | Simon128_192 => 63 | Simon128_256 => 64
  end.

Definition forced (v : variant) : list Z :=
  match v with
  | Simon64_96 | Simon64_128 => []
  | Simon128_128 => [1; 0]
  | Simon128_192 => [1; 0; 1]
  | Simon128_256 => [0; 1; 0; 0]
  end.

Definition round_bit (v : variant) (z : Z) (j : nat) : Z :=
  if (j <? drawn v)%nat then seq_bit z j else forced v !!! (j - drawn v)%nat.

(** The value a sub-round computes from the window [w] (oldest entry
    first) and its constant bit; each case has the shape of the source
    expression. *)
Definition update (v : variant) (bit : Z) (w : list Z) : Z :=
  match v with
  | Simon64_96 =>
      to_u32 (c32 .^ bit .^ w !!! 0%nat
                .^ ROTR32 (w !!! 2%nat) 3 .^ ROTR32 (w !!! 2%nat) 4)
  | Simon64_128 =>
      to_u32 (c32 .^ bit .^ w !!! 0%nat
                .^ ROTR32 (w !!! 3%nat) 3 .^ w !!! 1%nat
                .^ ROTR32 (w !!! 3%nat) 4 .^ ROTR32 (w !!! 1%nat) 1)
  | Simon128_128 =>
      w !!! 0%nat .^ (c64 .^ bit .^ ROTR64 (w !!! 1%nat) 3 .^ ROTR64 (w !!! 1%nat) 4)
  | Simon128_192 =>
      w !!! 0%nat .^ (c64 .^ bit .^ ROTR64 (w !!! 2%nat) 3 .^ ROTR64 (w !!! 2%nat) 4)
  | Simon128_256 =>
      w !!! 0%nat .^ (c64 .^ bit .^ ROTR64 (w !!! 3%nat) 3 .^ ROTR64 (w !!! 3%nat) 4
                        .^ w !!! 1%nat .^ ROTR64 (w !!! 1%nat) 1)
  end.

(** The key words the schedule reads: [K[0] .. K[m-1]]. *)
Definition key_regs (v : variant) (K : list Z) : list Z :=
  (λ j, K !!! j) <$> seq 0 (key_words v).

(** Entry [j] of the schedule of variant [v] for key [K], with [z] the
    initial value of the constant sequence. *)
Definition rk_entry (v : variant) (z : Z) (K : list Z) (j : nat) : Z :=
  entry (λ j w, update v (round_bit v z j) w) (key_regs v K) j.

(** One pass of the loop of [Simon128192Decrypt]: a single inverse round. *)
Definition single_down (rk : list Z) (s : Z * list Z) : Z * list Z :=
  let '(i, Pt) := s in
  let t := Pt !!! 0%nat in
  let Pt := <[0%nat := Pt !!! 1%nat .^ f64 (Pt !!! 0%nat) .^ rk !!! Z.to_nat i]> Pt in
  let Pt := <[1%nat := t]> Pt in
  (i - 1, Pt).

(** *** Statements the code is compared with *)

(** Bit [i] of the [w]-bit word [x] rotated left by [r] places. *)
Definition rotl_bit (w x r i : Z) : bool := Z.testbit x ((i - r) mod w).

(** "The last [n] of the [T] schedule entries come from updates whose
    constant bit is fixed, not drawn from the sequence": two constant
    sequences that give the same first [T - n] entries give the same
    schedule. *)
Definition closing_forced (sched : Z → list Z → list Z → list Z)
    (T n : nat) : Prop :=
  ∀ (z z' : Z) (K rk : list Z),
    length rk = T →
    take (T - n) (sched z K rk) = take (T - n) (sched z' K rk) →
    sched z K rk = sched z' K rk.

(** The four-word update in the words of the specification: "the
    register two-back XORed with [rotr(reg_minus1,3) ^ rotr(reg_minus1,4)]
    and additionally XORed with [reg_minus3 ^ rotr(reg_minus3,1)]". *)
Definition update4_as_stated (rotr : Z → Z → Z)
    (reg_minus1 reg_two_back reg_minus3 : Z) : Z :=
  reg_two_back .^ (rotr reg_minus1 3 .^ rotr reg_minus1 4)
               .^ (reg_minus3 .^ rotr reg_minus3 1).

(** "A core of [n] sub-round pairs": [n] passes of the A/B pair from the
    initial registers. *)
Definition ks128128_core (n : nat) (z : Z) (K rk : list Z)
    : nat * Z * Z * Z * list Z :=
  Nat.iter n ks128128_body (0%nat, K !!! 0%nat, K !!! 1%nat, z, rk).

(** "No two variants share the same sequence." *)
Definition sequences_pairwise_distinct : Prop :=
  ∀ v v' : variant, v ≠ v' → const_seq v ≠ const_seq v'.

(** *** The byte and word codec

    [word32_at bytes j] is the word [BytesToWords32] assembles from the
    four bytes at [j], [word64_at] the one [BytesToWords64] assembles from
    eight; [byte32_of words p] is byte [p] of the little-endian image of
    [words] that [Words32ToBytes] writes, [byte64_of] that of
    [Words64ToBytes]. *)

Definition word32_at (bytes : list Z) (j : nat) : Z :=
  Z.lor (Z.lor (Z.lor (to_u32 (bytes !!! j))
    (to_u32 (Z.shiftl (bytes !!! (j + 1)%nat) 8)))
    (to_u32 (Z.shiftl (bytes !!! (j + 2)%nat) 16)))
    (to_u32 (Z.shiftl (bytes !!! (j + 3)%nat) 24)).

Definition word64_at (bytes : list Z) (j : nat) : Z :=
  Z.lor (Z.lor (Z.lor (Z.lor (Z.lor (Z.lor (Z.lor
    (to_u64 (bytes !!! j))
    (to_u64 (Z.shiftl (bytes !!! (j + 1)%nat) 8)))
    (to_u64 (Z.shiftl (bytes !!! (j + 2)%nat) 16)))
    (to_u64 (Z.shiftl (bytes !!! (j + 3)%nat) 24)))
    (to_u64 (Z.shiftl (bytes !!! (j + 4)%nat) 32)))
    (to_u64 (Z.shiftl (bytes !!! (j + 5)%nat) 40)))
    (to_u64 (Z.shiftl (bytes !!! (j + 6)%nat) 48)))
    (to_u64 (Z.shiftl (bytes !!! (j + 7)%nat) 56)).

Definition byte32_of (words : list Z) (p : nat) : Z :=
  to_u8 (Z.shiftr (words !!! (p / 4)%nat) (8 * Z.of_nat (p mod 4))).

Definition byte64_of (words : list Z) (p : nat) : Z :=
  to_u8 (Z.shiftr (words !!! (p / 8)%nat) (8 * Z.of_nat (p mod 8))).

(** *** Single rounds

    [feistel w k] is the round that ends [Simon128192Encrypt],
    [t=Ct[1]; Ct[1]=Ct[0]^f64(Ct[1])^rk[68]; Ct[0]=t;], at word width [w],
    on the block [[Ct[0]; Ct[1]]]; [feistel_inv w k] is the round that
    opens [Simon128192Decrypt].  [feistel_rounds w n rk] applies the
    rounds with keys [rk[0], ..., rk[n-1]] in this order,
    [feistel_rounds_inv w n rk] the inverse rounds with keys
    [rk[n-1], ..., rk[0]]. *)

Definition feistel (w k : Z) (a : list Z) : list Z :=
  [a !!! 1%nat; a !!! 0%nat .^ f w (a !!! 1%nat) .^ k].

Definition feistel_inv (w k : Z) (a : list Z) : list Z :=
  [a !!! 1%nat .^ f w (a !!! 0%nat) .^ k; a !!! 0%nat].

Fixpoint feistel_rounds (w : Z) (n : nat) (rk a : list Z) : list Z :=
  match n with
  | O => a
  | S n' => feistel w (rk !!! n') (feistel_rounds w n' rk a)
  end.

Fixpoint feistel_rounds_inv (w : Z) (n : nat) (rk a : list Z) : list Z :=
  match n with
  | O => a
  | S n' => feistel_rounds_inv w n' rk (feistel_inv w (rk !!! n') a)
  end.

(** * Proofs *)

(** ** Known-answer vectors

    The embedding reproduces the test vectors of the SIMON and SPECK
    Implementation Guide for the five variants, in the word order of
    the guide ([Pt[0]], [K[0]] least significant). *)

Example kat_Simon64_96 :
  Simon6496Encrypt [0x6e696c63; 0x6f722067] [0; 0]
    (Simon6496KeySchedule [0x03020100; 0x0b0a0908; 0x13121110] (replicate 42 0))
  = [0x111a8fc8; 0x5ca2e27f].
Proof. vm_compute. reflexivity. Qed.

Example kat_Simon64_128 :
  Simon64128Encrypt [0x20646e75; 0x656b696c] [0; 0]
    (Simon64128KeySchedule [0x03020100; 0x0b0a0908; 0x13121110; 0x1b1a1918]
       (replicate 44 0))
  = [0xb9dfa07a; 0x44c8fc20].
Proof. vm_compute. reflexivity. Qed.

Example kat_Simon128_128 :
  Simon128128Encrypt [0x6c6c657661727420; 0x6373656420737265] [0; 0]
    (Simon128128KeySchedule [0x0706050403020100; 0x0f0e0d0c0b0a0908]
       (replicate 68 0))
  = [0x65aa832af84e0bbc; 0x49681b1e1e54fe3f].
Proof. vm_compute. reflexivity. Qed.

Example kat_Simon128_192 :
  Simon128192Encrypt [0x6568772065626972; 0x206572656874206e] [0; 0]
    (Simon128192KeySchedule
       [0x0706050403020100; 0x0f0e0d0c0b0a0908; 0x1716151413121110]
       (replicate 69 0))
  = [0x6c9c8d6e2597b85b; 0xc4ac61effcdc0d4f].
Proof. vm_compute. reflexivity. Qed.

Example kat_Simon128_256 :
  Simon128256Encrypt [0x6d69732061207369; 0x74206e69206d6f6f] [0; 0]
    (Simon128256KeySchedule
       [0x0706050403020100; 0x0f0e0d0c0b0a0908; 0x1716151413121110;
        0x1f1e1d1c1b1a1918]
       (replicate 72 0))
  = [0x3bf72a87efe7b868; 0x8d2b5579afc8a3a0].
Proof. vm_compute. reflexivity. Qed.

(** ** Loops run as often as their condition says *)

Section ForLoop.
Context {St : Type} (cond : St → bool) (body : St → St).

(** [rem s] counts the passes still due in state [s]. *)
Variable rem : St → nat.
Hypothesis cond_rem : ∀ s, cond s = negb (rem s =? 0)%nat.
Hypothesis body_rem : ∀ s, rem s ≠ 0%nat → rem (body s) = pred (rem s).

Lemma for_loop_iter (fuel : nat) (s : St) :
  (rem s ≤ fuel)%nat → for_loop fuel cond body s = Nat.iter (rem s) body s.
Proof.
  revert s. induction fuel as [|fuel IH]; intros s Hle.
  - assert (rem s = 0%nat) as -> by lia. reflexivity.
  - simpl. rewrite cond_rem. destruct (Nat.eqb_spec (rem s) 0) as [E|E]; simpl.
    + rewrite E. reflexivity.
    + rewrite IH by (rewrite body_rem by assumption; lia).
      rewrite body_rem by assumption.
      destruct (rem s) as [|r] eqn:Hr; [congruence|]. simpl.
      symmetry. apply (Nat.iter_succ_r r body s).
  Qed.

(** The loop leaves through its condition, not through the fuel. *)
Lemma for_loop_exit (fuel : nat) (s : St) :
  (rem s ≤ fuel)%nat → cond (for_loop fuel cond body s) = false.
Proof.
  revert s. induction fuel as [|fuel IH]; intros s Hle.
  - simpl. rewrite cond_rem. assert (rem s = 0%nat) as -> by lia. reflexivity.
  - simpl. destruct (cond s) eqn:Hc; [|assumption].
    apply IH. rewrite cond_rem in Hc.
    destruct (Nat.eqb_spec (rem s) 0); [discriminate|].
    rewrite body_rem by assumption. lia.
Qed.
End ForLoop.

(** ** Exclusive or *)

Lemma lxor_cancel_r (x a : Z) : x .^ a .^ a = x.
Proof. rewrite Z.lxor_assoc, Z.lxor_nilpotent. apply Z.lxor_0_r. Qed.

Lemma lxor_cancel_2 (x a b : Z) : x .^ a .^ b .^ a .^ b = x.
Proof.
  rewrite (Z.lxor_assoc x a b), (Z.lxor_comm a b), <- (Z.lxor_assoc x b a).
  rewrite lxor_cancel_r. apply lxor_cancel_r.
Qed.

(** ** The double round on a two-word block *)

Lemma two_words (a : list Z) :
  length a = 2%nat → a = [a !!! 0%nat; a !!! 1%nat].
Proof.
  destruct a as [|a0 [|a1 [|]]]; simpl; intros; try discriminate. reflexivity.
Qed.

Lemma Rx2_10 (w k1 k2 a0 a1 : Z) :
  Rx2 w 1 0 k1 k2 [a0; a1] =
  [a0 .^ f w a1 .^ k1; a1 .^ f w (a0 .^ f w a1 .^ k1) .^ k2].
Proof. reflexivity. Qed.

Lemma Rx2_01 (w k1 k2 a0 a1 : Z) :
  Rx2 w 0 1 k1 k2 [a0; a1] =
  [a0 .^ f w (a1 .^ f w a0 .^ k1) .^ k2; a1 .^ f w a0 .^ k1].
Proof. reflexivity. Qed.

Lemma Rx2_length (w : Z) (x y : nat) (k1 k2 : Z) (a : list Z) :
  length (Rx2 w x y k1 k2 a) = length a.
Proof. unfold Rx2. rewrite !length_insert. reflexivity. Qed.

(** [R(x,y,k1,k2)] with the roles of the two words and of the two keys
    exchanged undoes [R]. *)
Lemma Rx2_inverse (w k1 k2 : Z) (a : list Z) :
  length a = 2%nat → Rx2 w 0 1 k2 k1 (Rx2 w 1 0 k1 k2 a) = a.
Proof.
  destruct a as [|a0 [|a1 [|]]]; simpl; intros Ha; try discriminate.
  rewrite Rx2_10, Rx2_01, !lxor_cancel_2. reflexivity.
Qed.

Lemma enc_rounds_length (w : Z) (n : nat) (rk a : list Z) :
  length (enc_rounds w n rk a) = length a.
Proof. induction n as [|n IH]; simpl; [reflexivity|]. rewrite Rx2_length. exact IH. Qed.

Lemma dec_rounds_length (w : Z) (n : nat) (rk a : list Z) :
  length (dec_rounds w n rk a) = length a.
Proof.
  revert a. induction n as [|n IH]; intros a; simpl; [reflexivity|].
  rewrite IH. apply Rx2_length.
Qed.

Lemma dec_enc_rounds (w : Z) (n : nat) (rk a : list Z) :
  length a = 2%nat → dec_rounds w n rk (enc_rounds w n rk a) = a.
Proof.
  intros Ha. induction n as [|n IH]; simpl; [reflexivity|].
  rewrite Rx2_inverse by (rewrite enc_rounds_length; exact Ha). exact IH.
Qed.

(** ** The round loops of the block transforms *)

Lemma load_block_10 (src dst : list Z) :
  length dst = 2%nat →
  <[0%nat := src !!! 0%nat]> (<[1%nat := src !!! 1%nat]> dst)
  = [src !!! 0%nat; src !!! 1%nat].
Proof. destruct dst as [|d0 [|d1 [|]]]; simpl; intros; try discriminate. reflexivity. Qed.

Lemma load_block_01 (src dst : list Z) :
  length dst = 2%nat →
  <[1%nat := src !!! 1%nat]> (<[0%nat := src !!! 0%nat]> dst)
  = [src !!! 0%nat; src !!! 1%nat].
Proof. destruct dst as [|d0 [|d1 [|]]]; simpl; intros; try discriminate. reflexivity. Qed.

Section RoundLoops.
Context (w : Z) (rk : list Z).

(** The upward loop: [for(i=0;i<2n;i+=2) R(a[1],a[0],rk[i],rk[i+1])]. *)
Context (cond_up : nat * list Z → bool) (body_up : nat * list Z → nat * list Z).
Context (n : nat).
Hypothesis cond_up_eq : ∀ i a, cond_up (i, a) = (i <? 2 * n)%nat.
Hypothesis body_up_eq : ∀ i a,
  body_up (i, a) = (S (S i), Rx2 w 1 0 (rk !!! i) (rk !!! S i) a).

Lemma iter_up (k : nat) (a : list Z) :
  Nat.iter k body_up (0%nat, a) = ((2 * k)%nat, enc_rounds w k rk a).
Proof.
  induction k as [|k IH]; [reflexivity|].
  simpl Nat.iter. rewrite IH, body_up_eq. simpl enc_rounds.
  f_equal; [lia|]. do 2 f_equal. lia.
Qed.

Lemma loop_up (fuel : nat) (a : list Z) :
  (n ≤ fuel)%nat →
  for_loop fuel cond_up body_up (0%nat, a) = ((2 * n)%nat, enc_rounds w n rk a).
Proof.
  intros Hfuel.
  rewrite (for_loop_iter cond_up body_up (λ s, ((2 * n - s.1 + 1) / 2)%nat)).
  - cbn [fst]. replace ((2 * n - 0 + 1) / 2)%nat with n by lia. apply iter_up.
  - intros [i b]. rewrite cond_up_eq. cbn [fst].
    destruct (Nat.ltb_spec i (2 * n)), (Nat.eqb_spec ((2 * n - i + 1) / 2) 0);
      cbn [negb]; lia.
  - intros [i b]. rewrite body_up_eq. cbn [fst]. lia.
  - cbn [fst]. lia.
Qed.

(** The downward loop:
    [for(i=2n-1;i>=0;i-=2) R(a[0],a[1],rk[i],rk[i-1])], [i] signed. *)
Context (cond_down : Z * list Z → bool) (body_down : Z * list Z → Z * list Z).
Hypothesis cond_down_eq : ∀ i a, cond_down (i, a) = (0 <=? i).
Hypothesis body_down_eq : ∀ i a,
  body_down (i, a) =
  (i - 2, Rx2 w 0 1 (rk !!! Z.to_nat i) (rk !!! Z.to_nat (i - 1)) a).

Lemma iter_down (k : nat) (a : list Z) :
  Nat.iter k body_down (2 * Z.of_nat k - 1, a) = (-1, dec_rounds w k rk a).
Proof.
  revert a. induction k as [|k IH]; intros a; [reflexivity|].
  rewrite Nat.iter_succ_r, body_down_eq.
  replace (2 * Z.of_nat (S k) - 1 - 2) with (2 * Z.of_nat k - 1) by lia.
  rewrite IH. simpl dec_rounds. do 4 f_equal; lia.
Qed.

Lemma loop_down (fuel : nat) (a : list Z) :
  (n ≤ fuel)%nat →
  for_loop fuel cond_down body_down (2 * Z.of_nat n - 1, a)
  = (-1, dec_rounds w n rk a).
Proof.
  intros Hfuel.
  rewrite (for_loop_iter cond_down body_down (λ s, Z.to_nat ((s.1 + 2) / 2))).
  - cbn [fst]. replace (Z.to_nat ((2 * Z.of_nat n - 1 + 2) / 2)) with n by lia.
    apply iter_down.
  - intros [i b]. rewrite cond_down_eq. cbn [fst].
    destruct (Z.leb_spec 0 i), (Nat.eqb_spec (Z.to_nat ((i + 2) / 2)) 0);
      cbn [negb]; lia.
  - intros [i b]. rewrite body_down_eq. cbn [fst]. lia.
  - cbn [fst]. lia.
Qed.
End RoundLoops.

Ltac up_body :=
  intros ? ?; cbn beta iota; unfold R32x2, R64x2;
  rewrite ?Nat.add_1_r; f_equal; lia.

Ltac down_body :=
  intros ? ?; cbn beta iota; unfold R32x2, R64x2; f_equal; lia.

(** *** Each block transform as a sequence of double rounds *)

Lemma Simon6496Encrypt_rounds (Pt Ct rk : list Z) :
  length Ct = 2%nat →
  Simon6496Encrypt Pt Ct rk = enc_rounds 32 21 rk [Pt !!! 0%nat; Pt !!! 1%nat].
Proof.
  intros HCt. unfold Simon6496Encrypt. rewrite load_block_10 by exact HCt.
  rewrite (loop_up 32 rk _ _ 21); [reflexivity| reflexivity | up_body | lia].
Qed.

Lemma Simon64128Encrypt_rounds (Pt Ct rk : list Z) :
  length Ct = 2%nat →
  Simon64128Encrypt Pt Ct rk = enc_rounds 32 22 rk [Pt !!! 0%nat; Pt !!! 1%nat].
Proof.
  intros HCt. unfold Simon64128Encrypt. rewrite load_block_10 by exact HCt.
  rewrite (loop_up 32 rk _ _ 22); [reflexivity| reflexivity | up_body | lia].
Qed.

Lemma Simon128128Encrypt_rounds (Pt Ct rk : list Z) :
  length Ct = 2%nat →
  Simon128128Encrypt Pt Ct rk = enc_rounds 64 34 rk [Pt !!! 0%nat; Pt !!! 1%nat].
Proof.
  intros HCt. unfold Simon128128Encrypt. rewrite load_block_01 by exact HCt.
  rewrite (loop_up 64 rk _ _ 34); [reflexivity| reflexivity | up_body | lia].
Qed.

Lemma Simon128256Encrypt_rounds (Pt Ct rk : list Z) :
  length Ct = 2%nat →
  Simon128256Encrypt Pt Ct rk = enc_rounds 64 36 rk [Pt !!! 0%nat; Pt !!! 1%nat].
Proof.
  intros HCt. unfold Simon128256Encrypt. rewrite load_block_01 by exact HCt.
  rewrite (loop_up 64 rk _ _ 36); [reflexivity| reflexivity | up_body | lia].
Qed.

Lemma Simon6496Decrypt_rounds (Pt Ct rk : list Z) :
  length Pt = 2%nat →
  Simon6496Decrypt Pt Ct rk = dec_rounds 32 21 rk [Ct !!! 0%nat; Ct !!! 1%nat].
Proof.
  intros HPt. unfold Simon6496Decrypt. rewrite load_block_10 by exact HPt.
  change 41 with (2 * Z.of_nat 21 - 1).
  rewrite (loop_down 32 rk 21); [reflexivity| reflexivity | down_body | lia].
Qed.

Lemma Simon64128Decrypt_rounds (Pt Ct rk : list Z) :
  length Pt = 2%nat →
  Simon64128Decrypt Pt Ct rk = dec_rounds 32 22 rk [Ct !!! 0%nat; Ct !!! 1%nat].
Proof.
  intros HPt. unfold Simon64128Decrypt. rewrite load_block_10 by exact HPt.
  change 43 with (2 * Z.of_nat 22 - 1).
  rewrite (loop_down 32 rk 22); [reflexivity| reflexivity | down_body | lia].
Qed.

Lemma Simon128128Decrypt_rounds (Pt Ct rk : list Z) :
  length Pt = 2%nat →
  Simon128128Decrypt Pt Ct rk = dec_rounds 64 34 rk [Ct !!! 0%nat; Ct !!! 1%nat].
Proof.
  intros HPt. unfold Simon128128Decrypt. rewrite load_block_01 by exact HPt.
  change 67 with (2 * Z.of_nat 34 - 1).
  rewrite (loop_down 64 rk 34); [reflexivity| reflexivity | down_body | lia].
Qed.

Lemma Simon128256Decrypt_rounds (Pt Ct rk : list Z) :
  length Pt = 2%nat →
  Simon128256Decrypt Pt Ct rk = dec_rounds 64 36 rk [Ct !!! 0%nat; Ct !!! 1%nat].
Proof.
  intros HPt. unfold Simon128256Decrypt. rewrite load_block_01 by exact HPt.
  change 71 with (2 * Z.of_nat 36 - 1).
  rewrite (loop_down 64 rk 36); [reflexivity| reflexivity | down_body | lia].
Qed.

(** *** The 69-round variant *)

Lemma half_round_length (k : Z) (a : list Z) : length (half_round k a) = 2%nat.
Proof. reflexivity. Qed.

Lemma half_round_inverse (k : Z) (a : list Z) :
  length a = 2%nat → half_round_inv k (half_round k a) = a.
Proof.
  destruct a as [|l [|r [|]]]; simpl; intros; try discriminate.
  unfold half_round_inv, half_round. cbn. rewrite lxor_cancel_2. reflexivity.
Qed.

Lemma Simon128192Encrypt_rounds (Pt Ct rk : list Z) :
  length Ct = 2%nat →
  Simon128192Encrypt Pt Ct rk
  = half_round (rk !!! 68%nat) (enc_rounds 64 34 rk [Pt !!! 0%nat; Pt !!! 1%nat]).
Proof.
  intros HCt. unfold Simon128192Encrypt. rewrite load_block_01 by exact HCt.
  rewrite (loop_up 64 rk _ _ 34); [| reflexivity | up_body | lia].
  cbn [snd].
  pose proof (enc_rounds_length 64 34 rk [Pt !!! 0%nat; Pt !!! 1%nat]) as Hl.
  destruct (enc_rounds 64 34 rk [Pt !!! 0%nat; Pt !!! 1%nat]) as [|l [|r [|]]];
    try discriminate Hl.
  reflexivity.
Qed.

Lemma single_down_twice (rk : list Z) (i : Z) (a : list Z) :
  length a = 2%nat →
  single_down rk (single_down rk (i, a))
  = (i - 2, Rx2 64 0 1 (rk !!! Z.to_nat i) (rk !!! Z.to_nat (i - 1)) a).
Proof.
  destruct a as [|a0 [|a1 [|]]]; simpl; intros; try discriminate.
  rewrite Rx2_01. unfold single_down. cbn. f_equal. lia.
Qed.

Lemma iter_single_down (rk : list Z) (k : nat) (a : list Z) :
  length a = 2%nat →
  Nat.iter (2 * k) (single_down rk) (2 * Z.of_nat k - 1, a)
  = (-1, dec_rounds 64 k rk a).
Proof.
  revert a. induction k as [|k IH]; intros a Ha; [reflexivity|].
  replace (2 * S k)%nat with (S (S (2 * k))) by lia.
  rewrite !Nat.iter_succ_r, single_down_twice by exact Ha.
  replace (2 * Z.of_nat (S k) - 1 - 2) with (2 * Z.of_nat k - 1) by lia.
  rewrite IH by (rewrite Rx2_length; exact Ha).
  simpl dec_rounds. do 4 f_equal; lia.
Qed.

Lemma Simon128192Decrypt_rounds (Pt Ct rk : list Z) :
  length Pt = 2%nat →
  Simon128192Decrypt Pt Ct rk
  = dec_rounds 64 34 rk (half_round_inv (rk !!! 68%nat) [Ct !!! 0%nat; Ct !!! 1%nat]).
Proof.
  intros HPt. unfold Simon128192Decrypt. rewrite load_block_01 by exact HPt.
  change (<[1%nat:=[Ct !!! 0%nat; Ct !!! 1%nat] !!! 0%nat]>
            (<[0%nat:=[Ct !!! 0%nat; Ct !!! 1%nat] !!! 1%nat
                       .^ f64 ([Ct !!! 0%nat; Ct !!! 1%nat] !!! 0%nat)
                       .^ rk !!! 68%nat]> [Ct !!! 0%nat; Ct !!! 1%nat]))
    with (half_round_inv (rk !!! 68%nat) [Ct !!! 0%nat; Ct !!! 1%nat]).
  rewrite (for_loop_iter _ (single_down rk) (λ s, Z.to_nat (s.1 + 1))).
  - cbn [fst]. change (Z.to_nat (67 + 1)) with (2 * 34)%nat.
    change 67 with (2 * Z.of_nat 34 - 1).
    rewrite iter_single_down by reflexivity. reflexivity.
  - intros [i b]. cbn [fst].
    destruct (Z.leb_spec 0 i), (Nat.eqb_spec (Z.to_nat (i + 1)) 0); cbn [negb]; lia.
  - intros [i b]. cbn [single_down fst]. lia.
  - cbn [fst]. lia.
Qed.

(** ** The sliding window *)

Section Window.
Context (g : nat → list Z → Z) (K : list Z).
Hypothesis K_nonempty : length K ≠ 0%nat.

Lemma window_length (j : nat) : length (window g K j) = length K.
Proof.
  induction j as [|j IH]; [reflexivity|].
  simpl. unfold slide. rewrite length_app. simpl.
  destruct (window g K j) as [|x t]; simpl in *; lia.
Qed.

Lemma entry_window (k j : nat) :
  (k < length K)%nat → window g K j !!! k = entry g K (j + k).
Proof.
  revert j. induction k as [|k IH]; intros j Hk.
  - rewrite Nat.add_0_r. reflexivity.
  - replace (j + S k)%nat with (S j + k)%nat by lia.
    rewrite <- IH by lia. simpl window. unfold slide.
    pose proof (window_length j) as Hl.
    destruct (window g K j) as [|x t]; simpl in Hl; [lia|].
    simpl tail. rewrite lookup_total_app_l by lia. reflexivity.
Qed.

Lemma entry_step (j : nat) :
  entry g K (j + length K) = g j (window g K j).
Proof.
  assert (∃ m, length K = S m) as [m Hm]
    by (exists (pred (length K)); lia).
  rewrite Hm at 1.
  replace (j + S m)%nat with (S j + m)%nat by lia.
  rewrite <- entry_window by lia. simpl window. unfold slide.
  pose proof (window_length j) as Hl.
  destruct (window g K j) as [|x t] eqn:Hw; simpl in Hl; [lia|].
  simpl tail. rewrite lookup_total_app_r by lia.
  replace (m - length t)%nat with 0%nat by lia. reflexivity.
Qed.

Lemma window_entries (j : nat) :
  window g K j = (λ k, entry g K (j + k)) <$> seq 0 (length K).
Proof.
  apply list_eq_same_length with (length K).
  - rewrite length_fmap, length_seq. reflexivity.
  - apply window_length.
  - intros i x y Hi Hx Hy.
    rewrite list_lookup_fmap, lookup_seq_lt in Hy by exact Hi.
    simpl in Hy. injection Hy as <-.
    apply list_lookup_total_correct in Hx. rewrite <- Hx.
    apply entry_window. exact Hi.
Qed.
End Window.

(** ** The schedule buffer *)

Lemma written_0 (e : nat → Z) (rk : list Z) : written e 0 rk = rk.
Proof. reflexivity. Qed.

Lemma written_length (e : nat → Z) (n : nat) (rk : list Z) :
  (n ≤ length rk)%nat → length (written e n rk) = length rk.
Proof.
  intros Hn. unfold written.
  rewrite length_app, length_fmap, length_seq, length_drop. lia.
Qed.

(** [rk[i] = e i] once [e 0 .. e (i-1)] are in place. *)
Lemma emit_next (e : nat → Z) (rk : list Z) (i : nat) (x : Z) :
  (i < length rk)%nat → x = e i →
  <[i := x]> (written e i rk) = written e (S i) rk.
Proof.
  intros Hi ->. unfold written.
  rewrite seq_S, fmap_app, <- app_assoc.
  rewrite insert_app_r_alt by (rewrite length_fmap, length_seq; lia).
  rewrite length_fmap, length_seq, Nat.sub_diag.
  destruct (lookup_lt_is_Some_2 rk i Hi) as [y Hy].
  rewrite (drop_S rk y i Hy). reflexivity.
Qed.

Lemma written_lookup (e : nat → Z) (rk : list Z) (i j : nat) :
  (j < i)%nat → written e i rk !!! j = e j.
Proof.
  intros Hj. unfold written.
  rewrite lookup_total_app_l by (rewrite length_fmap, length_seq; lia).
  apply list_lookup_total_correct.
  rewrite list_lookup_fmap, lookup_seq_lt by exact Hj. reflexivity.
Qed.

Lemma written_take (e : nat → Z) (n : nat) (rk : list Z) :
  take n (written e n rk) = e <$> seq 0 n.
Proof.
  unfold written. rewrite take_app_length'; [reflexivity|].
  rewrite length_fmap, length_seq. reflexivity.
Qed.

Lemma written_drop (e : nat → Z) (n : nat) (rk : list Z) :
  drop n (written e n rk) = drop n rk.
Proof.
  unfold written. rewrite drop_app_length'; [reflexivity|].
  rewrite length_fmap, length_seq. reflexivity.
Qed.

(** ** The constant sequence *)

Lemma shiftr_1_seq (z : Z) (j : nat) :
  Z.shiftr (Z.shiftr z (Z.of_nat j)) 1 = Z.shiftr z (Z.of_nat (S j)).
Proof. rewrite Z.shiftr_shiftr by lia. f_equal. lia. Qed.

Lemma seq_bit_testbit (z : Z) (j : nat) :
  seq_bit z j = Z.b2z (Z.testbit z (Z.of_nat j)).
Proof.
  unfold seq_bit. change 1 with (Z.ones 1). rewrite Z.land_ones by lia.
  change (2 ^ 1) with 2. rewrite <- Z.bit0_mod, Z.shiftr_spec by lia.
  reflexivity.
Qed.

(** ** The key schedules write the sliding-window sequence *)

Lemma key_regs_length (v : variant) (K : list Z) :
  length (key_regs v K) = key_words v.
Proof. unfold key_regs. rewrite length_fmap, length_seq. reflexivity. Qed.

Lemma key_words_nonzero (v : variant) : key_words v ≠ 0%nat.
Proof. destruct v; discriminate. Qed.

Lemma key_regs_nonempty (v : variant) (K : list Z) :
  length (key_regs v K) ≠ 0%nat.
Proof. rewrite key_regs_length. apply key_words_nonzero. Qed.

Lemma rk_entry_key (v : variant) (z : Z) (K : list Z) (j : nat) :
  (j < key_words v)%nat → rk_entry v z K j = K !!! j.
Proof.
  intros Hj. unfold rk_entry.
  change j with (0 + j)%nat at 1.
  rewrite <- (entry_window _ _ (key_regs_nonempty v K))
    by (rewrite key_regs_length; exact Hj).
  simpl window. unfold key_regs. apply list_lookup_total_correct.
  rewrite list_lookup_fmap, lookup_seq_lt by exact Hj. reflexivity.
Qed.

Lemma rk_entry_step (v : variant) (z : Z) (K : list Z) (j : nat) :
  rk_entry v z K (j + key_words v)
  = update v (round_bit v z j)
      ((λ k, rk_entry v z K (j + k)) <$> seq 0 (key_words v)).
Proof.
  unfold rk_entry. rewrite <- (key_regs_length v K) at 1.
  rewrite (entry_step _ _ (key_regs_nonempty v K)).
  rewrite (window_entries _ _ (key_regs_nonempty v K)).
  rewrite key_regs_length. reflexivity.
Qed.

Lemma round_bit_drawn (v : variant) (z : Z) (j : nat) :
  (j < drawn v)%nat → round_bit v z j = seq_bit z j.
Proof.
  intros Hj. unfold round_bit.
  destruct (Nat.ltb_spec j (drawn v)); [reflexivity|lia].
Qed.

Ltac entry_rec v j :=
  match goal with
  | |- rk_entry v ?z ?K ?i = _ =>
      replace i with (j + key_words v)%nat by (simpl; lia);
      rewrite rk_entry_step;
      cbn -[rk_entry round_bit to_u32 ROTR32 ROTR64 Z.lxor c32 c64];
      rewrite ?Nat.add_succ_r, ?Nat.add_0_r; reflexivity
  end.

Lemma rec_6496 (z : Z) (K : list Z) (j : nat) :
  rk_entry Simon64_96 z K (S (S (S j)))
  = to_u32 (c32 .^ round_bit Simon64_96 z j .^ rk_entry Simon64_96 z K j
              .^ ROTR32 (rk_entry Simon64_96 z K (S (S j))) 3
              .^ ROTR32 (rk_entry Simon64_96 z K (S (S j))) 4).
Proof. entry_rec Simon64_96 j. Qed.

Lemma rec_64128 (z : Z) (K : list Z) (j : nat) :
  rk_entry Simon64_128 z K (S (S (S (S j))))
  = to_u32 (c32 .^ round_bit Simon64_128 z j .^ rk_entry Simon64_128 z K j
              .^ ROTR32 (rk_entry Simon64_128 z K (S (S (S j)))) 3
              .^ rk_entry Simon64_128 z K (S j)
              .^ ROTR32 (rk_entry Simon64_128 z K (S (S (S j)))) 4
              .^ ROTR32 (rk_entry Simon64_128 z K (S j)) 1).
Proof. entry_rec Simon64_128 j. Qed.

Lemma rec_128128 (z : Z) (K : list Z) (j : nat) :
  rk_entry Simon128_128 z K (S (S j))
  = rk_entry Simon128_128 z K j
    .^ (c64 .^ round_bit Simon128_128 z j
          .^ ROTR64 (rk_entry Simon128_128 z K (S j)) 3
          .^ ROTR64 (rk_entry Simon128_128 z K (S j)) 4).
Proof. entry_rec Simon128_128 j. Qed.

Lemma rec_128192 (z : Z) (K : list Z) (j : nat) :
  rk_entry Simon128_192 z K (S (S (S j)))
  = rk_entry Simon128_192 z K j
    .^ (c64 .^ round_bit Simon128_192 z j
          .^ ROTR64 (rk_entry Simon128_192 z K (S (S j))) 3
          .^ ROTR64 (rk_entry Simon128_192 z K (S (S j))) 4).
Proof. entry_rec Simon128_192 j. Qed.

Lemma rec_128256 (z : Z) (K : list Z) (j : nat) :
  rk_entry Simon128_256 z K (S (S (S (S j))))
  = rk_entry Simon128_256 z K j
    .^ (c64 .^ round_bit Simon128_256 z j
          .^ ROTR64 (rk_entry Simon128_256 z K (S (S (S j)))) 3
          .^ ROTR64 (rk_entry Simon128_256 z K (S (S (S j)))) 4
          .^ rk_entry Simon128_256 z K (S j)
          .^ ROTR64 (rk_entry Simon128_256 z K (S j)) 1).
Proof. entry_rec Simon128_256 j. Qed.

(** *** Simon64/96 and Simon64/128: the array recurrence *)

Lemma ks6496_iter (z : Z) (K rk : list Z) (n : nat) :
  (42 ≤ length rk)%nat → (n ≤ 39)%nat →
  Nat.iter n ks6496_body (3%nat, z, written (rk_entry Simon64_96 z K) 3 rk)
  = (S (S (S n)), Z.shiftr z (Z.of_nat n),
     written (rk_entry Simon64_96 z K) (S (S (S n))) rk).
Proof.
  intros Hrk. induction n as [|n IH]; intros Hn; [reflexivity|].
  simpl Nat.iter. rewrite IH by lia. unfold ks6496_body.
  rewrite !written_lookup by lia.
  replace (S (S (S n)) - 3)%nat with n by lia.
  replace (S (S (S n)) - 1)%nat with (S (S n)) by lia.
  fold (seq_bit z n). rewrite shiftr_1_seq.
  rewrite emit_next; [reflexivity | lia |].
  rewrite rec_6496, round_bit_drawn by (simpl; lia). reflexivity.
Qed.

Lemma ks64128_iter (z : Z) (K rk : list Z) (n : nat) :
  (44 ≤ length rk)%nat → (n ≤ 40)%nat →
  Nat.iter n ks64128_body (4%nat, z, written (rk_entry Simon64_128 z K) 4 rk)
  = (S (S (S (S n))), Z.shiftr z (Z.of_nat n),
     written (rk_entry Simon64_128 z K) (S (S (S (S n)))) rk).
Proof.
  intros Hrk. induction n as [|n IH]; intros Hn; [reflexivity|].
  simpl Nat.iter. rewrite IH by lia. unfold ks64128_body.
  rewrite !written_lookup by lia.
  replace (S (S (S (S n))) - 4)%nat with n by lia.
  replace (S (S (S (S n))) - 3)%nat with (S n) by lia.
  replace (S (S (S (S n))) - 1)%nat with (S (S (S n))) by lia.
  fold (seq_bit z n). rewrite shiftr_1_seq.
  rewrite emit_next; [reflexivity | lia |].
  rewrite rec_64128, round_bit_drawn by (simpl; lia). reflexivity.
Qed.

(** The three or four stores [rk[j]=K[j]] that open a schedule. *)
Ltac load_key v :=
  repeat (rewrite emit_next;
          [ | lia | rewrite (rk_entry_key v) by (simpl; lia); reflexivity ]).

Lemma ks_rem_up (bound : nat) (i : nat) :
  (i <? bound)%nat = negb (bound - i =? 0)%nat.
Proof.
  destruct (Nat.ltb_spec i bound), (Nat.eqb_spec (bound - i) 0);
    cbn [negb]; lia.
Qed.

Lemma Simon6496KeySchedule_written (z : Z) (K rk : list Z) :
  (42 ≤ length rk)%nat →
  Simon6496KeySchedule_z z K rk = written (rk_entry Simon64_96 z K) 42 rk.
Proof.
  intros Hrk. unfold Simon6496KeySchedule_z.
  rewrite <- (written_0 (rk_entry Simon64_96 z K) rk) at 1.
  load_key Simon64_96.
  rewrite (for_loop_iter _ ks6496_body (λ s, (42 - s.1.1)%nat)).
  - cbn [fst]. change (42 - 3)%nat with 39%nat.
    rewrite ks6496_iter by lia. reflexivity.
  - intros [[i z'] rk']. apply ks_rem_up.
  - intros [[i z'] rk']. cbn [ks6496_body fst]. lia.
  - cbn [fst]. lia.
Qed.

Lemma Simon64128KeySchedule_written (z : Z) (K rk : list Z) :
  (44 ≤ length rk)%nat →
  Simon64128KeySchedule_z z K rk = written (rk_entry Simon64_128 z K) 44 rk.
Proof.
  intros Hrk. unfold Simon64128KeySchedule_z.
  rewrite <- (written_0 (rk_entry Simon64_128 z K) rk) at 1.
  load_key Simon64_128.
  rewrite (for_loop_iter _ ks64128_body (λ s, (44 - s.1.1)%nat)).
  - cbn [fst]. change (44 - 4)%nat with 40%nat.
    rewrite ks64128_iter by lia. reflexivity.
  - intros [[i z'] rk']. apply ks_rem_up.
  - intros [[i z'] rk']. cbn [ks64128_body fst]. lia.
  - cbn [fst]. lia.
Qed.

(** *** Simon128/128, /192 and /256: the rolling registers *)

(** One sub-round inside a loop: the register update is the next entry. *)
Ltac sub_round v rec z K j :=
  fold (seq_bit z j);
  rewrite <- (round_bit_drawn v z j) by (simpl; lia);
  rewrite <- (rec z K j);
  rewrite shiftr_1_seq.

Ltac emit := rewrite emit_next; [ | lia | reflexivity ].

Lemma ks128128_iter (z : Z) (K rk : list Z) (n : nat) :
  (68 ≤ length rk)%nat → (n ≤ 32)%nat →
  Nat.iter n ks128128_body (0%nat, K !!! 0%nat, K !!! 1%nat, z, rk)
  = ((2 * n)%nat,
     rk_entry Simon128_128 z K (2 * n), rk_entry Simon128_128 z K (S (2 * n)),
     Z.shiftr z (Z.of_nat (2 * n)),
     written (rk_entry Simon128_128 z K) (2 * n) rk).
Proof.
  intros Hrk. induction n as [|n IH]; intros Hn.
  - change (2 * 0)%nat with 0%nat.
    rewrite !(rk_entry_key Simon128_128) by (simpl; lia). reflexivity.
  - simpl Nat.iter. rewrite IH by lia.
    replace (2 * S n)%nat with (S (S (2 * n))) by lia.
    unfold ks128128_body. cbv beta iota zeta.
    sub_round Simon128_128 rec_128128 z K (2 * n)%nat.
    sub_round Simon128_128 rec_128128 z K (S (2 * n))%nat.
    do 2 emit. reflexivity.
Qed.

Lemma ks128128_loop_passes (A B z : Z) (rk : list Z) :
  ks128128_loop (0%nat, A, B, z, rk)
  = Nat.iter 32 ks128128_body (0%nat, A, B, z, rk).
Proof.
  unfold ks128128_loop.
  rewrite (for_loop_iter _ ks128128_body (λ s, ((64 - s.1.1.1.1 + 1) / 2)%nat)).
  - reflexivity.
  - intros [[[[i A'] B'] z'] rk']. cbn [fst].
    destruct (Nat.ltb_spec i 64), (Nat.eqb_spec ((64 - i + 1) / 2) 0);
      cbn [negb]; lia.
  - intros [[[[i A'] B'] z'] rk']. cbn [ks128128_body fst]. lia.
  - cbn [fst]. lia.
Qed.

Lemma Simon128128KeySchedule_written (z : Z) (K rk : list Z) :
  (68 ≤ length rk)%nat →
  Simon128128KeySchedule_z z K rk = written (rk_entry Simon128_128 z K) 68 rk.
Proof.
  intros Hrk. unfold Simon128128KeySchedule_z.
  rewrite ks128128_loop_passes, (ks128128_iter z K rk 32) by lia.
  change (2 * 32)%nat with 64%nat. cbv beta iota zeta.
  do 2 emit.
  rewrite emit_next; [ | lia | rewrite (rec_128128 z K 64); reflexivity ].
  rewrite emit_next;
    [ | lia | rewrite (rec_128128 z K 65), (rec_128128 z K 64); reflexivity ].
  reflexivity.
Qed.

Lemma ks128192_iter (z : Z) (K rk : list Z) (n : nat) :
  (69 ≤ length rk)%nat → (n ≤ 21)%nat →
  Nat.iter n ks128192_body
    (0%nat, K !!! 0%nat, K !!! 1%nat, K !!! 2%nat, z, rk)
  = ((3 * n)%nat,
     rk_entry Simon128_192 z K (3 * n), rk_entry Simon128_192 z K (S (3 * n)),
     rk_entry Simon128_192 z K (S (S (3 * n))),
     Z.shiftr z (Z.of_nat (3 * n)),
     written (rk_entry Simon128_192 z K) (3 * n) rk).
Proof.
  intros Hrk. induction n as [|n IH]; intros Hn.
  - change (3 * 0)%nat with 0%nat.
    rewrite !(rk_entry_key Simon128_192) by (simpl; lia). reflexivity.
  - simpl Nat.iter. rewrite IH by lia.
    replace (3 * S n)%nat with (S (S (S (3 * n)))) by lia.
    unfold ks128192_body. cbv beta iota zeta.
    sub_round Simon128_192 rec_128192 z K (3 * n)%nat.
    sub_round Simon128_192 rec_128192 z K (S (3 * n))%nat.
    sub_round Simon128_192 rec_128192 z K (S (S (3 * n)))%nat.
    do 3 emit. reflexivity.
Qed.

Lemma ks128192_loop_passes (A B C z : Z) (rk : list Z) :
  ks128192_loop (0%nat, A, B, C, z, rk)
  = Nat.iter 21 ks128192_body (0%nat, A, B, C, z, rk).
Proof.
  unfold ks128192_loop.
  rewrite (for_loop_iter _ ks128192_body (λ s, ((63 - s.1.1.1.1.1 + 2) / 3)%nat)).
  - reflexivity.
  - intros [[[[[i A'] B'] C'] z'] rk']. cbn [fst].
    destruct (Nat.ltb_spec i 63), (Nat.eqb_spec ((63 - i + 2) / 3) 0);
      cbn [negb]; lia.
  - intros [[[[[i A'] B'] C'] z'] rk']. cbn [ks128192_body fst]. lia.
  - cbn [fst]. lia.
Qed.

Lemma Simon128192KeySchedule_written (z : Z) (K rk : list Z) :
  (69 ≤ length rk)%nat →
  Simon128192KeySchedule_z z K rk = written (rk_entry Simon128_192 z K) 69 rk.
Proof.
  intros Hrk. unfold Simon128192KeySchedule_z.
  rewrite ks128192_loop_passes, (ks128192_iter z K rk 21) by lia.
  change (3 * 21)%nat with 63%nat. cbv beta iota zeta.
  do 3 emit.
  rewrite emit_next; [ | lia | rewrite (rec_128192 z K 63); reflexivity ].
  rewrite emit_next;
    [ | lia | rewrite (rec_128192 z K 64), (rec_128192 z K 63); reflexivity ].
  rewrite emit_next;
    [ | lia
      | rewrite (rec_128192 z K 65), (rec_128192 z K 64), (rec_128192 z K 63);
        reflexivity ].
  reflexivity.
Qed.

Lemma ks128256_iter (z : Z) (K rk : list Z) (n : nat) :
  (72 ≤ length rk)%nat → (n ≤ 16)%nat →
  Nat.iter n ks128256_body
    (0%nat, K !!! 0%nat, K !!! 1%nat, K !!! 2%nat, K !!! 3%nat, z, rk)
  = ((4 * n)%nat,
     rk_entry Simon128_256 z K (4 * n), rk_entry Simon128_256 z K (S (4 * n)),
     rk_entry Simon128_256 z K (S (S (4 * n))),
     rk_entry Simon128_256 z K (S (S (S (4 * n)))),
     Z.shiftr z (Z.of_nat (4 * n)),
     written (rk_entry Simon128_256 z K) (4 * n) rk).
Proof.
  intros Hrk. induction n as [|n IH]; intros Hn.
  - change (4 * 0)%nat with 0%nat.
    rewrite !(rk_entry_key Simon128_256) by (simpl; lia). reflexivity.
  - simpl Nat.iter. rewrite IH by lia.
    replace (4 * S n)%nat with (S (S (S (S (4 * n))))) by lia.
    unfold ks128256_body. cbv beta iota zeta.
    sub_round Simon128_256 rec_128256 z K (4 * n)%nat.
    sub_round Simon128_256 rec_128256 z K (S (4 * n))%nat.
    sub_round Simon128_256 rec_128256 z K (S (S (4 * n)))%nat.
    sub_round Simon128_256 rec_128256 z K (S (S (S (4 * n))))%nat.
    do 4 emit. reflexivity.
Qed.

Lemma ks128256_loop_passes (A B C D z : Z) (rk : list Z) :
  ks128256_loop (0%nat, A, B, C, D, z, rk)
  = Nat.iter 16 ks128256_body (0%nat, A, B, C, D, z, rk).
Proof.
  unfold ks128256_loop.
  rewrite (for_loop_iter _ ks128256_body
             (λ s, ((64 - s.1.1.1.1.1.1 + 3) / 4)%nat)).
  - reflexivity.
  - intros [[[[[[i A'] B'] C'] D'] z'] rk']. cbn [fst].
    destruct (Nat.ltb_spec i 64), (Nat.eqb_spec ((64 - i + 3) / 4) 0);
      cbn [negb]; lia.
  - intros [[[[[[i A'] B'] C'] D'] z'] rk']. cbn [ks128256_body fst]. lia.
  - cbn [fst]. lia.
Qed.

Lemma Simon128256KeySchedule_written (z : Z) (K rk : list Z) :
  (72 ≤ length rk)%nat →
  Simon128256KeySchedule_z z K rk = written (rk_entry Simon128_256 z K) 72 rk.
Proof.
  intros Hrk. unfold Simon128256KeySchedule_z.
  rewrite ks128256_loop_passes, (ks128256_iter z K rk 16) by lia.
  change (4 * 16)%nat with 64%nat. cbv beta iota zeta.
  do 4 emit.
  rewrite emit_next; [ | lia | rewrite (rec_128256 z K 64); reflexivity ].
  rewrite emit_next;
    [ | lia | rewrite (rec_128256 z K 65), (rec_128256 z K 64); reflexivity ].
  rewrite emit_next;
    [ | lia
      | rewrite (rec_128256 z K 66), (rec_128256 z K 65), (rec_128256 z K 64);
        reflexivity ].
  rewrite emit_next;
    [ | lia
      | rewrite (rec_128256 z K 67), (rec_128256 z K 66), (rec_128256 z K 65),
          (rec_128256 z K 64);
        reflexivity ].
  reflexivity.
Qed.

(** *** All five at once *)

Lemma KeySchedule_z_written (v : variant) (z : Z) (K rk : list Z) :
  (rounds v ≤ length rk)%nat →
  KeySchedule_z v z K rk = written (rk_entry v z K) (rounds v) rk.
Proof.
  destruct v; cbn [KeySchedule_z rounds];
    unfold N_ROUNDS__64_96, N_ROUNDS__64_128, N_ROUNDS__128_128,
      N_ROUNDS__128_192, N_ROUNDS__128_256.
  - exact (Simon6496KeySchedule_written z K rk).
  - exact (Simon64128KeySchedule_written z K rk).
  - exact (Simon128128KeySchedule_written z K rk).
  - exact (Simon128192KeySchedule_written z K rk).
  - exact (Simon128256KeySchedule_written z K rk).
Qed.

Lemma KeySchedule_const_seq (v : variant) :
  KeySchedule v = KeySchedule_z v (const_seq v).
Proof.
  destruct v; cbn [KeySchedule KeySchedule_z const_seq];
    unfold Simon6496KeySchedule, Simon64128KeySchedule, Simon128128KeySchedule,
      Simon128192KeySchedule, Simon128256KeySchedule; reflexivity.
Qed.

Lemma KeySchedule_written (v : variant) (K rk : list Z) :
  (rounds v ≤ length rk)%nat →
  KeySchedule v K rk = written (rk_entry v (const_seq v) K) (rounds v) rk.
Proof. rewrite KeySchedule_const_seq. apply KeySchedule_z_written. Qed.

Lemma KeySchedule_z_lookup (v : variant) (z : Z) (K rk : list Z) (j : nat) :
  (rounds v ≤ length rk)%nat → (j < rounds v)%nat →
  KeySchedule_z v z K rk !!! j = rk_entry v z K j.
Proof.
  intros Hrk Hj. rewrite KeySchedule_z_written by exact Hrk.
  apply written_lookup. exact Hj.
Qed.

(** ** The conversion loops and their array bounds *)

Lemma store_lt (a : list Z) (i : nat) (v : Z) :
  (i < length a)%nat → store a i v = Some (<[i := v]> a).
Proof. intros H. unfold store. rewrite (proj2 (Nat.ltb_lt _ _) H). reflexivity. Qed.

Lemma store_ge (a : list Z) (i : nat) (v : Z) :
  (length a ≤ i)%nat → store a i v = None.
Proof. intros H. unfold store. rewrite (proj2 (Nat.ltb_ge _ _) H). reflexivity. Qed.

Ltac stores :=
  repeat first
    [ rewrite store_lt by (rewrite ?length_insert; lia); cbn [mbind option_bind]
    | rewrite store_ge by (rewrite ?length_insert; lia); cbn [mbind option_bind] ].

(** The first store that falls outside decides. *)
Ltac failing_store :=
  repeat match goal with
    | |- store ?a ?k ?v ≫= _ = None =>
        destruct (Nat.ltb_spec k (length a));
        [ rewrite (store_lt a k v) by assumption; cbn [mbind option_bind]
        | rewrite (store_ge a k v) by assumption; reflexivity ]
    end;
  exfalso; rewrite ?length_insert in *; lia.

(** The first read that falls outside decides. *)
Ltac failing_read :=
  repeat match goal with
    | |- (?l !! ?k) ≫= _ = None =>
        destruct (Nat.ltb_spec k (length l));
        [ rewrite (list_lookup_lookup_total_lt l k) by assumption;
          cbn [mbind option_bind]
        | rewrite (lookup_ge_None_2 l k) by assumption; reflexivity ]
    end;
  exfalso; lia.

(** A loop over two arrays, one read with stride [rs] out of [lr]
    elements, one written with stride [ws]; [j] advances by [step]. *)
Section CheckedLoop.
Context (n step rs ws lr : nat).
Context (cond : nat * nat * list Z → bool).
Context (body : nat * nat * list Z → nat * nat * list Z).
Context (condc : option (nat * nat * list Z) → bool).
Context (bodyc : option (nat * nat * list Z) → option (nat * nat * list Z)).

Hypothesis cond_eq : ∀ i j b, cond (i, j, b) = (i <? n)%nat.
Hypothesis condc_Some : ∀ s, condc (Some s) = cond s.
Hypothesis condc_None : condc None = false.
Hypothesis rs_pos : (0 < rs)%nat.
Hypothesis ws_pos : (0 < ws)%nat.
Hypothesis body_index : ∀ i j b, ∃ b',
  body (i, j, b) = (S i, (j + step)%nat, b') ∧ length b' = length b.
Hypothesis bodyc_in : ∀ i b,
  (rs * i + rs ≤ lr)%nat → (ws * i + ws ≤ length b)%nat →
  bodyc (Some (i, (step * i)%nat, b)) = Some (body (i, (step * i)%nat, b)).
Hypothesis bodyc_out : ∀ i b,
  (lr < rs * i + rs)%nat ∨ (length b < ws * i + ws)%nat →
  bodyc (Some (i, (step * i)%nat, b)) = None.

Lemma checked_None (fuel : nat) : for_loop fuel condc bodyc None = None.
Proof.
  destruct fuel; [reflexivity|]. cbn [for_loop]. rewrite condc_None. reflexivity.
Qed.

Lemma checked_loop (fuel i : nat) (b : list Z) :
  (n - i ≤ fuel)%nat →
  for_loop fuel condc bodyc (Some (i, (step * i)%nat, b))
  = if decide (n ≤ i ∨ (rs * n ≤ lr ∧ ws * n ≤ length b))%nat
    then Some (for_loop fuel cond body (i, (step * i)%nat, b))
    else None.
Proof.
  revert i b. induction fuel as [|fuel IH]; intros i b Hfuel.
  - cbn [for_loop]. rewrite decide_True by lia. reflexivity.
  - cbn [for_loop]. rewrite condc_Some, cond_eq.
    destruct (Nat.ltb_spec i n) as [Hlt|Hge].
    + destruct (decide (rs * i + rs ≤ lr ∧ ws * i + ws ≤ length b)%nat)
        as [Hin|Hout].
      * rewrite bodyc_in by lia.
        destruct (body_index i (step * i) b) as (b' & -> & Hlen).
        replace (step * i + step)%nat with (step * S i)%nat by lia.
        rewrite IH by lia. rewrite Hlen.
        destruct (decide (n ≤ S i ∨ _)%nat), (decide (n ≤ i ∨ _)%nat);
          try reflexivity; exfalso; nia.
      * rewrite bodyc_out by lia. rewrite checked_None.
        rewrite decide_False by nia. reflexivity.
    + rewrite decide_True by lia. reflexivity.
Qed.
End CheckedLoop.

Lemma Words32ToBytes_checked_bounds (words bytes : list Z) (numwords : nat) :
  Words32ToBytes_checked words bytes numwords
  = if decide (numwords ≤ length words ∧ 4 * numwords ≤ length bytes)%nat
    then Some (Words32ToBytes words bytes numwords)
    else None.
Proof.
  unfold Words32ToBytes_checked, Words32ToBytes.
  change (Some (0%nat, 0%nat, bytes)) with (Some (0%nat, (4 * 0)%nat, bytes)).
  rewrite (checked_loop numwords 4 1 4 (length words)
             (λ '(i, _, _), (i <? numwords)%nat)
             (λ '(i, j, bytes),
                let bytes := <[j := to_u8 (words !!! i)]> bytes in
                let bytes := <[(j + 1)%nat := to_u8 (Z.shiftr (words !!! i) 8)]> bytes in
                let bytes := <[(j + 2)%nat := to_u8 (Z.shiftr (words !!! i) 16)]> bytes in
                let bytes := <[(j + 3)%nat := to_u8 (Z.shiftr (words !!! i) 24)]> bytes in
                (S i, (j + 4)%nat, bytes))).
  - destruct (decide (numwords ≤ 0 ∨ _)%nat), (decide (_ ∧ _)%nat);
      try reflexivity; try (exfalso; lia).
    cbn [mbind option_bind].
    destruct (for_loop _ _ _ _) as [[i j] b]. reflexivity.
  - reflexivity.
  - intros [[i j] b]. reflexivity.
  - reflexivity.
  - lia.
  - lia.
  - intros i j b. eexists. split; [reflexivity|]. rewrite !length_insert. reflexivity.
  - intros i b Hi Hj. cbn [mbind option_bind].
    rewrite (list_lookup_lookup_total_lt words i) by lia. cbn [mbind option_bind].
    stores. reflexivity.
  - intros i b [Hi|Hj]; cbn [mbind option_bind].
    + rewrite (lookup_ge_None_2 words i) by lia. reflexivity.
    + destruct (words !! i) as [w|]; [|reflexivity]. cbn [mbind option_bind].
      failing_store.
  - lia.
Qed.

Lemma Words64ToBytes_checked_bounds (words bytes : list Z) (numwords : nat) :
  Words64ToBytes_checked words bytes numwords
  = if decide (numwords ≤ length words ∧ 8 * numwords ≤ length bytes)%nat
    then Some (Words64ToBytes words bytes numwords)
    else None.
Proof.
  unfold Words64ToBytes_checked, Words64ToBytes.
  change (Some (0%nat, 0%nat, bytes)) with (Some (0%nat, (8 * 0)%nat, bytes)).
  rewrite (checked_loop numwords 8 1 8 (length words)
             (λ '(i, _, _), (i <? numwords)%nat)
             (λ '(i, j, bytes),
                let bytes := <[j := to_u8 (words !!! i)]> bytes in
                let bytes := <[(j + 1)%nat := to_u8 (Z.shiftr (words !!! i) 8)]> bytes in
                let bytes := <[(j + 2)%nat := to_u8 (Z.shiftr (words !!! i) 16)]> bytes in
                let bytes := <[(j + 3)%nat := to_u8 (Z.shiftr (words !!! i) 24)]> bytes in
                let bytes := <[(j + 4)%nat := to_u8 (Z.shiftr (words !!! i) 32)]> bytes in
                let bytes := <[(j + 5)%nat := to_u8 (Z.shiftr (words !!! i) 40)]> bytes in
                let bytes := <[(j + 6)%nat := to_u8 (Z.shiftr (words !!! i) 48)]> bytes in
                let bytes := <[(j + 7)%nat := to_u8 (Z.shiftr (words !!! i) 56)]> bytes in
                (S i, (j + 8)%nat, bytes))).
  - destruct (decide (numwords ≤ 0 ∨ _)%nat), (decide (_ ∧ _)%nat);
      try reflexivity; try (exfalso; lia).
    cbn [mbind option_bind].
    destruct (for_loop _ _ _ _) as [[i j] b]. reflexivity.
  - reflexivity.
  - intros [[i j] b]. reflexivity.
  - reflexivity.
  - lia.
  - lia.
  - intros i j b. eexists. split; [reflexivity|]. rewrite !length_insert. reflexivity.
  - intros i b Hi Hj. cbn [mbind option_bind].
    rewrite (list_lookup_lookup_total_lt words i) by lia. cbn [mbind option_bind].
    stores. reflexivity.
  - intros i b [Hi|Hj]; cbn [mbind option_bind].
    + rewrite (lookup_ge_None_2 words i) by lia. reflexivity.
    + destruct (words !! i) as [w|]; [|reflexivity]. cbn [mbind option_bind].
      failing_store.
  - lia.
Qed.

Ltac reads bytes :=
  repeat match goal with
    | |- context [bytes !! ?k] =>
        rewrite (list_lookup_lookup_total_lt bytes k) by lia;
        cbn [mbind option_bind]
    end.

Lemma BytesToWords32_checked_bounds (bytes words : list Z) (numbytes : nat) :
  BytesToWords32_checked bytes words numbytes
  = if decide (4 * (numbytes / 4) ≤ length bytes
               ∧ numbytes / 4 ≤ length words)%nat
    then Some (BytesToWords32 bytes words numbytes)
    else None.
Proof.
  unfold BytesToWords32_checked, BytesToWords32.
  change (Some (0%nat, 0%nat, words)) with (Some (0%nat, (4 * 0)%nat, words)).
  rewrite (checked_loop (numbytes / 4) 4 4 1 (length bytes)
             (λ '(i, _, _), (i <? numbytes / 4)%nat)
             (λ '(i, j, words),
                let words :=
                  <[i := Z.lor (Z.lor (Z.lor (to_u32 (bytes !!! j))
                           (to_u32 (Z.shiftl (bytes !!! (j + 1)%nat) 8)))
                           (to_u32 (Z.shiftl (bytes !!! (j + 2)%nat) 16)))
                           (to_u32 (Z.shiftl (bytes !!! (j + 3)%nat) 24))]> words in
                (S i, (j + 4)%nat, words))).
  - destruct (decide (numbytes / 4 ≤ 0 ∨ _)%nat), (decide (_ ∧ _)%nat);
      try reflexivity; try (exfalso; lia).
    cbn [mbind option_bind].
    destruct (for_loop _ _ _ _) as [[i j] b]. reflexivity.
  - reflexivity.
  - intros [[i j] b]. reflexivity.
  - reflexivity.
  - lia.
  - lia.
  - intros i j b. eexists. split; [reflexivity|]. rewrite !length_insert. reflexivity.
  - intros i b Hi Hj. cbn [mbind option_bind].
    reads bytes. stores. reflexivity.
  - intros i b [Hi|Hj]; cbn [mbind option_bind].
    + failing_read.
    + repeat (match goal with
              | |- (?l !! ?k) ≫= _ = None =>
                  destruct (l !! k); [cbn [mbind option_bind] | reflexivity]
              end).
      stores. reflexivity.
  - lia.
Qed.

Lemma BytesToWords64_checked_bounds (bytes words : list Z) (numbytes : nat) :
  BytesToWords64_checked bytes words numbytes
  = if decide (8 * (numbytes / 8) ≤ length bytes
               ∧ numbytes / 8 ≤ length words)%nat
    then Some (BytesToWords64 bytes words numbytes)
    else None.
Proof.
  unfold BytesToWords64_checked, BytesToWords64.
  change (Some (0%nat, 0%nat, words)) with (Some (0%nat, (8 * 0)%nat, words)).
  rewrite (checked_loop (numbytes / 8) 8 8 1 (length bytes)
             (λ '(i, _, _), (i <? numbytes / 8)%nat)
             (λ '(i, j, words),
                let words :=
                  <[i := Z.lor (Z.lor (Z.lor (Z.lor (Z.lor (Z.lor (Z.lor
                           (to_u64 (bytes !!! j))
                           (to_u64 (Z.shiftl (bytes !!! (j + 1)%nat) 8)))
                           (to_u64 (Z.shiftl (bytes !!! (j + 2)%nat) 16)))
                           (to_u64 (Z.shiftl (bytes !!! (j + 3)%nat) 24)))
                           (to_u64 (Z.shiftl (bytes !!! (j + 4)%nat) 32)))
                           (to_u64 (Z.shiftl (bytes !!! (j + 5)%nat) 40)))
                           (to_u64 (Z.shiftl (bytes !!! (j + 6)%nat) 48)))
                           (to_u64 (Z.shiftl (bytes !!! (j + 7)%nat) 56))]> words in
                (S i, (j + 8)%nat, words))).
  - destruct (decide (numbytes / 8 ≤ 0 ∨ _)%nat), (decide (_ ∧ _)%nat);
      try reflexivity; try (exfalso; lia).
    cbn [mbind option_bind].
    destruct (for_loop _ _ _ _) as [[i j] b]. reflexivity.
  - reflexivity.
  - intros [[i j] b]. reflexivity.
  - reflexivity.
  - lia.
  - lia.
  - intros i j b. eexists. split; [reflexivity|]. rewrite !length_insert. reflexivity.
  - intros i b Hi Hj. cbn [mbind option_bind].
    reads bytes. stores. reflexivity.
  - intros i b [Hi|Hj]; cbn [mbind option_bind].
    + failing_read.
    + repeat (match goal with
              | |- (?l !! ?k) ≫= _ = None =>
                  destruct (l !! k); [cbn [mbind option_bind] | reflexivity]
              end).
      stores. reflexivity.
  - lia.
Qed.

(** ** The entry point on sizes it has no branch for *)

Lemma copy_bytes_iter (n : nat) (src dst : list Z) (k : nat) :
  (k ≤ n)%nat → (n ≤ length dst)%nat →
  Nat.iter k (λ '(i, dst), (S i, <[i := src !!! i]> dst)) (0%nat, dst)
  = (k, written (λ i, src !!! i) k dst).
Proof.
  intros Hk Hn. induction k as [|k IH]; [reflexivity|].
  simpl Nat.iter. rewrite IH by lia.
  rewrite emit_next; [reflexivity | lia | reflexivity].
Qed.

Lemma copy_bytes_written (n : nat) (src dst : list Z) :
  (n ≤ length dst)%nat →
  copy_bytes n src dst = written (λ i, src !!! i) n dst.
Proof.
  intros Hn. unfold copy_bytes.
  rewrite (for_loop_iter _ _ (λ s, (n - s.1)%nat)).
  - cbn [fst]. rewrite Nat.sub_0_r, (copy_bytes_iter n) by lia. reflexivity.
  - intros [i d]. apply ks_rem_up.
  - intros [i d]. cbn [fst]. lia.
  - cbn [fst]. lia.
Qed.

Lemma copy_bytes_full (n : nat) (src dst : list Z) :
  length dst = n →
  copy_bytes n src dst = (λ i, src !!! i) <$> seq 0 n.
Proof.
  intros Hn. rewrite copy_bytes_written by lia. unfold written.
  rewrite drop_ge by lia. apply app_nil_r.
Qed.

Lemma supported_64 (k : nat) :
  supported 64 k = false → (k =? 96)%nat = false ∧ (k =? 128)%nat = false.
Proof.
  unfold supported. simpl.
  destruct (k =? 96)%nat, (k =? 128)%nat; simpl; intros; try discriminate; auto.
Qed.

Lemma supported_128 (k : nat) :
  supported 128 k = false →
  (k =? 128)%nat = false ∧ (k =? 192)%nat = false ∧ (k =? 256)%nat = false.
Proof.
  unfold supported. simpl.
  destruct (k =? 128)%nat, (k =? 192)%nat, (k =? 256)%nat; simpl; intros;
    try discriminate; auto.
Qed.

Lemma fmap_seq_lookups (e : nat → Z) (l : list Z) (n : nat) :
  length l = n → (∀ p, (p < n)%nat → e p = l !!! p) → e <$> seq 0 n = l.
Proof.
  intros Hl He. apply list_eq_same_length with n.
  - exact Hl.
  - rewrite length_fmap, length_seq. reflexivity.
  - intros p x y Hp Hx Hy.
    rewrite list_lookup_fmap, lookup_seq_lt in Hx by exact Hp.
    simpl in Hx. injection Hx as <-. rewrite He by exact Hp.
    apply list_lookup_total_correct, Hy.
Qed.

Lemma uninit_length (stack : local → nat → Z) (x : local) (n : nat) :
  length (uninit stack x n) = n.
Proof. unfold uninit. rewrite length_fmap, length_seq. reflexivity. Qed.

Lemma copy_uninit (stack : local → nat → Z) (x : local) (n : nat)
    (dst : list Z) :
  length dst = n →
  copy_bytes n (uninit stack x (n * 8 / 8)) dst = uninit stack x n.
Proof.
  intros Hn. rewrite Nat.div_mul by discriminate.
  rewrite copy_bytes_full by exact Hn.
  apply fmap_seq_lookups; [apply uninit_length | reflexivity].
Qed.

(** Step 4 with [sz_txt/8] as the word count, on a text of at least one
    byte. *)
Lemma step4_32 (words : list Z) (stack : local → nat → Z) (sz_txt : nat) :
  (8 ≤ sz_txt)%nat →
  Words32ToBytes_checked words (uninit stack Ltxto_u8 (sz_txt / 8)) (sz_txt / 8)
  = None.
Proof.
  intros Hsz. rewrite Words32ToBytes_checked_bounds.
  apply decide_False. rewrite uninit_length. lia.
Qed.

Lemma step4_64 (words : list Z) (stack : local → nat → Z) (sz_txt : nat) :
  (8 ≤ sz_txt)%nat →
  Words64ToBytes_checked words (uninit stack Ltxto_u8 (sz_txt / 8)) (sz_txt / 8)
  = None.
Proof.
  intros Hsz. rewrite Words64ToBytes_checked_bounds.
  apply decide_False. rewrite uninit_length. lia.
Qed.

Lemma run_unsupported (stack : local → nat → Z) (crypto_mode : Z)
    (txt_i key_i txt_o : list Z) :
  supported (length txt_i * 8) (length key_i * 8) = false →
  length txt_o = length txt_i →
  dpi_c_run_simon stack crypto_mode txt_i key_i txt_o
  = ([INFO (length txt_i * 8) (length key_i * 8) (crypto_mode =? MODE_ENC);
      FAILURE (length txt_i * 8) (length key_i * 8)],
     if decide (length txt_i * 8 = 64 ∨ length txt_i * 8 = 128)%nat
     then None
     else Some (uninit stack Ltxto_u8 (length txt_i))).
Proof.
  intros Hsup Hlen. unfold dpi_c_run_simon. cbv zeta.
  destruct (Nat.eqb_spec (length txt_i * 8) 64) as [E64|N64].
  - rewrite E64 in Hsup. destruct (supported_64 _ Hsup) as [-> ->].
    cbv beta iota. rewrite E64, step4_32 by lia.
    rewrite decide_True by lia. reflexivity.
  - destruct (Nat.eqb_spec (length txt_i * 8) 128) as [E128|N128].
    + rewrite E128 in Hsup. destruct (supported_128 _ Hsup) as (-> & -> & ->).
      cbv beta iota. rewrite E128, step4_64 by lia.
      rewrite decide_True by lia. reflexivity.
    + cbv beta iota. cbn [mbind option_bind].
      rewrite copy_uninit by exact Hlen.
      rewrite decide_False by lia. reflexivity.
Qed.

(** ** Words and rotations, bit by bit *)

Lemma word_bits_high (w x i : Z) :
  0 <= w → word w x → w <= i → Z.testbit x i = false.
Proof.
  intros Hw Hx Hi. rewrite <- (Z.mod_small x (2 ^ w)) by exact Hx.
  apply Z.mod_pow2_bits_high. lia.
Qed.

Lemma word_of_bits (w y : Z) :
  0 <= w → (∀ i, w <= i → Z.testbit y i = false) → word w y.
Proof.
  intros Hw Hy. assert (y = y mod 2 ^ w) as ->.
  { apply Z.bits_inj'. intros n Hn. destruct (Z.lt_ge_cases n w).
    - rewrite Z.mod_pow2_bits_low by lia. reflexivity.
    - rewrite Z.mod_pow2_bits_high by lia. apply Hy. lia. }
  apply Z.mod_pos_bound. apply Z.pow_pos_nonneg; lia.
Qed.

Lemma ROTL_testbit (w x r i : Z) :
  0 < r < w → word w x → 0 <= i < w →
  Z.testbit (ROTL w x r) i = rotl_bit w x r i.
Proof.
  intros Hr Hx Hi. unfold ROTL, rotl_bit.
  rewrite Z.lor_spec, Z.mod_pow2_bits_low, Z.shiftl_spec, Z.shiftr_spec by lia.
  destruct (Z.lt_ge_cases i r) as [Hlt|Hge].
  - rewrite (Z.testbit_neg_r x (i - r)) by lia.
    rewrite <- (Z.mod_add (i - r) 1 w), Z.mod_small by lia.
    simpl. f_equal. lia.
  - rewrite (word_bits_high w x (i + (w - r))) by (try exact Hx; lia).
    rewrite Z.mod_small by lia. apply orb_false_r.
Qed.

Lemma ROTL_word (w x r : Z) : 0 < r < w → word w x → word w (ROTL w x r).
Proof.
  intros Hr Hx. apply word_of_bits; [lia|]. intros i Hi. unfold ROTL.
  rewrite Z.lor_spec, Z.mod_pow2_bits_high, Z.shiftr_spec by lia.
  apply (word_bits_high w); [lia | exact Hx | lia].
Qed.

Lemma f_word (w x : Z) : 8 < w → word w x → word w (f w x).
Proof.
  intros Hw Hx. apply word_of_bits; [lia|]. intros i Hi. unfold f.
  rewrite Z.lxor_spec, Z.land_spec.
  rewrite !(word_bits_high w (ROTL w x _) i) by (try apply ROTL_word; auto; lia).
  reflexivity.
Qed.

Lemma f_testbit (w x i : Z) :
  8 < w → word w x → 0 <= i < w →
  Z.testbit (f w x) i
  = xorb (rotl_bit w x 1 i && rotl_bit w x 8 i) (rotl_bit w x 2 i).
Proof.
  intros Hw Hx Hi. unfold f.
  rewrite Z.lxor_spec, Z.land_spec, !ROTL_testbit by (auto; lia).
  reflexivity.
Qed.

(** ** Reading the schedule back *)

Lemma fmap_seq_ext (e e' : nat → Z) (n : nat) :
  (∀ j, (j < n)%nat → e j = e' j) → e <$> seq 0 n = e' <$> seq 0 n.
Proof.
  intros H. apply list_fmap_ext. intros i x Hx.
  apply lookup_seq in Hx as [-> Hi]. apply H. exact Hi.
Qed.

Lemma written_ext (e e' : nat → Z) (n : nat) (rk : list Z) :
  (∀ j, (j < n)%nat → e j = e' j) → written e n rk = written e' n rk.
Proof. intros H. unfold written. rewrite (fmap_seq_ext e e' n H). reflexivity. Qed.

Lemma written_take_inv (e e' : nat → Z) (n m : nat) (rk : list Z) (j : nat) :
  (m ≤ n)%nat →
  take m (written e n rk) = take m (written e' n rk) →
  (j < m)%nat → e j = e' j.
Proof.
  intros Hm Ht Hj.
  rewrite <- (written_lookup e rk n j), <- (written_lookup e' rk n j) by lia.
  rewrite <- (lookup_total_take_lt (written e n rk) m j) by exact Hj.
  rewrite <- (lookup_total_take_lt (written e' n rk) m j) by exact Hj.
  rewrite Ht. reflexivity.
Qed.

(** The window that sub-round [j] reads, taken from the finished
    schedule. *)
Lemma schedule_window (v : variant) (z : Z) (K rk : list Z) (j : nat) :
  (rounds v ≤ length rk)%nat → (j + key_words v ≤ rounds v)%nat →
  (λ k, KeySchedule_z v z K rk !!! (j + k)%nat) <$> seq 0 (key_words v)
  = (λ k, rk_entry v z K (j + k)) <$> seq 0 (key_words v).
Proof.
  intros Hrk Hj. apply fmap_seq_ext. intros k Hk.
  apply KeySchedule_z_lookup; [exact Hrk | lia].
Qed.

Lemma drawn_in_rounds (v : variant) : (drawn v + key_words v ≤ rounds v)%nat.
Proof. destruct v; cbv; lia. Qed.

(** ** The embedding stays within the machine words

    The functions above compute on [Z]; on words of the variant's width
    they return words of that width, so every intermediate value is one
    the C program can hold. *)

Lemma word_mono (w x : Z) : 0 <= w → word 1 x → 1 <= w → word w x.
Proof.
  intros Hw [H0 H1] Hle. split; [exact H0|].
  apply Z.lt_le_trans with (2 ^ 1); [exact H1|].
  apply Z.pow_le_mono_r; lia.
Qed.

Lemma lxor_word (w a b : Z) : 0 <= w → word w a → word w b → word w (a .^ b).
Proof.
  intros Hw Ha Hb. apply word_of_bits; [exact Hw|]. intros i Hi.
  rewrite Z.lxor_spec, (word_bits_high w a), (word_bits_high w b) by assumption.
  reflexivity.
Qed.

Lemma ROTR_word (w x r : Z) : 0 < r < w → word w x → word w (ROTR w x r).
Proof.
  intros Hr Hx. apply word_of_bits; [lia|]. intros i Hi. unfold ROTR.
  rewrite Z.lor_spec, Z.mod_pow2_bits_high, Z.shiftr_spec by lia.
  rewrite (word_bits_high w x (i + r)) by (try exact Hx; lia). reflexivity.
Qed.

Lemma ROTR_testbit (w x r i : Z) :
  0 < r < w → word w x → 0 <= i < w →
  Z.testbit (ROTR w x r) i = Z.testbit x ((i + r) mod w).
Proof.
  intros Hr Hx Hi. unfold ROTR.
  rewrite Z.lor_spec, Z.mod_pow2_bits_low, Z.shiftl_spec, Z.shiftr_spec by lia.
  destruct (Z.lt_ge_cases (i + r) w) as [Hlt|Hge].
  - rewrite (Z.testbit_neg_r x (i - (w - r))) by lia.
    rewrite Z.mod_small by lia. apply orb_false_r.
  - rewrite (word_bits_high w x (i + r)) by (try exact Hx; lia).
    replace (i + r) with (i - (w - r) + 1 * w) by lia.
    rewrite Z.mod_add, Z.mod_small by lia. reflexivity.
Qed.

Lemma seq_bit_word (z : Z) (j : nat) : word 1 (seq_bit z j).
Proof.
  rewrite seq_bit_testbit. unfold word.
  destruct (Z.testbit z (Z.of_nat j)); simpl; lia.
Qed.

Lemma round_bit_word (v : variant) (z : Z) (j : nat) : word 1 (round_bit v z j).
Proof.
  unfold round_bit. destruct (j <? drawn v)%nat; [apply seq_bit_word|].
  assert (Forall (word 1) (forced v)) as Hf
    by (destruct v; repeat first [apply Forall_nil_2 | apply Forall_cons_2];
        unfold word; lia).
  destruct (forced v !! (j - drawn v)%nat) as [b|] eqn:Hb.
  - rewrite (list_lookup_total_correct _ _ _ Hb).
    exact (proj1 (Forall_lookup _ _) Hf _ _ Hb).
  - rewrite list_lookup_total_alt, Hb. simpl. unfold word. lia.
Qed.

Lemma lookup_total_word (w : Z) (l : list Z) (i : nat) :
  0 < w → Forall (word w) l → word w (l !!! i).
Proof.
  intros Hw Hl. rewrite list_lookup_total_alt.
  destruct (l !! i) as [x|] eqn:Hx; simpl.
  - exact (proj1 (Forall_lookup _ _) Hl _ _ Hx).
  - unfold word. split; [lia|]. apply Z.pow_gt_1; lia.
Qed.

Lemma to_u32_word (x : Z) : word 32 (to_u32 x).
Proof. unfold to_u32, word. apply Z.mod_pos_bound. lia. Qed.

Lemma update_word (v : variant) (bit : Z) (w : list Z) :
  word 1 bit → Forall (word (word_bits v)) w →
  word (word_bits v) (update v bit w).
Proof.
  intros Hb Hw.
  assert (word 64 c64) by (unfold word, c64; lia).
  assert (word 64 bit → word 64 bit) by auto.
  destruct v; cbn [update word_bits] in *; try apply to_u32_word;
    repeat (apply lxor_word; [lia | |]);
    try (apply ROTR_word; [lia|]);
    try (apply lookup_total_word; [lia | exact Hw]);
    try assumption; apply word_mono; (lia || assumption).
Qed.

Lemma window_words (v : variant) (z : Z) (K : list Z) (j : nat) :
  Forall (word (word_bits v)) K →
  Forall (word (word_bits v))
    (window (λ j w, update v (round_bit v z j) w) (key_regs v K) j).
Proof.
  intros HK. induction j as [|j IH].
  - simpl. unfold key_regs. apply Forall_fmap, Forall_forall. intros k _.
    simpl. apply lookup_total_word; [destruct v; simpl; lia | exact HK].
  - simpl. unfold slide. apply Forall_app. split.
    + destruct (window _ (key_regs v K) j) as [|x t]; [constructor|].
      simpl. exact (Forall_inv_tail IH).
    + apply Forall_cons_2; [|apply Forall_nil_2].
      apply update_word; [apply round_bit_word | exact IH].
Qed.

(** Every schedule entry is a word of the variant's width when the key
    words are. *)
Lemma rk_entry_word (v : variant) (z : Z) (K : list Z) (j : nat) :
  Forall (word (word_bits v)) K → word (word_bits v) (rk_entry v z K j).
Proof.
  intros HK. unfold rk_entry, entry.
  apply lookup_total_word; [destruct v; simpl; lia|].
  apply window_words, HK.
Qed.

Lemma KeySchedule_words (v : variant) (K rk : list Z) :
  (rounds v ≤ length rk)%nat → Forall (word (word_bits v)) K →
  Forall (word (word_bits v)) (take (rounds v) (KeySchedule v K rk)).
Proof.
  intros Hrk HK. rewrite KeySchedule_written, written_take by exact Hrk.
  apply Forall_fmap, Forall_forall. intros j _. simpl.
  apply rk_entry_word, HK.
Qed.

Lemma xor_into_word (w : Z) (a : list Z) (i : nat) (x : Z) :
  0 < w → Forall (word w) a → word w x →
  Forall (word w) (<[i := a !!! i .^ x]> a).
Proof.
  intros Hw Ha Hx. apply Forall_insert; [exact Ha|].
  apply lxor_word; [lia | apply lookup_total_word; assumption | exact Hx].
Qed.

Lemma Rx2_words (w : Z) (x y : nat) (k1 k2 : Z) (a : list Z) :
  8 < w → word w k1 → word w k2 → Forall (word w) a →
  Forall (word w) (Rx2 w x y k1 k2 a).
Proof.
  intros Hw Hk1 Hk2 Ha. unfold Rx2.
  assert (Hf : ∀ (b : list Z) (i : nat),
            Forall (word w) b → word w (f w (b !!! i)))
    by (intros b i Hb; apply f_word; [lia|];
        apply lookup_total_word; [lia | exact Hb]).
  assert (H1 : Forall (word w) (<[y := a !!! y .^ f w (a !!! x)]> a))
    by (apply xor_into_word; [lia | exact Ha | apply Hf, Ha]).
  set (a1 := <[y := a !!! y .^ f w (a !!! x)]> a) in *.
  assert (H2 : Forall (word w) (<[y := a1 !!! y .^ k1]> a1))
    by (apply xor_into_word; [lia | exact H1 | exact Hk1]).
  set (a2 := <[y := a1 !!! y .^ k1]> a1) in *.
  assert (H3 : Forall (word w) (<[x := a2 !!! x .^ f w (a2 !!! y)]> a2))
    by (apply xor_into_word; [lia | exact H2 | apply Hf, H2]).
  apply xor_into_word; [lia | exact H3 | exact Hk2].
Qed.

Lemma enc_rounds_words (w : Z) (n : nat) (rk a : list Z) :
  8 < w → Forall (word w) rk → Forall (word w) a →
  Forall (word w) (enc_rounds w n rk a).
Proof.
  intros Hw Hrk Ha. induction n as [|n IH]; [exact Ha|].
  simpl. apply Rx2_words; try assumption; apply lookup_total_word; (lia || assumption).
Qed.

Lemma dec_rounds_words (w : Z) (n : nat) (rk a : list Z) :
  8 < w → Forall (word w) rk → Forall (word w) a →
  Forall (word w) (dec_rounds w n rk a).
Proof.
  intros Hw Hrk. revert a. induction n as [|n IH]; intros a Ha; [exact Ha|].
  simpl. apply IH.
  apply Rx2_words; try assumption; apply lookup_total_word; (lia || assumption).
Qed.

(** Encryption of a block of words with round keys that are words gives a
    block of words. *)
Lemma Encrypt_words (v : variant) (P Ct rk : list Z) :
  length Ct = 2%nat →
  Forall (word (word_bits v)) P → Forall (word (word_bits v)) rk →
  Forall (word (word_bits v)) (Encrypt v P Ct rk).
Proof.
  intros HCt HP Hrk.
  assert (Forall (word (word_bits v)) [P !!! 0%nat; P !!! 1%nat]) as HP2
    by (repeat first [apply Forall_nil_2 | apply Forall_cons_2];
        apply lookup_total_word; (assumption || destruct v; simpl; lia)).
  destruct v; cbn [Encrypt word_bits] in *.
  - rewrite Simon6496Encrypt_rounds by exact HCt.
    apply enc_rounds_words; (lia || assumption).
  - rewrite Simon64128Encrypt_rounds by exact HCt.
    apply enc_rounds_words; (lia || assumption).
  - rewrite Simon128128Encrypt_rounds by exact HCt.
    apply enc_rounds_words; (lia || assumption).
  - rewrite Simon128192Encrypt_rounds by exact HCt.
    pose proof (enc_rounds_words 64 34 rk _ ltac:(lia) Hrk HP2) as He.
    unfold half_round. repeat first [apply Forall_nil_2 | apply Forall_cons_2].
    + apply lookup_total_word; [lia | exact He].
    + apply lxor_word; [lia | apply lxor_word; [lia | |] |].
      * apply lookup_total_word; [lia | exact He].
      * apply f_word; [lia|]. apply lookup_total_word; [lia | exact He].
      * apply lookup_total_word; [lia | exact Hrk].
  - rewrite Simon128256Encrypt_rounds by exact HCt.
    apply enc_rounds_words; (lia || assumption).
Qed.

(** * The claims *)

(** C1 (round trip).  For each of the five variants, any block [P] of two
    words and any key [K]: decrypting, with the schedule expanded from
    [K], the block that encryption produced from [P] with that schedule
    gives back [P].  [Ct] and [Pt] are the two-word output buffers the C
    functions write to; [rk] is the buffer the schedule is written to. *)
Theorem C1_round_trip (v : variant) (P K Ct Pt rk : list Z) :
  length P = 2%nat → length Ct = 2%nat → length Pt = 2%nat →
  Decrypt v Pt (Encrypt v P Ct (KeySchedule v K rk)) (KeySchedule v K rk) = P.
Proof.
  intros HP HCt HPt.
  set (S := KeySchedule v K rk).
  assert (HP2 : [P !!! 0%nat; P !!! 1%nat] = P) by (symmetry; apply two_words, HP).
  destruct v; cbn [Decrypt Encrypt].
  - rewrite Simon6496Decrypt_rounds, Simon6496Encrypt_rounds by assumption.
    rewrite <- two_words by (rewrite enc_rounds_length; reflexivity).
    rewrite dec_enc_rounds by reflexivity. exact HP2.
  - rewrite Simon64128Decrypt_rounds, Simon64128Encrypt_rounds by assumption.
    rewrite <- two_words by (rewrite enc_rounds_length; reflexivity).
    rewrite dec_enc_rounds by reflexivity. exact HP2.
  - rewrite Simon128128Decrypt_rounds, Simon128128Encrypt_rounds by assumption.
    rewrite <- two_words by (rewrite enc_rounds_length; reflexivity).
    rewrite dec_enc_rounds by reflexivity. exact HP2.
  - rewrite Simon128192Decrypt_rounds, Simon128192Encrypt_rounds by assumption.
    rewrite <- two_words by apply half_round_length.
    rewrite half_round_inverse by (rewrite enc_rounds_length; reflexivity).
    rewrite dec_enc_rounds by reflexivity. exact HP2.
  - rewrite Simon128256Decrypt_rounds, Simon128256Encrypt_rounds by assumption.
    rewrite <- two_words by (rewrite enc_rounds_length; reflexivity).
    rewrite dec_enc_rounds by reflexivity. exact HP2.
Qed.

Lemma C1_round_trip_witness :
  Decrypt Simon128_192 [0; 0]
    (Encrypt Simon128_192 [0x6568772065626972; 0x206572656874206e] [0; 0]
       (KeySchedule Simon128_192
          [0x0706050403020100; 0x0f0e0d0c0b0a0908; 0x1716151413121110]
          (replicate 69 0)))
    (KeySchedule Simon128_192
       [0x0706050403020100; 0x0f0e0d0c0b0a0908; 0x1716151413121110]
       (replicate 69 0))
  = [0x6568772065626972; 0x206572656874206e].
Proof.
  exact (C1_round_trip Simon128_192
           [0x6568772065626972; 0x206572656874206e]
           [0x0706050403020100; 0x0f0e0d0c0b0a0908; 0x1716151413121110]
           [0; 0] [0; 0] (replicate 69 0) eq_refl eq_refl eq_refl).
Defined.

(** C2 (the 69-round variant).  [Simon128192Encrypt] applies
    [floor(69/2) = 34] double rounds and then exactly one extra half round,
    which swaps the two words with an XOR-mix of the round function and the
    one remaining round key [rk[68]]; [Simon128192Decrypt] first undoes
    that half round and then runs the 34 double rounds backwards. *)
Theorem C2_odd_round_variant (Pt Ct Pt' Ct' rk : list Z) :
  length Ct = 2%nat → length Pt' = 2%nat →
  rounds Simon128_192 = 69%nat ∧ (69 / 2 = 34)%nat ∧
  Simon128192Encrypt Pt Ct rk
    = half_round (rk !!! 68%nat)
        (enc_rounds 64 34 rk [Pt !!! 0%nat; Pt !!! 1%nat]) ∧
  Simon128192Decrypt Pt' Ct' rk
    = dec_rounds 64 34 rk
        (half_round_inv (rk !!! 68%nat) [Ct' !!! 0%nat; Ct' !!! 1%nat]) ∧
  (∀ l r : Z,
     half_round (rk !!! 68%nat) [l; r] = [r; l .^ f64 r .^ rk !!! 68%nat]) ∧
  (∀ a : list Z, length a = 2%nat →
     half_round_inv (rk !!! 68%nat) (half_round (rk !!! 68%nat) a) = a) ∧
  (∀ a : list Z, length a = 2%nat →
     dec_rounds 64 34 rk (enc_rounds 64 34 rk a) = a).
Proof.
  intros HCt HPt'. repeat split.
  - apply Simon128192Encrypt_rounds, HCt.
  - apply Simon128192Decrypt_rounds, HPt'.
  - intros a Ha. apply half_round_inverse, Ha.
  - intros a Ha. apply dec_enc_rounds, Ha.
Qed.

Lemma C2_odd_round_variant_witness :
  Simon128192Encrypt [1; 2] [0; 0] (replicate 69 5)
  = half_round (replicate 69 5 !!! 68%nat)
      (enc_rounds 64 34 (replicate 69 5) [[1; 2] !!! 0%nat; [1; 2] !!! 1%nat]).
Proof.
  exact (proj1 (proj2 (proj2
           (C2_odd_round_variant [1; 2] [0; 0] [0; 0] [3; 4] (replicate 69 5)
              eq_refl eq_refl)))).
Defined.

(** C8 (schedule length).  For every variant and key, key expansion
    writes exactly round-count words, 42 / 44 / 68 / 69 / 72: the buffer
    keeps its length, what lies behind the first [rounds v] words is left
    as it was, and the first [rounds v] words do not depend on what the
    buffer held before, so they are determined by the key and the variant. *)
Theorem C8_schedule_length (v : variant) (K rk rk' : list Z) :
  (rounds v ≤ length rk)%nat → (rounds v ≤ length rk')%nat →
  rounds <$> all_variants = [42; 44; 68; 69; 72]%nat ∧
  length (KeySchedule v K rk) = length rk ∧
  drop (rounds v) (KeySchedule v K rk) = drop (rounds v) rk ∧
  length (take (rounds v) (KeySchedule v K rk)) = rounds v ∧
  take (rounds v) (KeySchedule v K rk) = take (rounds v) (KeySchedule v K rk').
Proof.
  intros Hrk Hrk'. rewrite !KeySchedule_written by assumption.
  rewrite written_length, written_drop, !written_take by assumption.
  rewrite length_fmap, length_seq. repeat split; reflexivity.
Qed.

Lemma C8_schedule_length_witness :
  take (rounds Simon64_96)
    (KeySchedule Simon64_96 [1; 2; 3] (replicate 42 0))
  = take (rounds Simon64_96)
      (KeySchedule Simon64_96 [1; 2; 3] (replicate 50 9)).
Proof.
  refine (proj2 (proj2 (proj2 (proj2
           (C8_schedule_length Simon64_96 [1; 2; 3] (replicate 42 0)
              (replicate 50 9) _ _))))); vm_compute; lia.
Defined.

(** C9 (round function).  On a [w]-bit word [x], for [w = 32] ([f32]) and
    for [w = 64] ([f64]), the round function is
    [(rotl(x,1) AND rotl(x,8)) XOR rotl(x,2)], where the shift-and-or macro
    [ROTL] is the rotation within [w] bits: bit [i] of the result is
    [(x_(i-1) AND x_(i-8)) XOR x_(i-2)], indices modulo [w], and the result
    is a [w]-bit word.  The amounts 1, 8, 2 are the same in both; only the
    modulus differs. *)
Theorem C9_round_function (w : Z) (fw : Z → Z) (x i : Z) :
  (w, fw) = (32, f32) ∨ (w, fw) = (64, f64) →
  word w x → 0 <= i < w →
  fw x = Z.land (ROTL w x 1) (ROTL w x 8) .^ ROTL w x 2 ∧
  (∀ r : Z, 0 < r < w →
     word w (ROTL w x r) ∧ Z.testbit (ROTL w x r) i = rotl_bit w x r i) ∧
  word w (fw x) ∧
  Z.testbit (fw x) i
  = xorb (rotl_bit w x 1 i && rotl_bit w x 8 i) (rotl_bit w x 2 i).
Proof.
  intros [E|E] Hx Hi; injection E as -> ->; unfold f32, f64;
    (split; [reflexivity|]);
    (split; [intros r Hr; split; [apply ROTL_word | apply ROTL_testbit]; auto|]);
    (split; [apply f_word | apply f_testbit]); auto; lia.
Qed.

Lemma C9_round_function_witness :
  word 32 (f32 0x6f722067) ∧
  Z.testbit (f32 0x6f722067) 3
  = xorb (rotl_bit 32 0x6f722067 1 3 && rotl_bit 32 0x6f722067 8 3)
      (rotl_bit 32 0x6f722067 2 3).
Proof.
  refine (proj2 (proj2
            (C9_round_function 32 f32 0x6f722067 3 (or_introl eq_refl) _ _)));
    unfold word; lia.
Defined.

(** C10 (key prefix).  For every variant with [m] key words and every key
    [K] of [m] words, the first [m] entries of the expanded schedule are
    the key words, unchanged and in order. *)
Theorem C10_key_prefix (v : variant) (K rk : list Z) :
  length K = key_words v → (rounds v ≤ length rk)%nat →
  take (key_words v) (KeySchedule v K rk) = K.
Proof.
  intros HK Hrk. rewrite KeySchedule_written by exact Hrk. unfold written.
  assert (key_words v ≤ rounds v)%nat as Hm by (destruct v; cbv; lia).
  rewrite take_app_le by (rewrite length_fmap, length_seq; exact Hm).
  rewrite <- fmap_take, take_seq, Nat.min_l by exact Hm.
  apply list_eq_same_length with (key_words v).
  - exact HK.
  - rewrite length_fmap, length_seq. reflexivity.
  - intros j x y Hj Hx Hy.
    rewrite list_lookup_fmap, lookup_seq_lt in Hx by exact Hj.
    simpl in Hx. injection Hx as <-.
    rewrite rk_entry_key by exact Hj.
    apply list_lookup_total_correct. exact Hy.
Qed.

Lemma C10_key_prefix_witness :
  take (key_words Simon128_256)
    (KeySchedule Simon128_256 [11; 22; 33; 44] (replicate 72 0))
  = [11; 22; 33; 44].
Proof.
  apply (C10_key_prefix Simon128_256 [11; 22; 33; 44] (replicate 72 0));
    [reflexivity | vm_compute; lia].
Defined.

(** C6, as stated, fails: it says that no two variants share their
    round-constant sequence, yet [Simon6496KeySchedule] and
    [Simon128128KeySchedule] both load [0x7369f885192c0ef5], and
    [Simon64128KeySchedule] and [Simon128192KeySchedule] both load
    [0xfc2ce51207a635db]. *)
Lemma C6_counterexample :
  Simon64_96 ≠ Simon128_128 ∧ const_seq Simon64_96 = const_seq Simon128_128 ∧
  Simon64_128 ≠ Simon128_192 ∧ const_seq Simon64_128 = const_seq Simon128_192 ∧
  ¬ sequences_pairwise_distinct.
Proof.
  repeat split; try discriminate.
  intros H. apply (H Simon64_96 Simon128_128); [discriminate | reflexivity].
Qed.

(** C6, amended.  The five variants use three distinct precomputed literal
    sequences: Simon64/96 and Simon128/128 share one, Simon64/128 and
    Simon128/192 share another, Simon128/256 has its own.  Each key
    schedule is its [_z] function at that literal, and consumes it
    low-bit-first, one bit per sub-round of its loop: sub-round [j]
    ([j < drawn v]) computes schedule entry [j + m] from the [m] entries
    before it and bit [j] of the sequence. *)
Theorem C6_constant_sequences (v : variant) (z : Z) (K rk : list Z) (j : nat) :
  (rounds v ≤ length rk)%nat → (j < drawn v)%nat →
  const_seq <$> all_variants
    = [0x7369f885192c0ef5; 0xfc2ce51207a635db; 0x7369f885192c0ef5;
       0xfc2ce51207a635db; 0xfdc94c3a046d678b] ∧
  KeySchedule v = KeySchedule_z v (const_seq v) ∧
  KeySchedule_z v z K rk !!! (j + key_words v)%nat
  = update v (Z.b2z (Z.testbit z (Z.of_nat j)))
      ((λ k, KeySchedule_z v z K rk !!! (j + k)%nat) <$> seq 0 (key_words v)).
Proof.
  intros Hrk Hj. pose proof (drawn_in_rounds v) as Hd.
  split; [reflexivity|]. split; [apply KeySchedule_const_seq|].
  rewrite schedule_window by (try exact Hrk; lia).
  rewrite KeySchedule_z_lookup by (try exact Hrk; lia).
  rewrite rk_entry_step, round_bit_drawn, seq_bit_testbit by exact Hj.
  reflexivity.
Qed.

Lemma C6_constant_sequences_witness :
  KeySchedule_z Simon128_256 z_128256 [1; 2; 3; 4] (replicate 72 0)
    !!! (5 + key_words Simon128_256)%nat
  = update Simon128_256 (Z.b2z (Z.testbit z_128256 (Z.of_nat 5)))
      ((λ k, KeySchedule_z Simon128_256 z_128256 [1; 2; 3; 4]
               (replicate 72 0) !!! (5 + k)%nat)
         <$> seq 0 (key_words Simon128_256)).
Proof.
  refine (proj2 (proj2
            (C6_constant_sequences Simon128_256 z_128256 [1; 2; 3; 4]
               (replicate 72 0) 5 _ _))); vm_compute; lia.
Defined.

(** C3, as stated, fails.  It says that in both three-word schedules the
    final 5 entries come from fixed-bit closing updates.
    [Simon6496KeySchedule] has no such updates: with the key [0,0,0],
    flipping bit 38 of the sequence leaves the first 41 entries as they
    are and changes the last one.  In [Simon128192KeySchedule] only the
    final 3 entries come from fixed-bit updates: flipping bit 62 of the
    sequence leaves the first 65 entries as they are and changes entry
    65, one of the final 5. *)
Lemma C3_counterexample :
  (let z' := Z.lxor z_6496 (2 ^ 38) in
   let K := [0; 0; 0] in
   let rk := replicate 42 0 in
   take (42 - 5) (Simon6496KeySchedule_z z_6496 K rk)
     = take (42 - 5) (Simon6496KeySchedule_z z' K rk) ∧
   Simon6496KeySchedule_z z_6496 K rk !!! 41%nat = 1187700799 ∧
   Simon6496KeySchedule_z z' K rk !!! 41%nat = 1187700798) ∧
  ¬ closing_forced Simon6496KeySchedule_z 42 5 ∧
  (let z' := Z.lxor z_128192 (2 ^ 62) in
   let K := [0; 0; 0] in
   let rk := replicate 69 0 in
   take (69 - 5) (Simon128192KeySchedule_z z_128192 K rk)
     = take (69 - 5) (Simon128192KeySchedule_z z' K rk) ∧
   Simon128192KeySchedule_z z_128192 K rk !!! 65%nat = 6499795928226231969 ∧
   Simon128192KeySchedule_z z' K rk !!! 65%nat = 6499795928226231968) ∧
  ¬ closing_forced Simon128192KeySchedule_z 69 5.
Proof.
  split; [|split; [|split]].
  - vm_compute. repeat split; reflexivity.
  - intros H.
    specialize (H z_6496 (Z.lxor z_6496 (2 ^ 38)) [0; 0; 0] (replicate 42 0)).
    assert (Ht : Simon6496KeySchedule_z z_6496 [0; 0; 0] (replicate 42 0)
                 = Simon6496KeySchedule_z (Z.lxor z_6496 (2 ^ 38)) [0; 0; 0]
                     (replicate 42 0))
      by (apply H; vm_compute; reflexivity).
    apply (f_equal (λ l : list Z, l !!! 41%nat)) in Ht.
    vm_compute in Ht. discriminate Ht.
  - vm_compute. repeat split; reflexivity.
  - intros H.
    specialize (H z_128192 (Z.lxor z_128192 (2 ^ 62)) [0; 0; 0] (replicate 69 0)).
    assert (Ht : Simon128192KeySchedule_z z_128192 [0; 0; 0] (replicate 69 0)
                 = Simon128192KeySchedule_z (Z.lxor z_128192 (2 ^ 62)) [0; 0; 0]
                     (replicate 69 0))
      by (apply H; vm_compute; reflexivity).
    apply (f_equal (λ l : list Z, l !!! 65%nat)) in Ht.
    vm_compute in Ht. discriminate Ht.
Qed.

Lemma closing_forced_128192 : closing_forced Simon128192KeySchedule_z 69 3.
Proof.
  intros z z' K rk Hlen Ht.
  rewrite !Simon128192KeySchedule_written in * by lia.
  change (69 - 3)%nat with 66%nat in Ht.
  assert (He : ∀ j, (j < 66)%nat →
            rk_entry Simon128_192 z K j = rk_entry Simon128_192 z' K j)
    by (intros j Hj; apply (written_take_inv _ _ 69 66 rk j); [lia | exact Ht | exact Hj]).
  assert (H66 : rk_entry Simon128_192 z K 66 = rk_entry Simon128_192 z' K 66).
  { rewrite (rec_128192 z K 63), (rec_128192 z' K 63).
    change (round_bit Simon128_192 z 63) with 1.
    change (round_bit Simon128_192 z' 63) with 1.
    rewrite (He 63%nat), (He 65%nat) by lia. reflexivity. }
  assert (H67 : rk_entry Simon128_192 z K 67 = rk_entry Simon128_192 z' K 67).
  { rewrite (rec_128192 z K 64), (rec_128192 z' K 64).
    change (round_bit Simon128_192 z 64) with 0.
    change (round_bit Simon128_192 z' 64) with 0.
    rewrite (He 64%nat), H66 by lia. reflexivity. }
  assert (H68 : rk_entry Simon128_192 z K 68 = rk_entry Simon128_192 z' K 68).
  { rewrite (rec_128192 z K 65), (rec_128192 z' K 65).
    change (round_bit Simon128_192 z 65) with 1.
    change (round_bit Simon128_192 z' 65) with 1.
    rewrite (He 65%nat), H67 by lia. reflexivity. }
  apply written_ext. intros j Hj.
  destruct (decide (j < 66)%nat) as [Hlt|Hge]; [apply He, Hlt|].
  assert (j = 66 ∨ j = 67 ∨ j = 68)%nat as [-> | [-> | ->]] by lia; assumption.
Qed.

(** C3, amended.  [Simon128192KeySchedule] cycles through A, B, C with
    sequence-drawn bits for 21 passes of its loop, until 63 entries
    (round count minus 6) are emitted; the closing then emits A, B, C as
    entries 63..65, updates each with the fixed bits 1, 0, 1, and emits
    the updated A, B, C raw as entries 66..68: the final 3 entries, and no
    earlier one, come from fixed-bit updates.  [Simon6496KeySchedule] has no
    closing: each of its entries [rk[3] .. rk[41]] is computed with a
    sequence-drawn bit. *)
Theorem C3_three_word_schedules (z : Z) (K rk42 rk69 : list Z) (i : nat) :
  (42 ≤ length rk42)%nat → (69 ≤ length rk69)%nat →
  (let s0 := (0%nat, K !!! 0%nat, K !!! 1%nat, K !!! 2%nat, z, rk69) in
   ks128192_loop s0 = Nat.iter 21 ks128192_body s0 ∧
   (ks128192_loop s0).1.1.1.1.1 = 63%nat) ∧
  (let R := Simon128192KeySchedule_z z K rk69 in
   ((i < 63)%nat →
    R !!! (i + 3)%nat
    = R !!! i .^ (c64 .^ seq_bit z i .^ ROTR64 (R !!! (i + 2)%nat) 3
                    .^ ROTR64 (R !!! (i + 2)%nat) 4)) ∧
   R !!! 66%nat
   = R !!! 63%nat .^ (c64 .^ 1 .^ ROTR64 (R !!! 65%nat) 3 .^ ROTR64 (R !!! 65%nat) 4) ∧
   R !!! 67%nat
   = R !!! 64%nat .^ (c64 .^ 0 .^ ROTR64 (R !!! 66%nat) 3 .^ ROTR64 (R !!! 66%nat) 4) ∧
   R !!! 68%nat
   = R !!! 65%nat .^ (c64 .^ 1 .^ ROTR64 (R !!! 67%nat) 3 .^ ROTR64 (R !!! 67%nat) 4)) ∧
  closing_forced Simon128192KeySchedule_z 69 3 ∧
  (let R := Simon6496KeySchedule_z z K rk42 in
   (i < 39)%nat →
   R !!! (i + 3)%nat
   = to_u32 (c32 .^ seq_bit z i .^ R !!! i .^ ROTR32 (R !!! (i + 2)%nat) 3
               .^ ROTR32 (R !!! (i + 2)%nat) 4)).
Proof.
  intros H42 H69. split; [|split; [|split]].
  - cbv zeta. rewrite ks128192_loop_passes.
    split; [reflexivity|]. rewrite (ks128192_iter z K rk69 21) by lia. reflexivity.
  - cbv zeta. rewrite Simon128192KeySchedule_written by exact H69.
    split; [|split; [|split]].
    + intros Hi. rewrite !written_lookup by lia.
      replace (i + 3)%nat with (S (S (S i))) by lia.
      replace (i + 2)%nat with (S (S i)) by lia.
      rewrite rec_128192, round_bit_drawn by (simpl; lia). reflexivity.
    + rewrite !written_lookup by lia. apply (rec_128192 z K 63).
    + rewrite !written_lookup by lia. apply (rec_128192 z K 64).
    + rewrite !written_lookup by lia. apply (rec_128192 z K 65).
  - exact closing_forced_128192.
  - cbv zeta. intros Hi. rewrite Simon6496KeySchedule_written by exact H42.
    rewrite !written_lookup by lia.
    replace (i + 3)%nat with (S (S (S i))) by lia.
    replace (i + 2)%nat with (S (S i)) by lia.
    rewrite rec_6496, round_bit_drawn by (simpl; lia). reflexivity.
Qed.

Lemma C3_three_word_schedules_witness :
  let R := Simon6496KeySchedule_z z_6496 [1; 2; 3] (replicate 42 0) in
  R !!! (7 + 3)%nat
  = to_u32 (c32 .^ seq_bit z_6496 7 .^ R !!! 7%nat
              .^ ROTR32 (R !!! (7 + 2)%nat) 3 .^ ROTR32 (R !!! (7 + 2)%nat) 4).
Proof.
  assert (H42 : (42 ≤ length (replicate 42 0))%nat) by (vm_compute; lia).
  assert (H69 : (69 ≤ length (replicate 69 0))%nat) by (vm_compute; lia).
  destruct (C3_three_word_schedules z_6496 [1; 2; 3] (replicate 42 0)
              (replicate 69 0) 7 H42 H69) as (_ & _ & _ & H).
  apply H. lia.
Defined.

(** C4, as stated, fails.  It says that a four-word sub-round updates the
    emitted register using the register two-back, mixing three other
    registers.  With the key [0,0,1,0], whose only non-zero word is the
    register two-back of the first sub-round, [rk[4]] is the same as with
    the all-zero key, and differs from the stated update, be it taken
    alone with the constants or XORed into the old value of the
    register. *)
Lemma C4_counterexample :
  let K := [0; 0; 1; 0] in
  (let R := Simon64128KeySchedule K (replicate 44 0) in
   R !!! 4%nat = 0xfffffffd ∧
   Simon64128KeySchedule [0; 0; 0; 0] (replicate 44 0) !!! 4%nat = 0xfffffffd ∧
   to_u32 (c32 .^ seq_bit z_64128 0
             .^ update4_as_stated ROTR32 (R !!! 3%nat) (R !!! 2%nat) (R !!! 1%nat))
     = 0xfffffffc ∧
   to_u32 (R !!! 0%nat .^ c32 .^ seq_bit z_64128 0
             .^ update4_as_stated ROTR32 (R !!! 3%nat) (R !!! 2%nat) (R !!! 1%nat))
     = 0xfffffffc) ∧
  (let R := Simon128256KeySchedule K (replicate 72 0) in
   R !!! 4%nat = 0xfffffffffffffffd ∧
   Simon128256KeySchedule [0; 0; 0; 0] (replicate 72 0) !!! 4%nat
     = 0xfffffffffffffffd ∧
   c64 .^ seq_bit z_128256 0
     .^ update4_as_stated ROTR64 (R !!! 3%nat) (R !!! 2%nat) (R !!! 1%nat)
     = 0xfffffffffffffffc ∧
   R !!! 0%nat .^ c64 .^ seq_bit z_128256 0
     .^ update4_as_stated ROTR64 (R !!! 3%nat) (R !!! 2%nat) (R !!! 1%nat)
     = 0xfffffffffffffffc).
Proof. vm_compute. repeat split; reflexivity. Qed.

(** C4, amended.  In both four-word schedules each sub-round emits one
    register and XORs into it the constant, the constant bit,
    [rotr(reg_minus1,3) ^ rotr(reg_minus1,4)] and
    [reg_minus3 ^ rotr(reg_minus3,1)]: entry [i+4] is computed from the
    entries [i] (the register itself), [i+3] (one back) and [i+1] (three
    back).  The register two-back, entry [i+2], is not used: two other
    registers are mixed in, and [rk[4]] is the same for keys that agree
    on the words 0, 1 and 3. *)
Theorem C4_four_word_update (z : Z) (K K' rk44 rk72 : list Z) (i : nat) :
  (44 ≤ length rk44)%nat → (72 ≤ length rk72)%nat →
  K' !!! 0%nat = K !!! 0%nat → K' !!! 1%nat = K !!! 1%nat →
  K' !!! 3%nat = K !!! 3%nat →
  (let R := Simon64128KeySchedule_z z K rk44 in
   ((i < 40)%nat →
    R !!! (i + 4)%nat
    = to_u32 (c32 .^ seq_bit z i .^ R !!! i
                .^ ROTR32 (R !!! (i + 3)%nat) 3 .^ R !!! (i + 1)%nat
                .^ ROTR32 (R !!! (i + 3)%nat) 4 .^ ROTR32 (R !!! (i + 1)%nat) 1)) ∧
   Simon64128KeySchedule_z z K' rk44 !!! 4%nat = R !!! 4%nat) ∧
  (let R := Simon128256KeySchedule_z z K rk72 in
   ((i < 68)%nat →
    R !!! (i + 4)%nat
    = R !!! i .^ (c64 .^ round_bit Simon128_256 z i
                    .^ ROTR64 (R !!! (i + 3)%nat) 3 .^ ROTR64 (R !!! (i + 3)%nat) 4
                    .^ R !!! (i + 1)%nat .^ ROTR64 (R !!! (i + 1)%nat) 1)) ∧
   Simon128256KeySchedule_z z K' rk72 !!! 4%nat = R !!! 4%nat).
Proof.
  intros H44 H72 E0 E1 E3. split; cbv zeta.
  - rewrite !Simon64128KeySchedule_written by exact H44. split.
    + intros Hi. rewrite !written_lookup by lia.
      replace (i + 4)%nat with (S (S (S (S i)))) by lia.
      replace (i + 3)%nat with (S (S (S i))) by lia.
      replace (i + 1)%nat with (S i) by lia.
      rewrite rec_64128, round_bit_drawn by (simpl; lia). reflexivity.
    + rewrite !written_lookup by lia.
      rewrite (rec_64128 z K 0), (rec_64128 z K' 0).
      rewrite !(rk_entry_key Simon64_128) by (simpl; lia).
      rewrite E0, E1, E3. reflexivity.
  - rewrite !Simon128256KeySchedule_written by exact H72. split.
    + intros Hi. rewrite !written_lookup by lia.
      replace (i + 4)%nat with (S (S (S (S i)))) by lia.
      replace (i + 3)%nat with (S (S (S i))) by lia.
      replace (i + 1)%nat with (S i) by lia.
      apply rec_128256.
    + rewrite !written_lookup by lia.
      rewrite (rec_128256 z K 0), (rec_128256 z K' 0).
      rewrite !(rk_entry_key Simon128_256) by (simpl; lia).
      rewrite E0, E1, E3. reflexivity.
Qed.

Lemma C4_four_word_update_witness :
  Simon64128KeySchedule_z z_64128 [5; 6; 99; 8] (replicate 44 0) !!! 4%nat
  = Simon64128KeySchedule_z z_64128 [5; 6; 7; 8] (replicate 44 0) !!! 4%nat.
Proof.
  assert (H44 : (44 ≤ length (replicate 44 0))%nat) by (vm_compute; lia).
  assert (H72 : (72 ≤ length (replicate 72 0))%nat) by (vm_compute; lia).
  destruct (C4_four_word_update z_64128 [5; 6; 7; 8] [5; 6; 99; 8]
              (replicate 44 0) (replicate 72 0) 0 H44 H72
              eq_refl eq_refl eq_refl) as ((_ & H) & _).
  exact H.
Defined.

(** C5, as stated, fails.  It says that the core of
    [Simon128128KeySchedule] is 64 sub-round pairs.  The loop of the
    function stops at emit index 64, which 32 passes of the A/B pair
    reach; 64 passes would reach index 128, beyond the 68 entries. *)
Lemma C5_counterexample :
  let K := [0; 0] in
  let rk := replicate 68 0 in
  let s0 := (0%nat, K !!! 0%nat, K !!! 1%nat, z_128128, rk) in
  (ks128128_loop s0).1.1.1.1 = 64%nat ∧
  (ks128128_core 64 z_128128 K rk).1.1.1.1 = 128%nat ∧
  ks128128_loop s0 ≠ ks128128_core 64 z_128128 K rk.
Proof.
  cbv zeta. split; [|split].
  - vm_compute. reflexivity.
  - vm_compute. reflexivity.
  - intros H.
    apply (f_equal (λ s : nat * Z * Z * Z * list Z, s.1.1.1.1)) in H.
    vm_compute in H. discriminate H.
Qed.

Lemma closing_forced_128128 : closing_forced Simon128128KeySchedule_z 68 2.
Proof.
  intros z z' K rk Hlen Ht.
  rewrite !Simon128128KeySchedule_written in * by lia.
  change (68 - 2)%nat with 66%nat in Ht.
  assert (He : ∀ j, (j < 66)%nat →
            rk_entry Simon128_128 z K j = rk_entry Simon128_128 z' K j)
    by (intros j Hj; apply (written_take_inv _ _ 68 66 rk j); [lia | exact Ht | exact Hj]).
  assert (H66 : rk_entry Simon128_128 z K 66 = rk_entry Simon128_128 z' K 66).
  { rewrite (rec_128128 z K 64), (rec_128128 z' K 64).
    change (round_bit Simon128_128 z 64) with 1.
    change (round_bit Simon128_128 z' 64) with 1.
    rewrite (He 64%nat), (He 65%nat) by lia. reflexivity. }
  assert (H67 : rk_entry Simon128_128 z K 67 = rk_entry Simon128_128 z' K 67).
  { rewrite (rec_128128 z K 65), (rec_128128 z' K 65).
    change (round_bit Simon128_128 z 65) with 0.
    change (round_bit Simon128_128 z' 65) with 0.
    rewrite (He 65%nat), H66 by lia. reflexivity. }
  apply written_ext. intros j Hj.
  destruct (decide (j < 66)%nat) as [Hlt|Hge]; [apply He, Hlt|].
  assert (j = 66 ∨ j = 67)%nat as [-> | ->] by lia; assumption.
Qed.

(** C5, amended.  The core of [Simon128128KeySchedule] is 32 sub-round
    pairs, that is 64 alternating A/B emit-then-update steps with
    sequence-drawn bits, which emit the entries 0..63.  The final 4
    entries follow the fixed closing pattern: A and B are emitted as
    entries 64 and 65, each followed by one more update, with the constant
    bit forced to the literals 1 (for A) and 0 (for B), and the final A
    and B are the last two entries, 66 and 67. *)
Theorem C5_two_word_schedule (z : Z) (K rk : list Z) (i : nat) :
  (68 ≤ length rk)%nat →
  (let s0 := (0%nat, K !!! 0%nat, K !!! 1%nat, z, rk) in
   ks128128_loop s0 = ks128128_core 32 z K rk ∧
   (ks128128_loop s0).1.1.1.1 = 64%nat) ∧
  (let R := Simon128128KeySchedule_z z K rk in
   ((i < 64)%nat →
    R !!! (i + 2)%nat
    = R !!! i .^ (c64 .^ seq_bit z i .^ ROTR64 (R !!! (i + 1)%nat) 3
                    .^ ROTR64 (R !!! (i + 1)%nat) 4)) ∧
   R !!! 64%nat = (ks128128_core 32 z K rk).1.1.1.2 ∧
   R !!! 65%nat = (ks128128_core 32 z K rk).1.1.2 ∧
   R !!! 66%nat
   = R !!! 64%nat .^ (c64 .^ 1 .^ ROTR64 (R !!! 65%nat) 3 .^ ROTR64 (R !!! 65%nat) 4) ∧
   R !!! 67%nat
   = R !!! 65%nat .^ (c64 .^ 0 .^ ROTR64 (R !!! 66%nat) 3 .^ ROTR64 (R !!! 66%nat) 4)) ∧
  closing_forced Simon128128KeySchedule_z 68 2.
Proof.
  intros H68. split; [|split].
  - cbv zeta. rewrite ks128128_loop_passes. unfold ks128128_core.
    split; [reflexivity|]. rewrite (ks128128_iter z K rk 32) by lia. reflexivity.
  - cbv zeta. unfold ks128128_core.
    rewrite Simon128128KeySchedule_written, (ks128128_iter z K rk 32) by lia.
    cbn [fst snd].
    split; [|split; [|split; [|split]]].
    + intros Hi. rewrite !written_lookup by lia.
      replace (i + 2)%nat with (S (S i)) by lia.
      replace (i + 1)%nat with (S i) by lia.
      rewrite rec_128128, round_bit_drawn by (simpl; lia). reflexivity.
    + rewrite written_lookup by lia. reflexivity.
    + rewrite written_lookup by lia. reflexivity.
    + rewrite !written_lookup by lia. apply (rec_128128 z K 64).
    + rewrite !written_lookup by lia. apply (rec_128128 z K 65).
  - exact closing_forced_128128.
Qed.

Lemma C5_two_word_schedule_witness :
  let s0 := (0%nat, [3; 4] !!! 0%nat, [3; 4] !!! 1%nat, z_128128,
             replicate 68 0) in
  ks128128_loop s0 = ks128128_core 32 z_128128 [3; 4] (replicate 68 0) ∧
  (ks128128_loop s0).1.1.1.1 = 64%nat.
Proof.
  assert (H68 : (68 ≤ length (replicate 68 0))%nat) by (vm_compute; lia).
  exact (proj1 (C5_two_word_schedule z_128128 [3; 4] (replicate 68 0) 0 H68)).
Defined.

(** C7 (rejection): what [dpi_c_run_simon] does where the claim asks for a
    rejection without output.  On a pair of sizes outside the five
    supported ones the function logs a FAILURE line, runs no key schedule
    and no block transform (what follows is the same for every text and
    key of these sizes), and does not return there.  Where the block size
    has no branch, step 4 is not reached and step 5 overwrites every byte
    of the caller's output buffer with what the never-initialised
    [txto_u8] holds.  Where the block size is 64 or 128 bits and the key
    size has no branch, the function goes on to step 4, on the
    never-initialised word array, and the conversion loop leaves its
    arrays: from there on the C program has no defined behaviour.  The
    function returns [void]; the log line is all the caller gets. *)
Theorem C7_unsupported_output_written (stack : local → nat → Z)
    (crypto_mode : Z) (txt_i key_i txt_o : list Z) :
  supported (length txt_i * 8) (length key_i * 8) = false →
  length txt_o = length txt_i →
  let sz_txt := (length txt_i * 8)%nat in
  let r := dpi_c_run_simon stack crypto_mode txt_i key_i txt_o in
  r.1 = [INFO sz_txt (length key_i * 8) (crypto_mode =? MODE_ENC);
         FAILURE sz_txt (length key_i * 8)] ∧
  (sz_txt ≠ 64%nat → sz_txt ≠ 128%nat →
   r.2 = Some (uninit stack Ltxto_u8 (length txt_i))) ∧
  (sz_txt = 64%nat ∨ sz_txt = 128%nat → r.2 = None) ∧
  ∀ (mode' : Z) (txt_i' key_i' txt_o' : list Z),
    length txt_i' = length txt_i → length key_i' = length key_i →
    length txt_o' = length txt_i →
    (dpi_c_run_simon stack mode' txt_i' key_i' txt_o').2 = r.2.
Proof.
  intros Hsup Hlen sz_txt r. subst sz_txt r.
  rewrite (run_unsupported stack crypto_mode txt_i key_i txt_o Hsup Hlen).
  cbn [fst snd]. split; [reflexivity|]. split; [|split].
  - intros N64 N128. rewrite decide_False by lia. reflexivity.
  - intros E. rewrite decide_True by exact E. reflexivity.
  - intros mode' txt_i' key_i' txt_o' Ht Hk Ho.
    rewrite run_unsupported by (rewrite ?Ht, ?Hk; assumption).
    cbn [snd]. rewrite Ht. reflexivity.
Qed.

(** The failing inputs of C7, with the output buffer zeroed by the caller
    and a stack whose cell [n] holds [0xaa + n].  A 4-byte text with an
    8-byte key (Simon32/64): the buffer comes back overwritten with the
    stack bytes.  An 8-byte text with an 8-byte key (Simon64/64): after
    the FAILURE line the function runs into step 4. *)
Lemma C7_unsupported_output_written_witness :
  let stack := λ (_ : local) (n : nat), 0xaa + Z.of_nat n in
  let key_i := [0; 1; 2; 3; 4; 5; 6; 7] in
  let r := dpi_c_run_simon stack MODE_ENC [0x63; 0x6c; 0x69; 0x6e] key_i
             (replicate 4 0) in
  let r' := dpi_c_run_simon stack MODE_ENC
              [0x63; 0x6c; 0x69; 0x6e; 0x67; 0x20; 0x72; 0x6f] key_i
              (replicate 8 0) in
  (r.1 = [INFO 32 64 true; FAILURE 32 64] ∧
   r.2 = Some (uninit stack Ltxto_u8 4)) ∧
  r = ([INFO 32 64 true; FAILURE 32 64], Some [0xaa; 0xab; 0xac; 0xad]) ∧
  (r'.1 = [INFO 64 64 true; FAILURE 64 64] ∧ r'.2 = None).
Proof.
  intros stack key_i r r'. split; [|split].
  - destruct (C7_unsupported_output_written stack MODE_ENC
                [0x63; 0x6c; 0x69; 0x6e] key_i (replicate 4 0)
                eq_refl eq_refl) as (H1 & H2 & _).
    split; [exact H1 | apply H2; vm_compute; lia].
  - vm_compute. reflexivity.
  - destruct (C7_unsupported_output_written stack MODE_ENC
                [0x63; 0x6c; 0x69; 0x6e; 0x67; 0x20; 0x72; 0x6f] key_i
                (replicate 8 0) eq_refl eq_refl) as (H1 & _ & H3 & _).
    split; [exact H1 | apply H3; left; reflexivity].
Defined.

(** * Further properties of the code *)

(** ** functions.h: the four conversions

    Each loop in closed form: the words or bytes it writes, as a function
    of the position. *)
Lemma BytesToWords_iter (step : nat) (at_ : nat → Z)
    (body : nat * nat * list Z → nat * nat * list Z) (words : list Z) (n k : nat) :
  (∀ i j w, body (i, j, w) = (S i, (j + step)%nat, <[i := at_ j]> w)) →
  (k ≤ n)%nat → (n ≤ length words)%nat →
  Nat.iter k body (0%nat, 0%nat, words)
  = (k, (step * k)%nat, written (λ i, at_ (step * i)%nat) k words).
Proof.
  intros Hbody Hk Hn. induction k as [|k IH].
  - simpl. rewrite Nat.mul_0_r. reflexivity.
  - rewrite Nat.iter_succ, IH, Hbody by lia.
    rewrite emit_next; [| lia | reflexivity].
    f_equal. f_equal. lia.
Qed.

Lemma BytesToWords32_written (bytes words : list Z) (numbytes : nat) :
  (numbytes / 4 ≤ length words)%nat →
  BytesToWords32 bytes words numbytes
  = written (λ i, word32_at bytes (4 * i)) (numbytes / 4) words.
Proof.
  intros Hn. unfold BytesToWords32.
  rewrite (for_loop_iter _ _ (λ s, (numbytes / 4 - s.1.1)%nat)).
  - cbn [fst]. rewrite Nat.sub_0_r.
    rewrite (BytesToWords_iter 4 (word32_at bytes) _ words (numbytes / 4));
      [reflexivity | reflexivity | lia | lia].
  - intros [[i j] w]. apply ks_rem_up.
  - intros [[i j] w]. cbn [fst]. lia.
  - cbn [fst]. lia.
Qed.

Lemma BytesToWords64_written (bytes words : list Z) (numbytes : nat) :
  (numbytes / 8 ≤ length words)%nat →
  BytesToWords64 bytes words numbytes
  = written (λ i, word64_at bytes (8 * i)) (numbytes / 8) words.
Proof.
  intros Hn. unfold BytesToWords64.
  rewrite (for_loop_iter _ _ (λ s, (numbytes / 8 - s.1.1)%nat)).
  - cbn [fst]. rewrite Nat.sub_0_r.
    rewrite (BytesToWords_iter 8 (word64_at bytes) _ words (numbytes / 8));
      [reflexivity | reflexivity | lia | lia].
  - intros [[i j] w]. apply ks_rem_up.
  - intros [[i j] w]. cbn [fst]. lia.
  - cbn [fst]. lia.
Qed.

Lemma byte32_of_at (words : list Z) (k r : nat) :
  (r < 4)%nat →
  byte32_of words (4 * k + r) = to_u8 (Z.shiftr (words !!! k) (8 * Z.of_nat r)).
Proof.
  intros Hr. unfold byte32_of.
  replace ((4 * k + r) / 4)%nat with k by lia.
  replace ((4 * k + r) mod 4)%nat with r by lia. reflexivity.
Qed.

Lemma byte64_of_at (words : list Z) (k r : nat) :
  (r < 8)%nat →
  byte64_of words (8 * k + r) = to_u8 (Z.shiftr (words !!! k) (8 * Z.of_nat r)).
Proof.
  intros Hr. unfold byte64_of.
  replace ((8 * k + r) / 8)%nat with k by lia.
  replace ((8 * k + r) mod 8)%nat with r by lia. reflexivity.
Qed.

Lemma byte32_of_0 (words : list Z) (k : nat) :
  byte32_of words (4 * k)%nat = to_u8 (words !!! k).
Proof.
  replace (4 * k)%nat with (4 * k + 0)%nat by lia.
  rewrite byte32_of_at by lia. reflexivity.
Qed.

Lemma byte32_of_1 (words : list Z) (k : nat) :
  byte32_of words (S (4 * k)%nat) = to_u8 (Z.shiftr (words !!! k) 8).
Proof.
  replace (S (4 * k)%nat) with (4 * k + 1)%nat by lia.
  rewrite byte32_of_at by lia. reflexivity.
Qed.

Lemma byte32_of_2 (words : list Z) (k : nat) :
  byte32_of words (S (S (4 * k)%nat)) = to_u8 (Z.shiftr (words !!! k) 16).
Proof.
  replace (S (S (4 * k)%nat)) with (4 * k + 2)%nat by lia.
  rewrite byte32_of_at by lia. reflexivity.
Qed.

Lemma byte32_of_3 (words : list Z) (k : nat) :
  byte32_of words (S (S (S (4 * k)%nat))) = to_u8 (Z.shiftr (words !!! k) 24).
Proof.
  replace (S (S (S (4 * k)%nat))) with (4 * k + 3)%nat by lia.
  rewrite byte32_of_at by lia. reflexivity.
Qed.

Lemma byte64_of_0 (words : list Z) (k : nat) :
  byte64_of words (8 * k)%nat = to_u8 (words !!! k).
Proof.
  replace (8 * k)%nat with (8 * k + 0)%nat by lia.
  rewrite byte64_of_at by lia. reflexivity.
Qed.

Lemma byte64_of_1 (words : list Z) (k : nat) :
  byte64_of words (S (8 * k)%nat) = to_u8 (Z.shiftr (words !!! k) 8).
Proof.
  replace (S (8 * k)%nat) with (8 * k + 1)%nat by lia.
  rewrite byte64_of_at by lia. reflexivity.
Qed.

Lemma byte64_of_2 (words : list Z) (k : nat) :
  byte64_of words (S (S (8 * k)%nat)) = to_u8 (Z.shiftr (words !!! k) 16).
Proof.
  replace (S (S (8 * k)%nat)) with (8 * k + 2)%nat by lia.
  rewrite byte64_of_at by lia. reflexivity.
Qed.

Lemma byte64_of_3 (words : list Z) (k : nat) :
  byte64_of words (S (S (S (8 * k)%nat))) = to_u8 (Z.shiftr (words !!! k) 24).
Proof.
  replace (S (S (S (8 * k)%nat))) with (8 * k + 3)%nat by lia.
  rewrite byte64_of_at by lia. reflexivity.
Qed.

Lemma byte64_of_4 (words : list Z) (k : nat) :
  byte64_of words (S (S (S (S (8 * k)%nat)))) = to_u8 (Z.shiftr (words !!! k) 32).
Proof.
  replace (S (S (S (S (8 * k)%nat)))) with (8 * k + 4)%nat by lia.
  rewrite byte64_of_at by lia. reflexivity.
Qed.

Lemma byte64_of_5 (words : list Z) (k : nat) :
  byte64_of words (S (S (S (S (S (8 * k)%nat))))) = to_u8 (Z.shiftr (words !!! k) 40).
Proof.
  replace (S (S (S (S (S (8 * k)%nat))))) with (8 * k + 5)%nat by lia.
  rewrite byte64_of_at by lia. reflexivity.
Qed.

Lemma byte64_of_6 (words : list Z) (k : nat) :
  byte64_of words (S (S (S (S (S (S (8 * k)%nat)))))) = to_u8 (Z.shiftr (words !!! k) 48).
Proof.
  replace (S (S (S (S (S (S (8 * k)%nat)))))) with (8 * k + 6)%nat by lia.
  rewrite byte64_of_at by lia. reflexivity.
Qed.

Lemma byte64_of_7 (words : list Z) (k : nat) :
  byte64_of words (S (S (S (S (S (S (S (8 * k)%nat))))))) = to_u8 (Z.shiftr (words !!! k) 56).
Proof.
  replace (S (S (S (S (S (S (S (8 * k)%nat))))))) with (8 * k + 7)%nat by lia.
  rewrite byte64_of_at by lia. reflexivity.
Qed.

Lemma Words32ToBytes_iter (words bytes : list Z) (n k : nat) :
  (k ≤ n)%nat → (4 * n ≤ length bytes)%nat →
  Nat.iter k
    (λ '(i, j, bytes),
       let bytes := <[j := to_u8 (words !!! i)]> bytes in
       let bytes := <[(j + 1)%nat := to_u8 (Z.shiftr (words !!! i) 8)]> bytes in
       let bytes := <[(j + 2)%nat := to_u8 (Z.shiftr (words !!! i) 16)]> bytes in
       let bytes := <[(j + 3)%nat := to_u8 (Z.shiftr (words !!! i) 24)]> bytes in
       (S i, (j + 4)%nat, bytes))
    (0%nat, 0%nat, bytes)
  = (k, (4 * k)%nat, written (byte32_of words) (4 * k) bytes).
Proof.
  intros Hk Hn. induction k as [|k IH]; [reflexivity|].
  rewrite Nat.iter_succ, IH by lia. cbv beta iota zeta.
  replace (4 * S k)%nat with (S (S (S (S (4 * k))))) by lia.
  replace (4 * k + 1)%nat with (S (4 * k)) by lia.
  replace (4 * k + 2)%nat with (S (S (4 * k))) by lia.
  replace (4 * k + 3)%nat with (S (S (S (4 * k)))) by lia.
  replace (4 * k + 4)%nat with (S (S (S (S (4 * k))))) by lia.
  rewrite emit_next; [ | lia | rewrite byte32_of_0; reflexivity ].
  rewrite emit_next; [ | lia | rewrite byte32_of_1; reflexivity ].
  rewrite emit_next; [ | lia | rewrite byte32_of_2; reflexivity ].
  rewrite emit_next; [ | lia | rewrite byte32_of_3; reflexivity ].
  reflexivity.
Qed.

Lemma Words32ToBytes_written (words bytes : list Z) (numwords : nat) :
  (4 * numwords ≤ length bytes)%nat →
  Words32ToBytes words bytes numwords
  = written (byte32_of words) (4 * numwords) bytes.
Proof.
  intros Hn. unfold Words32ToBytes.
  rewrite (for_loop_iter _ _ (λ s, (numwords - s.1.1)%nat)).
  - cbn [fst]. rewrite Nat.sub_0_r.
    rewrite (Words32ToBytes_iter words bytes numwords) by lia. reflexivity.
  - intros [[i j] b]. apply ks_rem_up.
  - intros [[i j] b]. cbn [fst]. lia.
  - cbn [fst]. lia.
Qed.

Lemma Words64ToBytes_iter (words bytes : list Z) (n k : nat) :
  (k ≤ n)%nat → (8 * n ≤ length bytes)%nat →
  Nat.iter k
    (λ '(i, j, bytes),
       let bytes := <[j := to_u8 (words !!! i)]> bytes in
       let bytes := <[(j + 1)%nat := to_u8 (Z.shiftr (words !!! i) 8)]> bytes in
       let bytes := <[(j + 2)%nat := to_u8 (Z.shiftr (words !!! i) 16)]> bytes in
       let bytes := <[(j + 3)%nat := to_u8 (Z.shiftr (words !!! i) 24)]> bytes in
       let bytes := <[(j + 4)%nat := to_u8 (Z.shiftr (words !!! i) 32)]> bytes in
       let bytes := <[(j + 5)%nat := to_u8 (Z.shiftr (words !!! i) 40)]> bytes in
       let bytes := <[(j + 6)%nat := to_u8 (Z.shiftr (words !!! i) 48)]> bytes in
       let bytes := <[(j + 7)%nat := to_u8 (Z.shiftr (words !!! i) 56)]> bytes in
       (S i, (j + 8)%nat, bytes))
    (0%nat, 0%nat, bytes)
  = (k, (8 * k)%nat, written (byte64_of words) (8 * k) bytes).
Proof.
  intros Hk Hn. induction k as [|k IH]; [reflexivity|].
  rewrite Nat.iter_succ, IH by lia. cbv beta iota zeta.
  replace (8 * S k)%nat with (S (S (S (S (S (S (S (S (8 * k))))))))) by lia.
  replace (8 * k + 1)%nat with (S (8 * k)) by lia.
  replace (8 * k + 2)%nat with (S (S (8 * k))) by lia.
  replace (8 * k + 3)%nat with (S (S (S (8 * k)))) by lia.
  replace (8 * k + 4)%nat with (S (S (S (S (8 * k))))) by lia.
  replace (8 * k + 5)%nat with (S (S (S (S (S (8 * k)))))) by lia.
  replace (8 * k + 6)%nat with (S (S (S (S (S (S (8 * k))))))) by lia.
  replace (8 * k + 7)%nat with (S (S (S (S (S (S (S (8 * k)))))))) by lia.
  replace (8 * k + 8)%nat with (S (S (S (S (S (S (S (S (8 * k))))))))) by lia.
  rewrite emit_next; [ | lia | rewrite byte64_of_0; reflexivity ].
  rewrite emit_next; [ | lia | rewrite byte64_of_1; reflexivity ].
  rewrite emit_next; [ | lia | rewrite byte64_of_2; reflexivity ].
  rewrite emit_next; [ | lia | rewrite byte64_of_3; reflexivity ].
  rewrite emit_next; [ | lia | rewrite byte64_of_4; reflexivity ].
  rewrite emit_next; [ | lia | rewrite byte64_of_5; reflexivity ].
  rewrite emit_next; [ | lia | rewrite byte64_of_6; reflexivity ].
  rewrite emit_next; [ | lia | rewrite byte64_of_7; reflexivity ].
  reflexivity.
Qed.

Lemma Words64ToBytes_written (words bytes : list Z) (numwords : nat) :
  (8 * numwords ≤ length bytes)%nat →
  Words64ToBytes words bytes numwords
  = written (byte64_of words) (8 * numwords) bytes.
Proof.
  intros Hn. unfold Words64ToBytes.
  rewrite (for_loop_iter _ _ (λ s, (numwords - s.1.1)%nat)).
  - cbn [fst]. rewrite Nat.sub_0_r.
    rewrite (Words64ToBytes_iter words bytes numwords) by lia. reflexivity.
  - intros [[i j] b]. apply ks_rem_up.
  - intros [[i j] b]. cbn [fst]. lia.
  - cbn [fst]. lia.
Qed.

Lemma written_all (e : nat → Z) (n : nat) (buf : list Z) :
  length buf = n → written e n buf = e <$> seq 0 n.
Proof.
  intros Hn. unfold written. rewrite drop_ge by lia. apply app_nil_r.
Qed.

Lemma byte_lookup (bytes : list Z) (p : nat) :
  Forall (word 8) bytes → word 8 (bytes !!! p).
Proof. apply lookup_total_word. lia. Qed.

(** *** The conversions in numbers *)

Lemma lor_shifted (a b n : Z) :
  0 <= n → 0 <= a < 2 ^ n → Z.lor a (b * 2 ^ n) = a + b * 2 ^ n.
Proof.
  intros Hn Ha.
  assert (Z.land a (b * 2 ^ n) = 0) as H0.
  { apply Z.bits_inj'. intros i Hi. rewrite Z.land_spec, Z.bits_0.
    destruct (Z.lt_ge_cases i n).
    - rewrite Z.mul_pow2_bits_low by lia. apply andb_false_r.
    - rewrite (word_bits_high n a i) by (exact Ha || lia). reflexivity. }
  rewrite <- Z.lxor_lor, <- Z.add_nocarry_lxor by exact H0. reflexivity.
Qed.

(** [lia] with the powers of two of the codec evaluated. *)
Ltac pow_lia :=
  change (2 ^ 8) with 256 in *; change (2 ^ 16) with 65536 in *;
  change (2 ^ 24) with 16777216 in *; change (2 ^ 32) with 4294967296 in *;
  change (2 ^ 40) with 1099511627776 in *;
  change (2 ^ 48) with 281474976710656 in *;
  change (2 ^ 56) with 72057594037927936 in *;
  change (2 ^ 64) with 18446744073709551616 in *; lia.

Lemma word32_at_value (bytes : list Z) (j : nat) :
  Forall (word 8) bytes →
  word32_at bytes j
  = bytes !!! j + 2 ^ 8 * bytes !!! (j + 1)%nat
    + 2 ^ 16 * bytes !!! (j + 2)%nat + 2 ^ 24 * bytes !!! (j + 3)%nat.
Proof.
  intros Hb. unfold word32_at, to_u32.
  pose proof (byte_lookup bytes j Hb) as H0.
  pose proof (byte_lookup bytes (j + 1) Hb) as H1.
  pose proof (byte_lookup bytes (j + 2) Hb) as H2.
  pose proof (byte_lookup bytes (j + 3) Hb) as H3.
  unfold word in *. rewrite !Z.shiftl_mul_pow2 by lia.
  rewrite !Z.mod_small by pow_lia.
  rewrite (lor_shifted (bytes !!! j)) by pow_lia.
  rewrite !(lor_shifted (_ + _)) by pow_lia. lia.
Qed.

Lemma word64_at_value (bytes : list Z) (j : nat) :
  Forall (word 8) bytes →
  word64_at bytes j
  = bytes !!! j + 2 ^ 8 * bytes !!! (j + 1)%nat
    + 2 ^ 16 * bytes !!! (j + 2)%nat + 2 ^ 24 * bytes !!! (j + 3)%nat
    + 2 ^ 32 * bytes !!! (j + 4)%nat + 2 ^ 40 * bytes !!! (j + 5)%nat
    + 2 ^ 48 * bytes !!! (j + 6)%nat + 2 ^ 56 * bytes !!! (j + 7)%nat.
Proof.
  intros Hb. unfold word64_at, to_u64.
  pose proof (byte_lookup bytes j Hb) as H0.
  pose proof (byte_lookup bytes (j + 1) Hb) as H1.
  pose proof (byte_lookup bytes (j + 2) Hb) as H2.
  pose proof (byte_lookup bytes (j + 3) Hb) as H3.
  pose proof (byte_lookup bytes (j + 4) Hb) as H4.
  pose proof (byte_lookup bytes (j + 5) Hb) as H5.
  pose proof (byte_lookup bytes (j + 6) Hb) as H6.
  pose proof (byte_lookup bytes (j + 7) Hb) as H7.
  unfold word in *. rewrite !Z.shiftl_mul_pow2 by lia.
  rewrite !Z.mod_small by pow_lia.
  rewrite (lor_shifted (bytes !!! j)) by pow_lia.
  rewrite !(lor_shifted (_ + _)) by pow_lia. lia.
Qed.

Lemma byte_of_value (x : Z) (k : nat) :
  to_u8 (Z.shiftr x (8 * Z.of_nat k)) = (x / 2 ^ (8 * Z.of_nat k)) mod 2 ^ 8.
Proof. unfold to_u8. rewrite Z.shiftr_div_pow2 by lia. reflexivity. Qed.

(** *** Layout *)

(** X1 ([Words32ToBytes]).  Called with [numwords] words available and
    room for [4 * numwords] bytes, the loop writes exactly the first
    [4 * numwords] bytes and nothing behind them; byte [p] is byte
    [p mod 4] of word [p / 4], least significant byte first. *)
Theorem X1_Words32ToBytes_layout (words bytes : list Z) (numwords p : nat) :
  (numwords ≤ length words)%nat → (4 * numwords ≤ length bytes)%nat →
  length (Words32ToBytes words bytes numwords) = length bytes ∧
  drop (4 * numwords) (Words32ToBytes words bytes numwords)
  = drop (4 * numwords) bytes ∧
  ((p < 4 * numwords)%nat →
   Words32ToBytes words bytes numwords !!! p
   = (words !!! (p / 4)%nat / 2 ^ (8 * Z.of_nat (p mod 4))) mod 2 ^ 8).
Proof.
  intros _ Hb. rewrite Words32ToBytes_written by exact Hb.
  rewrite written_length, written_drop by exact Hb.
  split; [reflexivity|]. split; [reflexivity|]. intros Hp.
  rewrite written_lookup by exact Hp. apply byte_of_value.
Qed.

Lemma X1_Words32ToBytes_layout_witness :
  length (Words32ToBytes [0x04030201; 0x08070605] (replicate 10 0xff) 2)
  = length (replicate 10 0xff) ∧
  drop (4 * 2) (Words32ToBytes [0x04030201; 0x08070605] (replicate 10 0xff) 2)
  = drop (4 * 2) (replicate 10 0xff) ∧
  ((5 < 4 * 2)%nat →
   Words32ToBytes [0x04030201; 0x08070605] (replicate 10 0xff) 2 !!! 5%nat
   = ([0x04030201; 0x08070605] !!! (5 / 4)%nat / 2 ^ (8 * Z.of_nat (5 mod 4)))
       mod 2 ^ 8).
Proof.
  apply (X1_Words32ToBytes_layout [0x04030201; 0x08070605]
           (replicate 10 0xff) 2 5); vm_compute; lia.
Defined.

(** X2 ([Words64ToBytes]).  Called with [numwords] words available and
    room for [8 * numwords] bytes, the loop writes exactly the first
    [8 * numwords] bytes and nothing behind them; byte [p] is byte
    [p mod 8] of word [p / 8], least significant byte first. *)
Theorem X2_Words64ToBytes_layout (words bytes : list Z) (numwords p : nat) :
  (numwords ≤ length words)%nat → (8 * numwords ≤ length bytes)%nat →
  length (Words64ToBytes words bytes numwords) = length bytes ∧
  drop (8 * numwords) (Words64ToBytes words bytes numwords)
  = drop (8 * numwords) bytes ∧
  ((p < 8 * numwords)%nat →
   Words64ToBytes words bytes numwords !!! p
   = (words !!! (p / 8)%nat / 2 ^ (8 * Z.of_nat (p mod 8))) mod 2 ^ 8).
Proof.
  intros _ Hb. rewrite Words64ToBytes_written by exact Hb.
  rewrite written_length, written_drop by exact Hb.
  split; [reflexivity|]. split; [reflexivity|]. intros Hp.
  rewrite written_lookup by exact Hp. apply byte_of_value.
Qed.

Lemma X2_Words64ToBytes_layout_witness :
  length (Words64ToBytes [0x0807060504030201] (replicate 9 0xff) 1)
  = length (replicate 9 0xff) ∧
  drop (8 * 1) (Words64ToBytes [0x0807060504030201] (replicate 9 0xff) 1)
  = drop (8 * 1) (replicate 9 0xff) ∧
  ((6 < 8 * 1)%nat →
   Words64ToBytes [0x0807060504030201] (replicate 9 0xff) 1 !!! 6%nat
   = ([0x0807060504030201] !!! (6 / 8)%nat / 2 ^ (8 * Z.of_nat (6 mod 8)))
       mod 2 ^ 8).
Proof.
  apply (X2_Words64ToBytes_layout [0x0807060504030201]
           (replicate 9 0xff) 1 6); vm_compute; lia.
Defined.

(** X3 ([BytesToWords32]).  On [numbytes] bytes the loop writes exactly
    [numbytes / 4] words, so up to three trailing bytes are not used, and
    nothing behind them; word [i] is the little-endian number of the four
    bytes at [4 * i]. *)
Theorem X3_BytesToWords32_layout (bytes words : list Z) (numbytes i : nat) :
  Forall (word 8) bytes →
  (numbytes ≤ length bytes)%nat → (numbytes / 4 ≤ length words)%nat →
  length (BytesToWords32 bytes words numbytes) = length words ∧
  drop (numbytes / 4) (BytesToWords32 bytes words numbytes)
  = drop (numbytes / 4) words ∧
  ((i < numbytes / 4)%nat →
   BytesToWords32 bytes words numbytes !!! i
   = bytes !!! (4 * i)%nat + 2 ^ 8 * bytes !!! (4 * i + 1)%nat
     + 2 ^ 16 * bytes !!! (4 * i + 2)%nat + 2 ^ 24 * bytes !!! (4 * i + 3)%nat).
Proof.
  intros Hb _ Hw. rewrite BytesToWords32_written by exact Hw.
  rewrite written_length, written_drop by exact Hw.
  split; [reflexivity|]. split; [reflexivity|]. intros Hi.
  rewrite written_lookup by exact Hi. apply word32_at_value, Hb.
Qed.

Lemma X3_BytesToWords32_layout_witness :
  BytesToWords32 [1; 2; 3; 4; 5; 6; 7; 8; 9; 10] [0; 0; 77] 10 !!! 1%nat
  = 5 + 2 ^ 8 * 6 + 2 ^ 16 * 7 + 2 ^ 24 * 8.
Proof.
  refine (proj2 (proj2
            (X3_BytesToWords32_layout [1; 2; 3; 4; 5; 6; 7; 8; 9; 10]
               [0; 0; 77] 10 1 _ _ _)) _);
    [ | vm_compute; lia | vm_compute; lia | vm_compute; lia ].
  repeat (apply Forall_cons_2; [unfold word; lia|]). apply Forall_nil_2.
Defined.

(** X4 ([BytesToWords64]).  On [numbytes] bytes the loop writes exactly
    [numbytes / 8] words, so up to seven trailing bytes are not used, and
    nothing behind them; word [i] is the little-endian number of the eight
    bytes at [8 * i]. *)
Theorem X4_BytesToWords64_layout (bytes words : list Z) (numbytes i : nat) :
  Forall (word 8) bytes →
  (numbytes ≤ length bytes)%nat → (numbytes / 8 ≤ length words)%nat →
  length (BytesToWords64 bytes words numbytes) = length words ∧
  drop (numbytes / 8) (BytesToWords64 bytes words numbytes)
  = drop (numbytes / 8) words ∧
  ((i < numbytes / 8)%nat →
   BytesToWords64 bytes words numbytes !!! i
   = bytes !!! (8 * i)%nat + 2 ^ 8 * bytes !!! (8 * i + 1)%nat
     + 2 ^ 16 * bytes !!! (8 * i + 2)%nat + 2 ^ 24 * bytes !!! (8 * i + 3)%nat
     + 2 ^ 32 * bytes !!! (8 * i + 4)%nat + 2 ^ 40 * bytes !!! (8 * i + 5)%nat
     + 2 ^ 48 * bytes !!! (8 * i + 6)%nat + 2 ^ 56 * bytes !!! (8 * i + 7)%nat).
Proof.
  intros Hb _ Hw. rewrite BytesToWords64_written by exact Hw.
  rewrite written_length, written_drop by exact Hw.
  split; [reflexivity|]. split; [reflexivity|]. intros Hi.
  rewrite written_lookup by exact Hi. apply word64_at_value, Hb.
Qed.

Lemma X4_BytesToWords64_layout_witness :
  BytesToWords64 [1; 2; 3; 4; 5; 6; 7; 8; 9] [0; 77] 9 !!! 0%nat
  = 1 + 2 ^ 8 * 2 + 2 ^ 16 * 3 + 2 ^ 24 * 4
    + 2 ^ 32 * 5 + 2 ^ 40 * 6 + 2 ^ 48 * 7 + 2 ^ 56 * 8.
Proof.
  refine (proj2 (proj2
            (X4_BytesToWords64_layout [1; 2; 3; 4; 5; 6; 7; 8; 9]
               [0; 77] 9 0 _ _ _)) _);
    [ | vm_compute; lia | vm_compute; lia | vm_compute; lia ].
  repeat (apply Forall_cons_2; [unfold word; lia|]). apply Forall_nil_2.
Defined.

(** *** Splitting a word into bytes and back, bit by bit *)

Lemma tb_mod (x n i : Z) :
  0 <= n → Z.testbit (x mod 2 ^ n) i = (i <? n) && Z.testbit x i.
Proof.
  intros Hn. destruct (Z.ltb_spec i n).
  - rewrite Z.mod_pow2_bits_low by lia. reflexivity.
  - rewrite Z.mod_pow2_bits_high by lia. reflexivity.
Qed.

Lemma tb_shl (x n i : Z) :
  0 <= n → Z.testbit (Z.shiftl x n) i = Z.testbit x (i - n).
Proof.
  intros Hn. destruct (Z.lt_ge_cases i 0).
  - rewrite !Z.testbit_neg_r by lia. reflexivity.
  - apply Z.shiftl_spec. lia.
Qed.

Lemma tb_shr (x n i : Z) :
  0 <= n → Z.testbit (Z.shiftr x n) i = (0 <=? i) && Z.testbit x (i + n).
Proof.
  intros Hn. destruct (Z.leb_spec 0 i).
  - rewrite Z.shiftr_spec by lia. reflexivity.
  - rewrite Z.testbit_neg_r by lia. reflexivity.
Qed.

(** Reduce both sides to the bits of the operands. *)
Ltac to_bits :=
  unfold to_u8, to_u32, to_u64;
  repeat first [ rewrite Z.lor_spec | rewrite tb_mod by lia
               | rewrite tb_shl by lia | rewrite tb_shr by lia ].

(** Decide the comparisons once the range of the index is known. *)
Ltac decide_cmp :=
  repeat match goal with
    | |- context [(?a <? ?b)] =>
        first [ rewrite (proj2 (Z.ltb_lt a b)) by lia
              | rewrite (proj2 (Z.ltb_ge a b)) by lia ]
    | |- context [(?a <=? ?b)] =>
        first [ rewrite (proj2 (Z.leb_le a b)) by lia
              | rewrite (proj2 (Z.leb_gt a b)) by lia ]
    end.

(** Bits outside a [w]-bit operand are clear. *)
Ltac clear_bits w :=
  repeat match goal with
    | |- context [Z.testbit ?b ?k] =>
        first [ rewrite (Z.testbit_neg_r b k) by lia
              | rewrite (word_bits_high w b k) by (first [lia | assumption]) ]
    end.

Ltac same_bit :=
  cbn [andb orb]; rewrite ?orb_false_r;
  first [ reflexivity | f_equal; lia ].

Lemma split_combine32 (w : Z) :
  word 32 w →
  Z.lor (Z.lor (Z.lor (to_u32 (to_u8 w))
    (to_u32 (Z.shiftl (to_u8 (Z.shiftr w 8)) 8)))
    (to_u32 (Z.shiftl (to_u8 (Z.shiftr w 16)) 16)))
    (to_u32 (Z.shiftl (to_u8 (Z.shiftr w 24)) 24)) = w.
Proof.
  intros Hw. apply Z.bits_inj'. intros i Hi. to_bits.
  assert (i < 8 ∨ 8 <= i < 16 ∨ 16 <= i < 24 ∨ 24 <= i < 32 ∨ 32 <= i)
    as [H | [H | [H | [H | H]]]] by lia;
    decide_cmp; try same_bit.
  cbn [andb orb]. symmetry. apply (word_bits_high 32); [lia | exact Hw | lia].
Qed.

Lemma combine_split32 (b0 b1 b2 b3 : Z) :
  word 8 b0 → word 8 b1 → word 8 b2 → word 8 b3 →
  let w := Z.lor (Z.lor (Z.lor (to_u32 b0) (to_u32 (Z.shiftl b1 8)))
             (to_u32 (Z.shiftl b2 16))) (to_u32 (Z.shiftl b3 24)) in
  to_u8 w = b0 ∧ to_u8 (Z.shiftr w 8) = b1 ∧
  to_u8 (Z.shiftr w 16) = b2 ∧ to_u8 (Z.shiftr w 24) = b3.
Proof.
  intros H0 H1 H2 H3 w. subst w.
  repeat split; apply Z.bits_inj'; intros i Hi; to_bits;
    (assert (i < 8 ∨ 8 <= i) as [H | H] by lia);
    decide_cmp; cbn [andb orb]; clear_bits 8;
    rewrite ?orb_false_r; cbn [andb orb];
    first [reflexivity | f_equal; lia].
Qed.

Lemma split_combine64 (w : Z) :
  word 64 w →
  Z.lor (Z.lor (Z.lor (Z.lor (Z.lor (Z.lor (Z.lor
    (to_u64 (to_u8 w))
    (to_u64 (Z.shiftl (to_u8 (Z.shiftr w 8)) 8)))
    (to_u64 (Z.shiftl (to_u8 (Z.shiftr w 16)) 16)))
    (to_u64 (Z.shiftl (to_u8 (Z.shiftr w 24)) 24)))
    (to_u64 (Z.shiftl (to_u8 (Z.shiftr w 32)) 32)))
    (to_u64 (Z.shiftl (to_u8 (Z.shiftr w 40)) 40)))
    (to_u64 (Z.shiftl (to_u8 (Z.shiftr w 48)) 48)))
    (to_u64 (Z.shiftl (to_u8 (Z.shiftr w 56)) 56)) = w.
Proof.
  intros Hw. apply Z.bits_inj'. intros i Hi. to_bits.
  assert (i < 8 ∨ 8 <= i < 16 ∨ 16 <= i < 24 ∨ 24 <= i < 32 ∨
          32 <= i < 40 ∨ 40 <= i < 48 ∨ 48 <= i < 56 ∨ 56 <= i < 64 ∨ 64 <= i)
    as [H | [H | [H | [H | [H | [H | [H | [H | H]]]]]]]] by lia;
    decide_cmp; try same_bit.
  cbn [andb orb]. symmetry. apply (word_bits_high 64); [lia | exact Hw | lia].
Qed.

Lemma combine_split64 (b0 b1 b2 b3 b4 b5 b6 b7 : Z) :
  word 8 b0 → word 8 b1 → word 8 b2 → word 8 b3 →
  word 8 b4 → word 8 b5 → word 8 b6 → word 8 b7 →
  let w := Z.lor (Z.lor (Z.lor (Z.lor (Z.lor (Z.lor (Z.lor
             (to_u64 b0) (to_u64 (Z.shiftl b1 8))) (to_u64 (Z.shiftl b2 16)))
             (to_u64 (Z.shiftl b3 24))) (to_u64 (Z.shiftl b4 32)))
             (to_u64 (Z.shiftl b5 40))) (to_u64 (Z.shiftl b6 48)))
             (to_u64 (Z.shiftl b7 56)) in
  to_u8 w = b0 ∧ to_u8 (Z.shiftr w 8) = b1 ∧
  to_u8 (Z.shiftr w 16) = b2 ∧ to_u8 (Z.shiftr w 24) = b3 ∧
  to_u8 (Z.shiftr w 32) = b4 ∧ to_u8 (Z.shiftr w 40) = b5 ∧
  to_u8 (Z.shiftr w 48) = b6 ∧ to_u8 (Z.shiftr w 56) = b7.
Proof.
  intros H0 H1 H2 H3 H4 H5 H6 H7 w. subst w.
  repeat split; apply Z.bits_inj'; intros i Hi; to_bits;
    (assert (i < 8 ∨ 8 <= i) as [H | H] by lia);
    decide_cmp; cbn [andb orb]; clear_bits 8;
    rewrite ?orb_false_r; cbn [andb orb];
    first [reflexivity | f_equal; lia].
Qed.

(** *** The conversions undo each other *)

(** X5.  Bytes to 32-bit words and back: [4 * n] bytes, converted by
    [BytesToWords32] and then by [Words32ToBytes], come back unchanged. *)
Theorem X5_bytes_words_bytes32 (bytes words out : list Z) (n : nat) :
  length bytes = (4 * n)%nat → Forall (word 8) bytes →
  (n ≤ length words)%nat → length out = (4 * n)%nat →
  Words32ToBytes (BytesToWords32 bytes words (4 * n)) out n = bytes.
Proof.
  intros Hb Hw Hn Ho.
  assert ((4 * n) / 4 = n)%nat as Hq by lia.
  rewrite BytesToWords32_written, Words32ToBytes_written, Hq by lia.
  rewrite written_all by exact Ho.
  apply fmap_seq_lookups; [exact Hb|]. intros p Hp.
  unfold byte32_of. rewrite written_lookup by lia. unfold word32_at.
  destruct (combine_split32 (bytes !!! (4 * (p / 4))%nat)
              (bytes !!! (4 * (p / 4) + 1)%nat)
              (bytes !!! (4 * (p / 4) + 2)%nat)
              (bytes !!! (4 * (p / 4) + 3)%nat))
    as (E0 & E1 & E2 & E3); try (apply byte_lookup, Hw).
  assert (p mod 4 = 0 ∨ p mod 4 = 1 ∨ p mod 4 = 2 ∨ p mod 4 = 3)%nat
    as [R | [R | [R | R]]] by lia; rewrite R.
  - etransitivity; [exact E0|]. f_equal. lia.
  - etransitivity; [exact E1|]. f_equal. lia.
  - etransitivity; [exact E2|]. f_equal. lia.
  - etransitivity; [exact E3|]. f_equal. lia.
Qed.

Lemma X5_bytes_words_bytes32_witness :
  Words32ToBytes (BytesToWords32 [1; 2; 3; 4; 5; 6; 7; 8] [0; 0] (4 * 2))
    (replicate 8 0) 2
  = [1; 2; 3; 4; 5; 6; 7; 8].
Proof.
  apply (X5_bytes_words_bytes32 [1; 2; 3; 4; 5; 6; 7; 8] [0; 0]
           (replicate 8 0) 2);
    [ reflexivity | | vm_compute; lia | reflexivity ].
  repeat (apply Forall_cons_2; [unfold word; lia|]). apply Forall_nil_2.
Defined.

(** X6.  32-bit words to bytes and back: [n] words, converted by
    [Words32ToBytes] and then by [BytesToWords32], come back unchanged. *)
Theorem X6_words_bytes_words32 (words bytes out : list Z) (n : nat) :
  length words = n → Forall (word 32) words →
  (4 * n ≤ length bytes)%nat → length out = n →
  BytesToWords32 (Words32ToBytes words bytes n) out (4 * n) = words.
Proof.
  intros Hl Hw Hb Ho.
  assert ((4 * n) / 4 = n)%nat as Hq by lia.
  rewrite Words32ToBytes_written, BytesToWords32_written, Hq by lia.
  rewrite written_all by exact Ho.
  apply fmap_seq_lookups; [exact Hl|]. intros i Hi.
  unfold word32_at. rewrite !written_lookup by lia.
  rewrite byte32_of_0, (byte32_of_at _ i 1), (byte32_of_at _ i 2),
    (byte32_of_at _ i 3) by lia.
  apply split_combine32, lookup_total_word; [lia | exact Hw].
Qed.

Lemma X6_words_bytes_words32_witness :
  BytesToWords32
    (Words32ToBytes [0x6f722067; 0x5ca2e27f] (replicate 8 0) 2) [0; 0] (4 * 2)
  = [0x6f722067; 0x5ca2e27f].
Proof.
  apply (X6_words_bytes_words32 [0x6f722067; 0x5ca2e27f] (replicate 8 0)
           [0; 0] 2);
    [ reflexivity | | vm_compute; lia | reflexivity ].
  repeat (apply Forall_cons_2; [unfold word; lia|]). apply Forall_nil_2.
Defined.

(** X7.  Bytes to 64-bit words and back: [8 * n] bytes, converted by
    [BytesToWords64] and then by [Words64ToBytes], come back unchanged. *)
Theorem X7_bytes_words_bytes64 (bytes words out : list Z) (n : nat) :
  length bytes = (8 * n)%nat → Forall (word 8) bytes →
  (n ≤ length words)%nat → length out = (8 * n)%nat →
  Words64ToBytes (BytesToWords64 bytes words (8 * n)) out n = bytes.
Proof.
  intros Hb Hw Hn Ho.
  assert ((8 * n) / 8 = n)%nat as Hq by lia.
  rewrite BytesToWords64_written, Words64ToBytes_written, Hq by lia.
  rewrite written_all by exact Ho.
  apply fmap_seq_lookups; [exact Hb|]. intros p Hp.
  unfold byte64_of. rewrite written_lookup by lia. unfold word64_at.
  destruct (combine_split64 (bytes !!! (8 * (p / 8))%nat)
              (bytes !!! (8 * (p / 8) + 1)%nat)
              (bytes !!! (8 * (p / 8) + 2)%nat)
              (bytes !!! (8 * (p / 8) + 3)%nat)
              (bytes !!! (8 * (p / 8) + 4)%nat)
              (bytes !!! (8 * (p / 8) + 5)%nat)
              (bytes !!! (8 * (p / 8) + 6)%nat)
              (bytes !!! (8 * (p / 8) + 7)%nat))
    as (E0 & E1 & E2 & E3 & E4 & E5 & E6 & E7); try (apply byte_lookup, Hw).
  assert (p mod 8 = 0 ∨ p mod 8 = 1 ∨ p mod 8 = 2 ∨ p mod 8 = 3 ∨
          p mod 8 = 4 ∨ p mod 8 = 5 ∨ p mod 8 = 6 ∨ p mod 8 = 7)%nat
    as [R | [R | [R | [R | [R | [R | [R | R]]]]]]] by lia; rewrite R.
  - etransitivity; [exact E0|]. f_equal. lia.
  - etransitivity; [exact E1|]. f_equal. lia.
  - etransitivity; [exact E2|]. f_equal. lia.
  - etransitivity; [exact E3|]. f_equal. lia.
  - etransitivity; [exact E4|]. f_equal. lia.
  - etransitivity; [exact E5|]. f_equal. lia.
  - etransitivity; [exact E6|]. f_equal. lia.
  - etransitivity; [exact E7|]. f_equal. lia.
Qed.

Lemma X7_bytes_words_bytes64_witness :
  Words64ToBytes (BytesToWords64 [1; 2; 3; 4; 5; 6; 7; 8] [0] (8 * 1))
    (replicate 8 0) 1
  = [1; 2; 3; 4; 5; 6; 7; 8].
Proof.
  apply (X7_bytes_words_bytes64 [1; 2; 3; 4; 5; 6; 7; 8] [0]
           (replicate 8 0) 1);
    [ reflexivity | | vm_compute; lia | reflexivity ].
  repeat (apply Forall_cons_2; [unfold word; lia|]). apply Forall_nil_2.
Defined.

(** X8.  64-bit words to bytes and back: [n] words, converted by
    [Words64ToBytes] and then by [BytesToWords64], come back unchanged. *)
Theorem X8_words_bytes_words64 (words bytes out : list Z) (n : nat) :
  length words = n → Forall (word 64) words →
  (8 * n ≤ length bytes)%nat → length out = n →
  BytesToWords64 (Words64ToBytes words bytes n) out (8 * n) = words.
Proof.
  intros Hl Hw Hb Ho.
  assert ((8 * n) / 8 = n)%nat as Hq by lia.
  rewrite Words64ToBytes_written, BytesToWords64_written, Hq by lia.
  rewrite written_all by exact Ho.
  apply fmap_seq_lookups; [exact Hl|]. intros i Hi.
  unfold word64_at. rewrite !written_lookup by lia.
  rewrite byte64_of_0, (byte64_of_at _ i 1), (byte64_of_at _ i 2),
    (byte64_of_at _ i 3), (byte64_of_at _ i 4), (byte64_of_at _ i 5),
    (byte64_of_at _ i 6), (byte64_of_at _ i 7) by lia.
  apply split_combine64, lookup_total_word; [lia | exact Hw].
Qed.

Lemma X8_words_bytes_words64_witness :
  BytesToWords64
    (Words64ToBytes [0x6373656420737265; 0x6c6c657661727420] (replicate 16 0) 2)
    [0; 0] (8 * 2)
  = [0x6373656420737265; 0x6c6c657661727420].
Proof.
  apply (X8_words_bytes_words64 [0x6373656420737265; 0x6c6c657661727420]
           (replicate 16 0) [0; 0] 2);
    [ reflexivity | | vm_compute; lia | reflexivity ].
  repeat (apply Forall_cons_2; [unfold word; lia|]). apply Forall_nil_2.
Defined.

(** ** functions.h and simon.c: array bounds of the conversion loops *)

(** X9.  With every array access checked, [Words32ToBytes] stays inside
    its two arrays exactly when [words] holds [numwords] words and [bytes]
    has room for [4 * numwords] bytes; it then computes what the unchecked
    loop computes. *)
Theorem X9_Words32ToBytes_bounds (words bytes : list Z) (numwords : nat) :
  Words32ToBytes_checked words bytes numwords
  = if decide (numwords ≤ length words ∧ 4 * numwords ≤ length bytes)%nat
    then Some (Words32ToBytes words bytes numwords)
    else None.
Proof. apply Words32ToBytes_checked_bounds. Qed.

(** X10.  With every array access checked, [Words64ToBytes] stays inside
    its two arrays exactly when [words] holds [numwords] words and [bytes]
    has room for [8 * numwords] bytes; it then computes what the unchecked
    loop computes. *)
Theorem X10_Words64ToBytes_bounds (words bytes : list Z) (numwords : nat) :
  Words64ToBytes_checked words bytes numwords
  = if decide (numwords ≤ length words ∧ 8 * numwords ≤ length bytes)%nat
    then Some (Words64ToBytes words bytes numwords)
    else None.
Proof. apply Words64ToBytes_checked_bounds. Qed.

(** X11.  With every array access checked, [BytesToWords32] stays inside
    its two arrays exactly when [bytes] holds the [4 * (numbytes / 4)]
    bytes it reads and [words] has room for [numbytes / 4] words; it then
    computes what the unchecked loop computes. *)
Theorem X11_BytesToWords32_bounds (bytes words : list Z) (numbytes : nat) :
  BytesToWords32_checked bytes words numbytes
  = if decide (4 * (numbytes / 4) ≤ length bytes
               ∧ numbytes / 4 ≤ length words)%nat
    then Some (BytesToWords32 bytes words numbytes)
    else None.
Proof. apply BytesToWords32_checked_bounds. Qed.

(** X12.  With every array access checked, [BytesToWords64] stays inside
    its two arrays exactly when [bytes] holds the [8 * (numbytes / 8)]
    bytes it reads and [words] has room for [numbytes / 8] words; it then
    computes what the unchecked loop computes. *)
Theorem X12_BytesToWords64_bounds (bytes words : list Z) (numbytes : nat) :
  BytesToWords64_checked bytes words numbytes
  = if decide (8 * (numbytes / 8) ≤ length bytes
               ∧ numbytes / 8 ≤ length words)%nat
    then Some (BytesToWords64 bytes words numbytes)
    else None.
Proof. apply BytesToWords64_checked_bounds. Qed.

(** X13.  Step 2 of [dpi_c_run_simon] converts an array of [sz/8] bytes
    into an array of [sz/32] or [sz/64] words, with [sz/8] as the byte
    count ([sz] is [sz_txt] or [sz_key]).  For every size these
    conversions stay inside both arrays. *)
Theorem X13_step2_stays_inside (bytes words : list Z) (sz : nat) :
  length bytes = (sz / 8)%nat →
  (length words = (sz / 32)%nat →
   BytesToWords32_checked bytes words (sz / 8)
   = Some (BytesToWords32 bytes words (sz / 8))) ∧
  (length words = (sz / 64)%nat →
   BytesToWords64_checked bytes words (sz / 8)
   = Some (BytesToWords64 bytes words (sz / 8))).
Proof.
  intros Hb. split; intros Hw.
  - rewrite BytesToWords32_checked_bounds. apply decide_True. lia.
  - rewrite BytesToWords64_checked_bounds. apply decide_True. lia.
Qed.

Lemma X13_step2_stays_inside_witness :
  (length [0; 0; 0] = (96 / 32)%nat →
   BytesToWords32_checked [1; 2; 3; 4; 5; 6; 7; 8; 9; 10; 11; 12] [0; 0; 0]
     (96 / 8)
   = Some (BytesToWords32 [1; 2; 3; 4; 5; 6; 7; 8; 9; 10; 11; 12] [0; 0; 0]
             (96 / 8))) ∧
  (length [0; 0; 0] = (96 / 64)%nat →
   BytesToWords64_checked [1; 2; 3; 4; 5; 6; 7; 8; 9; 10; 11; 12] [0; 0; 0]
     (96 / 8)
   = Some (BytesToWords64 [1; 2; 3; 4; 5; 6; 7; 8; 9; 10; 11; 12] [0; 0; 0]
             (96 / 8))).
Proof.
  apply (X13_step2_stays_inside [1; 2; 3; 4; 5; 6; 7; 8; 9; 10; 11; 12]
           [0; 0; 0] 96).
  reflexivity.
Defined.

(** X14.  Step 4 of [dpi_c_run_simon] passes [sz_txt/8], the size in
    bytes of [txto_u8], as the word count of [Words32ToBytes] and
    [Words64ToBytes].  For every text of at least one byte the loop then
    leaves the byte array, whatever the arrays hold: the checked
    conversion fails. *)
Theorem X14_step4_leaves_the_arrays (words bytes : list Z) (sz_txt : nat) :
  length bytes = (sz_txt / 8)%nat → (8 ≤ sz_txt)%nat →
  Words32ToBytes_checked words bytes (sz_txt / 8) = None ∧
  Words64ToBytes_checked words bytes (sz_txt / 8) = None.
Proof.
  intros Hb Hsz.
  rewrite Words32ToBytes_checked_bounds, Words64ToBytes_checked_bounds.
  rewrite !decide_False by lia. split; reflexivity.
Qed.

Lemma X14_step4_leaves_the_arrays_witness :
  Words32ToBytes_checked [1; 2] (replicate 8 0) (64 / 8) = None ∧
  Words64ToBytes_checked [1; 2] (replicate 8 0) (64 / 8) = None.
Proof.
  apply (X14_step4_leaves_the_arrays [1; 2] (replicate 8 0) 64);
    [reflexivity | lia].
Defined.

(** ** simon64.h, simon128.h: the block transforms *)

Lemma Rx2_inverse_r (w k1 k2 : Z) (a : list Z) :
  length a = 2%nat → Rx2 w 1 0 k1 k2 (Rx2 w 0 1 k2 k1 a) = a.
Proof.
  destruct a as [|a0 [|a1 [|]]]; simpl; intros Ha; try discriminate.
  rewrite Rx2_01, Rx2_10, !lxor_cancel_2. reflexivity.
Qed.

Lemma enc_dec_rounds (w : Z) (n : nat) (rk a : list Z) :
  length a = 2%nat → enc_rounds w n rk (dec_rounds w n rk a) = a.
Proof.
  revert a. induction n as [|n IH]; intros a Ha; [reflexivity|].
  simpl. rewrite IH by (rewrite Rx2_length; exact Ha).
  apply Rx2_inverse_r, Ha.
Qed.

Lemma half_round_inv_length (k : Z) (a : list Z) :
  length (half_round_inv k a) = 2%nat.
Proof. reflexivity. Qed.

Lemma half_round_inverse_r (k : Z) (a : list Z) :
  length a = 2%nat → half_round k (half_round_inv k a) = a.
Proof.
  destruct a as [|l [|r [|]]]; simpl; intros; try discriminate.
  unfold half_round_inv, half_round. cbn. rewrite lxor_cancel_2. reflexivity.
Qed.

(** X15.  For each variant and every schedule, encryption undoes
    decryption: encrypting, with the same round keys, the block that
    decryption produced from [C] gives back [C]. *)
Theorem X15_Encrypt_Decrypt (v : variant) (C Pt Ct rk : list Z) :
  length C = 2%nat → length Pt = 2%nat → length Ct = 2%nat →
  Encrypt v (Decrypt v Pt C rk) Ct rk = C.
Proof.
  intros HC HPt HCt.
  assert (HC2 : [C !!! 0%nat; C !!! 1%nat] = C) by (symmetry; apply two_words, HC).
  destruct v; cbn [Decrypt Encrypt].
  - rewrite Simon6496Encrypt_rounds, Simon6496Decrypt_rounds by assumption.
    rewrite <- two_words by (rewrite dec_rounds_length; reflexivity).
    rewrite enc_dec_rounds by reflexivity. exact HC2.
  - rewrite Simon64128Encrypt_rounds, Simon64128Decrypt_rounds by assumption.
    rewrite <- two_words by (rewrite dec_rounds_length; reflexivity).
    rewrite enc_dec_rounds by reflexivity. exact HC2.
  - rewrite Simon128128Encrypt_rounds, Simon128128Decrypt_rounds by assumption.
    rewrite <- two_words by (rewrite dec_rounds_length; reflexivity).
    rewrite enc_dec_rounds by reflexivity. exact HC2.
  - rewrite Simon128192Encrypt_rounds, Simon128192Decrypt_rounds by assumption.
    rewrite <- two_words by (rewrite dec_rounds_length; apply half_round_inv_length).
    rewrite enc_dec_rounds by apply half_round_inv_length.
    rewrite half_round_inverse_r by reflexivity. exact HC2.
  - rewrite Simon128256Encrypt_rounds, Simon128256Decrypt_rounds by assumption.
    rewrite <- two_words by (rewrite dec_rounds_length; reflexivity).
    rewrite enc_dec_rounds by reflexivity. exact HC2.
Qed.

Lemma X15_Encrypt_Decrypt_witness :
  Encrypt Simon128_192 (Decrypt Simon128_192 [0; 0] [1; 2] (replicate 69 7))
    [0; 0] (replicate 69 7)
  = [1; 2].
Proof.
  exact (X15_Encrypt_Decrypt Simon128_192 [1; 2] [0; 0] [0; 0]
           (replicate 69 7) eq_refl eq_refl eq_refl).
Defined.

(** *** What the block transforms read *)

Lemma enc_rounds_ext (w : Z) (n : nat) (rk rk' a : list Z) :
  (∀ j, (j < 2 * n)%nat → rk !!! j = rk' !!! j) →
  enc_rounds w n rk a = enc_rounds w n rk' a.
Proof.
  induction n as [|n IH]; intros H; [reflexivity|].
  cbn [enc_rounds]. rewrite IH by (intros j Hj; apply H; lia).
  rewrite (H (2 * n)%nat), (H (2 * n + 1)%nat) by lia. reflexivity.
Qed.

Lemma dec_rounds_ext (w : Z) (n : nat) (rk rk' a : list Z) :
  (∀ j, (j < 2 * n)%nat → rk !!! j = rk' !!! j) →
  dec_rounds w n rk a = dec_rounds w n rk' a.
Proof.
  revert a. induction n as [|n IH]; intros a H; [reflexivity|].
  cbn [dec_rounds]. rewrite (H (2 * n)%nat), (H (2 * n + 1)%nat) by lia.
  apply IH. intros j Hj. apply H. lia.
Qed.

Lemma take_lookups (n : nat) (rk rk' : list Z) (j : nat) :
  take n rk = take n rk' → (j < n)%nat → rk !!! j = rk' !!! j.
Proof.
  intros Ht Hj.
  rewrite <- (lookup_total_take_lt rk n j), <- (lookup_total_take_lt rk' n j)
    by exact Hj.
  rewrite Ht. reflexivity.
Qed.

Ltac unfold_rounds H :=
  unfold N_ROUNDS__64_96, N_ROUNDS__64_128, N_ROUNDS__128_128,
    N_ROUNDS__128_192, N_ROUNDS__128_256 in H.

Lemma Encrypt_reads (v : variant) (P Ct Ct' rk rk' : list Z) :
  length Ct = 2%nat → length Ct' = 2%nat →
  take (rounds v) rk = take (rounds v) rk' →
  Encrypt v P Ct rk = Encrypt v P Ct' rk'.
Proof.
  intros HCt HCt' Ht.
  pose proof (λ j, take_lookups (rounds v) rk rk' j Ht) as H.
  destruct v; cbn [Encrypt rounds] in *; unfold_rounds H.
  - rewrite !Simon6496Encrypt_rounds by assumption.
    apply enc_rounds_ext. intros j Hj. apply H. lia.
  - rewrite !Simon64128Encrypt_rounds by assumption.
    apply enc_rounds_ext. intros j Hj. apply H. lia.
  - rewrite !Simon128128Encrypt_rounds by assumption.
    apply enc_rounds_ext. intros j Hj. apply H. lia.
  - rewrite !Simon128192Encrypt_rounds by assumption.
    rewrite (H 68%nat) by lia. f_equal.
    apply enc_rounds_ext. intros j Hj. apply H. lia.
  - rewrite !Simon128256Encrypt_rounds by assumption.
    apply enc_rounds_ext. intros j Hj. apply H. lia.
Qed.

Lemma Decrypt_reads (v : variant) (C Pt Pt' rk rk' : list Z) :
  length Pt = 2%nat → length Pt' = 2%nat →
  take (rounds v) rk = take (rounds v) rk' →
  Decrypt v Pt C rk = Decrypt v Pt' C rk'.
Proof.
  intros HPt HPt' Ht.
  pose proof (λ j, take_lookups (rounds v) rk rk' j Ht) as H.
  destruct v; cbn [Decrypt rounds] in *; unfold_rounds H.
  - rewrite !Simon6496Decrypt_rounds by assumption.
    apply dec_rounds_ext. intros j Hj. apply H. lia.
  - rewrite !Simon64128Decrypt_rounds by assumption.
    apply dec_rounds_ext. intros j Hj. apply H. lia.
  - rewrite !Simon128128Decrypt_rounds by assumption.
    apply dec_rounds_ext. intros j Hj. apply H. lia.
  - rewrite !Simon128192Decrypt_rounds by assumption.
    rewrite (H 68%nat) by lia.
    apply dec_rounds_ext. intros j Hj. apply H. lia.
  - rewrite !Simon128256Decrypt_rounds by assumption.
    apply dec_rounds_ext. intros j Hj. apply H. lia.
Qed.

(** X16.  A block transform reads the input block and the first
    [rounds v] round keys, nothing else: what its output buffer held and
    what lies in [rk] behind the schedule do not influence the result. *)
Theorem X16_transforms_read (v : variant) (B O O' rk rk' : list Z) :
  length O = 2%nat → length O' = 2%nat →
  take (rounds v) rk = take (rounds v) rk' →
  Encrypt v B O rk = Encrypt v B O' rk' ∧
  Decrypt v O B rk = Decrypt v O' B rk'.
Proof.
  intros HO HO' Hrk. split.
  - apply Encrypt_reads; assumption.
  - apply Decrypt_reads; assumption.
Qed.

Lemma X16_transforms_read_witness :
  Encrypt Simon64_96 [1; 2] [0; 0] (replicate 42 7)
  = Encrypt Simon64_96 [1; 2] [5; 6] (replicate 42 7 ++ [9]) ∧
  Decrypt Simon64_96 [0; 0] [1; 2] (replicate 42 7)
  = Decrypt Simon64_96 [5; 6] [1; 2] (replicate 42 7 ++ [9]).
Proof.
  exact (X16_transforms_read Simon64_96 [1; 2] [0; 0] [5; 6]
           (replicate 42 7) (replicate 42 7 ++ [9]) eq_refl eq_refl eq_refl).
Defined.

(** X17.  Key expansion followed by a block transform is a function of
    the key and the block: the arrays [rk] and [txto], which
    [dpi_c_run_simon] declares without initialiser, do not leak into the
    result. *)
Theorem X17_result_ignores_buffers (v : variant)
    (B K O O' rk rk' : list Z) :
  length O = 2%nat → length O' = 2%nat →
  (rounds v ≤ length rk)%nat → (rounds v ≤ length rk')%nat →
  Encrypt v B O (KeySchedule v K rk) = Encrypt v B O' (KeySchedule v K rk') ∧
  Decrypt v O B (KeySchedule v K rk) = Decrypt v O' B (KeySchedule v K rk').
Proof.
  intros HO HO' Hrk Hrk'.
  assert (take (rounds v) (KeySchedule v K rk)
          = take (rounds v) (KeySchedule v K rk')) as Ht
    by (rewrite !KeySchedule_written, !written_take by assumption; reflexivity).
  split.
  - apply Encrypt_reads; assumption.
  - apply Decrypt_reads; assumption.
Qed.

Lemma X17_result_ignores_buffers_witness :
  Encrypt Simon64_128 [1; 2] [0; 0]
    (KeySchedule Simon64_128 [1; 2; 3; 4] (replicate 44 0))
  = Encrypt Simon64_128 [1; 2] [5; 6]
      (KeySchedule Simon64_128 [1; 2; 3; 4] (replicate 50 9)) ∧
  Decrypt Simon64_128 [0; 0] [1; 2]
    (KeySchedule Simon64_128 [1; 2; 3; 4] (replicate 44 0))
  = Decrypt Simon64_128 [5; 6] [1; 2]
      (KeySchedule Simon64_128 [1; 2; 3; 4] (replicate 50 9)).
Proof.
  apply (X17_result_ignores_buffers Simon64_128 [1; 2] [1; 2; 3; 4]
           [0; 0] [5; 6] (replicate 44 0) (replicate 50 9));
    [ reflexivity | reflexivity | vm_compute; lia | vm_compute; lia ].
Defined.

(** *** The double round is two single rounds *)

Lemma Rx2_feistel (w k1 k2 : Z) (a : list Z) :
  length a = 2%nat → Rx2 w 1 0 k1 k2 a = feistel w k2 (feistel w k1 a).
Proof.
  destruct a as [|a0 [|a1 [|]]]; simpl; intros Ha; try discriminate.
  rewrite Rx2_10. reflexivity.
Qed.

Lemma Rx2_feistel_inv (w k1 k2 : Z) (a : list Z) :
  length a = 2%nat → Rx2 w 0 1 k1 k2 a = feistel_inv w k2 (feistel_inv w k1 a).
Proof.
  destruct a as [|a0 [|a1 [|]]]; simpl; intros Ha; try discriminate.
  rewrite Rx2_01. reflexivity.
Qed.

Lemma enc_rounds_feistel (w : Z) (n : nat) (rk a : list Z) :
  length a = 2%nat → enc_rounds w n rk a = feistel_rounds w (2 * n) rk a.
Proof.
  intros Ha. induction n as [|n IH]; [reflexivity|].
  replace (2 * S n)%nat with (S (S (2 * n))) by lia.
  cbn [enc_rounds feistel_rounds].
  rewrite Rx2_feistel by (rewrite enc_rounds_length; exact Ha).
  rewrite IH. replace (2 * n + 1)%nat with (S (2 * n)) by lia. reflexivity.
Qed.

Lemma dec_rounds_feistel (w : Z) (n : nat) (rk a : list Z) :
  length a = 2%nat → dec_rounds w n rk a = feistel_rounds_inv w (2 * n) rk a.
Proof.
  revert a. induction n as [|n IH]; intros a Ha; [reflexivity|].
  replace (2 * S n)%nat with (S (S (2 * n))) by lia.
  cbn [dec_rounds feistel_rounds_inv].
  rewrite Rx2_feistel_inv by exact Ha.
  replace (2 * n + 1)%nat with (S (2 * n)) by lia.
  apply IH. reflexivity.
Qed.

(** X18.  Behind the double-round macros, every variant is a plain
    iteration of one round, [(x, y) -> (y ^ f(x) ^ k, x)]: encryption
    applies exactly [rounds v] rounds with the keys [rk[0]], [rk[1]], ...
    in this order, decryption the inverse rounds with the keys in the
    opposite order. *)
Theorem X18_single_rounds (v : variant) (B O rk : list Z) :
  length O = 2%nat →
  Encrypt v B O rk
  = feistel_rounds (word_bits v) (rounds v) rk [B !!! 0%nat; B !!! 1%nat] ∧
  Decrypt v O B rk
  = feistel_rounds_inv (word_bits v) (rounds v) rk [B !!! 0%nat; B !!! 1%nat].
Proof.
  intros HO. destruct v; cbn [Encrypt Decrypt word_bits rounds]; split.
  - rewrite Simon6496Encrypt_rounds by exact HO. apply enc_rounds_feistel. reflexivity.
  - rewrite Simon6496Decrypt_rounds by exact HO. apply dec_rounds_feistel. reflexivity.
  - rewrite Simon64128Encrypt_rounds by exact HO. apply enc_rounds_feistel. reflexivity.
  - rewrite Simon64128Decrypt_rounds by exact HO. apply dec_rounds_feistel. reflexivity.
  - rewrite Simon128128Encrypt_rounds by exact HO. apply enc_rounds_feistel. reflexivity.
  - rewrite Simon128128Decrypt_rounds by exact HO. apply dec_rounds_feistel. reflexivity.
  - rewrite Simon128192Encrypt_rounds by exact HO.
    rewrite enc_rounds_feistel by reflexivity. reflexivity.
  - rewrite Simon128192Decrypt_rounds by exact HO.
    rewrite dec_rounds_feistel by reflexivity. reflexivity.
  - rewrite Simon128256Encrypt_rounds by exact HO. apply enc_rounds_feistel. reflexivity.
  - rewrite Simon128256Decrypt_rounds by exact HO. apply dec_rounds_feistel. reflexivity.
Qed.

Lemma X18_single_rounds_witness :
  Encrypt Simon128_192 [1; 2] [0; 0] (replicate 69 7)
  = feistel_rounds (word_bits Simon128_192) (rounds Simon128_192)
      (replicate 69 7) [[1; 2] !!! 0%nat; [1; 2] !!! 1%nat] ∧
  Decrypt Simon128_192 [0; 0] [1; 2] (replicate 69 7)
  = feistel_rounds_inv (word_bits Simon128_192) (rounds Simon128_192)
      (replicate 69 7) [[1; 2] !!! 0%nat; [1; 2] !!! 1%nat].
Proof.
  exact (X18_single_rounds Simon128_192 [1; 2] [0; 0] (replicate 69 7) eq_refl).
Defined.

(** ** simon64.h, simon128.h: the key schedules *)

Lemma round_bit_periodic (v : variant) (j : nat) :
  (j + key_words v < rounds v)%nat →
  round_bit v (const_seq v) j = seq_bit (const_seq v) (j mod 62).
Proof.
  intros Hj.
  assert (forallb (λ j, round_bit v (const_seq v) j
                        =? seq_bit (const_seq v) (j mod 62))
            (seq 0 (rounds v - key_words v)) = true) as H
    by (destruct v; vm_compute; reflexivity).
  rewrite forallb_forall in H. apply Z.eqb_eq, H, in_seq. lia.
Qed.

(** X19.  All five key schedules follow one recurrence over their whole
    length: entry [j + m] is the variant's update of the [m] entries
    before it, with bit [j mod 62] of the variant's constant.  The
    sequences have period 62, and the literal bits of the sub-rounds after
    the loops of [simon128.h] are the bits the period gives. *)
Theorem X19_schedule_recurrence (v : variant) (K rk : list Z) (j : nat) :
  (rounds v ≤ length rk)%nat → (j + key_words v < rounds v)%nat →
  KeySchedule v K rk !!! (j + key_words v)%nat
  = update v (seq_bit (const_seq v) (j mod 62))
      ((λ k, KeySchedule v K rk !!! (j + k)%nat) <$> seq 0 (key_words v)).
Proof.
  intros Hrk Hj. rewrite KeySchedule_const_seq.
  rewrite schedule_window by (try exact Hrk; lia).
  rewrite KeySchedule_z_lookup by (try exact Hrk; lia).
  rewrite rk_entry_step, round_bit_periodic by exact Hj.
  reflexivity.
Qed.

Lemma X19_schedule_recurrence_witness :
  KeySchedule Simon128_128 [1; 2] (replicate 68 0)
    !!! (65 + key_words Simon128_128)%nat
  = update Simon128_128 (seq_bit (const_seq Simon128_128) (65 mod 62))
      ((λ k, KeySchedule Simon128_128 [1; 2] (replicate 68 0) !!! (65 + k)%nat)
         <$> seq 0 (key_words Simon128_128)).
Proof.
  apply (X19_schedule_recurrence Simon128_128 [1; 2] (replicate 68 0) 65);
    vm_compute; lia.
Defined.

(** ** definitions.h: the rotation macros *)

Lemma word_ext (w x y : Z) :
  0 <= w → word w x → word w y →
  (∀ i, 0 <= i < w → Z.testbit x i = Z.testbit y i) → x = y.
Proof.
  intros Hw Hx Hy H. apply Z.bits_inj'. intros i Hi.
  destruct (Z.lt_ge_cases i w) as [Hlt|Hge].
  - apply H. lia.
  - rewrite (word_bits_high w x i), (word_bits_high w y i)
      by (assumption || lia).
    reflexivity.
Qed.

Lemma ROTR_ROTL (w x r : Z) :
  0 < r < w → word w x → ROTR w (ROTL w x r) r = x.
Proof.
  intros Hr Hx. pose proof (ROTL_word w x r Hr Hx) as Hl.
  apply (word_ext w); [lia | apply ROTR_word; assumption | exact Hx |].
  intros i Hi. rewrite ROTR_testbit by assumption.
  rewrite ROTL_testbit by (try assumption; apply Z.mod_pos_bound; lia).
  unfold rotl_bit. f_equal.
  rewrite Zminus_mod_idemp_l. replace (i + r - r) with i by lia.
  apply Z.mod_small, Hi.
Qed.

Lemma ROTL_ROTR (w x r : Z) :
  0 < r < w → word w x → ROTL w (ROTR w x r) r = x.
Proof.
  intros Hr Hx. pose proof (ROTR_word w x r Hr Hx) as Hl.
  apply (word_ext w); [lia | apply ROTL_word; assumption | exact Hx |].
  intros i Hi. rewrite ROTL_testbit by assumption. unfold rotl_bit.
  rewrite ROTR_testbit by (try assumption; apply Z.mod_pos_bound; lia).
  f_equal. rewrite Zplus_mod_idemp_l. replace (i - r + r) with i by lia.
  apply Z.mod_small, Hi.
Qed.

(** X20.  On [w]-bit words, [ROTR] by [r] undoes [ROTL] by [r] and the
    other way round ([w = 32] for [ROTL32], [ROTR32]; [w = 64] for
    [ROTL64], [ROTR64]). *)
Theorem X20_rotations_inverse (w x r : Z) :
  0 < r < w → word w x →
  ROTR w (ROTL w x r) r = x ∧ ROTL w (ROTR w x r) r = x.
Proof.
  intros Hr Hx. split; [apply ROTR_ROTL | apply ROTL_ROTR]; assumption.
Qed.

Lemma X20_rotations_inverse_witness :
  ROTR 32 (ROTL 32 0x6f722067 3) 3 = 0x6f722067 ∧
  ROTL 32 (ROTR 32 0x6f722067 3) 3 = 0x6f722067.
Proof.
  apply (X20_rotations_inverse 32 0x6f722067 3); unfold word; lia.
Defined.

(** ** simon.c: the entry point *)

(** X21.  Every call of [dpi_c_run_simon] logs the INFO line first, with
    the sizes in bits and the mode; a FAILURE line follows exactly when
    the pair of sizes is not one of the five supported ones, and nothing
    else is logged. *)
Theorem X21_log (stack : local → nat → Z) (crypto_mode : Z)
    (txt_i key_i txt_o : list Z) :
  (dpi_c_run_simon stack crypto_mode txt_i key_i txt_o).1
  = INFO (length txt_i * 8) (length key_i * 8) (crypto_mode =? MODE_ENC)
    :: (if supported (length txt_i * 8) (length key_i * 8) then []
        else [FAILURE (length txt_i * 8) (length key_i * 8)]).
Proof.
  unfold dpi_c_run_simon, supported, all_variants. cbv zeta.
  cbn [existsb block_bits key_bits].
  generalize (length txt_i * 8)%nat (length key_i * 8)%nat. intros a b.
  destruct (Nat.eqb_spec a 64) as [->|Ha];
    [|destruct (Nat.eqb_spec a 128) as [->|Ha']].
  - destruct (Nat.eqb_spec b 96) as [->|Hb];
      [|destruct (Nat.eqb_spec b 128) as [->|Hb']];
      destruct (crypto_mode =? MODE_ENC); reflexivity.
  - destruct (Nat.eqb_spec b 128) as [->|Hb];
      [|destruct (Nat.eqb_spec b 192) as [->|Hb'];
        [|destruct (Nat.eqb_spec b 256) as [->|Hb'']]];
      destruct (crypto_mode =? MODE_ENC); reflexivity.
  - reflexivity.
Qed.



(** X23.  The byte-copy loops of [dpi_c_run_simon] (steps 1a, 1b and 5)
    copy elements [0 .. n-1] of the source, in place, and leave the rest
    of the destination as it was. *)
Theorem X23_copy_bytes (n : nat) (src dst : list Z) :
  (n ≤ length src)%nat → (n ≤ length dst)%nat →
  length (copy_bytes n src dst) = length dst ∧
  take n (copy_bytes n src dst) = take n src ∧
  drop n (copy_bytes n src dst) = drop n dst.
Proof.
  intros Hs Hd. rewrite copy_bytes_written by exact Hd.
  rewrite written_length, written_take, written_drop by exact Hd.
  split; [reflexivity|]. split; [|reflexivity].
  apply fmap_seq_lookups.
  - rewrite length_take. lia.
  - intros p Hp. symmetry. apply lookup_total_take_lt, Hp.
Qed.

Lemma X23_copy_bytes_witness :
  length (copy_bytes 3 [1; 2; 3; 4] [9; 9; 9; 9; 9]) = length [9; 9; 9; 9; 9] ∧
  take 3 (copy_bytes 3 [1; 2; 3; 4] [9; 9; 9; 9; 9]) = take 3 [1; 2; 3; 4] ∧
  drop 3 (copy_bytes 3 [1; 2; 3; 4] [9; 9; 9; 9; 9]) = drop 3 [9; 9; 9; 9; 9].
Proof.
  apply (X23_copy_bytes 3 [1; 2; 3; 4] [9; 9; 9; 9; 9]); vm_compute; lia.
Defined.
